(** * archive/zip reader: a shallow embedding of [reader.go]

    The byte store behind an [io.ReaderAt] is a finite sequence of bytes held
    in memory.  Go slices are lists; an index or a slice expression out of
    range is a run-time panic, which the embedding keeps as the outcome
    [Panic].  Integers of the source ([int], [int64], [uint16], [uint32]) are
    [Z]; where the source truncates to a fixed width the reduction is written
    out.

    What [reader.go] takes from other packages is kept apart from it.  The
    readers of package [io] ([ReaderAt], [SectionReader], [ReadFull]) follow
    that package's documented behaviour on an in-memory store.  The
    decompressor of [compress/flate] and the checksum of [hash/crc32] are
    interfaces, [Flate] and [Crc32], over which the pipeline is stated; the
    examples instantiate them.  Package [os], which [OpenReader] opens the
    archive with, is a file system and a table of open files.  An entry is a
    [*File] shared by the archive and by every reader opened on it, so the
    functions that may assign to it take the entry and return it. *)

From Stdlib Require Import ZArith Lia.
From Stdlib.Strings Require Import Byte.
From stdpp Require Import base list.

Open Scope Z_scope.

(** ** Errors and outcomes *)

(** The package's three error values, the two end-of-input errors of package
    [io], the invalid-argument error of package [os], and the corrupt-input
    error a decompressor may report. *)
Inductive error : Type :=
  | ErrFormat
  | ErrAlgorithm
  | ErrChecksum
  | EOF
  | ErrUnexpectedEOF
  | EINVAL
  | ErrCorruptInput (offset : Z).

#[global] Instance error_eq_dec : EqDecision error.
Proof. solve_decision. Defined.

(** What a call can do: return a value, return an error, or panic. *)
Inductive result (A : Type) : Type :=
  | Ok (a : A)
  | Err (e : error)
  | Panic.
Arguments Ok {A} a.
Arguments Err {A} e.
Arguments Panic {A}.

#[global] Instance result_ret : MRet result := fun A a => Ok a.
#[global] Instance result_bind : MBind result := fun A B k m =>
  match m with
  | Ok a => k a
  | Err e => Err e
  | Panic => Panic
  end.

(** ** Bytes, slices and the little-endian decoder *)

Definition b2z (b : byte) : Z := Z.of_N (Byte.to_N b).

Definition len (b : list byte) : Z := Z.of_nat (length b).

(** [b[i]] *)
Definition index (b : list byte) (i : Z) : result byte :=
  if (i <? 0) || (len b <=? i) then Panic
  else match b !! Z.to_nat i with
       | Some x => Ok x
       | None => Panic
       end.

(** [b[lo:]] *)
Definition sliceFrom (b : list byte) (lo : Z) : result (list byte) :=
  if (lo <? 0) || (len b <? lo) then Panic
  else Ok (drop (Z.to_nat lo) b).

(** [b[lo:hi]]; every slice of the source has its capacity equal to its
    length (arrays, [make] and suffixes of those). *)
Definition slice (b : list byte) (lo hi : Z) : result (list byte) :=
  if (lo <? 0) || (hi <? lo) || (len b <? hi) then Panic
  else Ok (take (Z.to_nat (hi - lo)) (drop (Z.to_nat lo) b)).

Definition uint16 (z : Z) : Z := z mod 65536.
Definition uint32 (z : Z) : Z := z mod 4294967296.

Definition toUint16 (b : list byte) : result Z :=
  b0 ← index b 0;
  b1 ← index b 1;
  Ok (Z.lor (b2z b0) (uint16 (Z.shiftl (b2z b1) 8))).

Definition toUint32 (b : list byte) : result Z :=
  b0 ← index b 0;
  b1 ← index b 1;
  b2 ← index b 2;
  b3 ← index b 3;
  Ok (Z.lor (Z.lor (Z.lor (b2z b0) (uint32 (Z.shiftl (b2z b1) 8)))
                   (uint32 (Z.shiftl (b2z b2) 16)))
            (uint32 (Z.shiftl (b2z b3) 24))).

(** ** Constants of [struct.go] *)

(** Modelled from the spec: the constants of [struct.go], which is not among
    the sources.  The record lengths are the sums of the field widths of the
    binary layout table, the signatures are the four signature bytes read
    little-endian, and the method codes are those the spec lists. *)
Definition fileHeaderSignature : Z := 0x04034b50.
Definition directoryHeaderSignature : Z := 0x02014b50.
Definition directoryEndSignature : Z := 0x06054b50.
Definition fileHeaderLen : Z := 30.
Definition directoryHeaderLen : Z := 46.
Definition directoryEndLen : Z := 22.
Definition dataDescriptorLen : Z := 12.
Definition Store : Z := 0.
Definition Deflate : Z := 8.

(** ** The trailer locator *)

(** One iteration of the loop of [findSignatureInBlock] at position [i]:
    [Some i] when the body returns, [None] when the loop goes on. *)
Definition findSignatureAt (b : list byte) (i : Z) : result (option Z) :=
  c0 ← index b i;
  if negb (Byte.eqb c0 "P"%byte) then Ok None else
  c1 ← index b (i + 1);
  if negb (Byte.eqb c1 "K"%byte) then Ok None else
  c2 ← index b (i + 2);
  if negb (Byte.eqb c2 x05) then Ok None else
  c3 ← index b (i + 3);
  if negb (Byte.eqb c3 x06) then Ok None else
  lo ← index b (i + directoryEndLen - 2);
  hi ← index b (i + directoryEndLen - 1);
  let n := Z.lor (b2z lo) (Z.shiftl (b2z hi) 8) in
  if n + directoryEndLen + i =? len b then Ok (Some i) else Ok None.

(** The loop [for i := len(b) - directoryEndLen; i >= 0; i--], counted by
    [k = i + 1]. *)
Fixpoint findSignatureFrom (b : list byte) (k : nat) : result Z :=
  match k with
  | O => Ok (-1)
  | S k' =>
      r ← findSignatureAt b (Z.of_nat k');
      match r with
      | Some i => Ok i
      | None => findSignatureFrom b k'
      end
  end.

Definition findSignatureInBlock (b : list byte) : result Z :=
  findSignatureFrom b (Z.to_nat (len b - directoryEndLen + 1)).

Record directoryEnd : Type := {
  diskNbr : Z;
  dirDiskNbr : Z;
  dirRecordsThisDisk : Z;
  directoryRecords : Z;
  directorySize : Z;
  directoryOffset : Z;
  commentLen : Z;
  comment : list byte
}.

(** The second half of [readDirectoryEnd], "read header into struct", on the
    slice [b] that starts at the accepted signature. *)
Definition decodeDirectoryEnd (b : list byte) : result directoryEnd :=
  diskNbr ← sliceFrom b 4 ≫= toUint16;
  dirDiskNbr ← sliceFrom b 6 ≫= toUint16;
  dirRecordsThisDisk ← sliceFrom b 8 ≫= toUint16;
  directoryRecords ← sliceFrom b 10 ≫= toUint16;
  directorySize ← sliceFrom b 12 ≫= toUint32;
  directoryOffset ← sliceFrom b 16 ≫= toUint32;
  commentLen ← sliceFrom b 20 ≫= toUint16;
  comment ← slice b 22 (22 + commentLen);
  Ok {| diskNbr := diskNbr; dirDiskNbr := dirDiskNbr;
        dirRecordsThisDisk := dirRecordsThisDisk;
        directoryRecords := directoryRecords;
        directorySize := directorySize;
        directoryOffset := directoryOffset;
        commentLen := commentLen; comment := comment |}.

(** Package [io], [ReaderAt], on the in-memory store. [r.ReadAt(p, off)]
    with [len(p) = n]: the bytes read, and [EOF] when they are fewer than [n]
    ("when ReadAt returns n < len(p), it returns a non-nil error explaining
    why"); a negative offset is an invalid argument. *)
Definition ReadAt (r : list byte) (n off : Z) : list byte * option error :=
  if off <? 0 then ([], Some EINVAL)
  else
    let got := take (Z.to_nat n) (drop (Z.to_nat off) r) in
    (got, if len got <? n then Some EOF else None).

(** [make([]byte, n)] followed by [r.ReadAt(b, off)]: the buffer afterwards,
    zero where nothing was read. *)
Definition readBlock (r : list byte) (n off : Z) : list byte * option error :=
  let '(got, err) := ReadAt r n off in
  (got ++ replicate (Z.to_nat n - length got) x00, err).

(** [int(x)] for an [int64] [x].  An [int] of this source tree has 32
    bits, so the conversion keeps the low 32 bits of [x], read as a signed
    number. *)
Definition int (x : Z) : Z :=
  (x + 2147483648) mod 4294967296 - 2147483648.

(** The loop of [readDirectoryEnd], [for i, bLen := range ws], from
    iteration [i] on; [Ok b] is the slice [b[p:]] the loop leaves by
    [break] (or the last block when the range is used up).  The block is
    made with the length [int(bLen)], and [make] panics when that is
    negative; the offset of the read is computed in [int64]. *)
Fixpoint locateDirectoryEnd (r : list byte) (size : Z) (i : Z) (ws : list Z)
    (b : list byte) : result (list byte) :=
  match ws with
  | [] => Ok b
  | bLen :: ws' =>
      let bLen := if size <? bLen then size else bLen in
      if int bLen <? 0 then Panic else
      let '(b, err) := readBlock r (int bLen) (size - bLen) in
      match err with
      | Some EOF | None =>
          p ← findSignatureInBlock b;
          if 0 <=? p then sliceFrom b p
          else if (i =? 1) || (bLen =? size) then Err ErrFormat
          else locateDirectoryEnd r size (i + 1) ws' b
      | Some e => Err e
      end
  end.

(** [readDirectoryEnd] with the window lengths [ws] in place of those of
    the source, so that other lengths can be compared with them. *)
Definition readDirectoryEndIn (ws : list Z) (r : list byte) (size : Z)
    : result directoryEnd :=
  locateDirectoryEnd r size 0 ws [] ≫= decodeDirectoryEnd.

(** The window lengths of the source: [[]int64{1024, 65 * 1024}]. *)
Definition directoryEndWindows : list Z := [1024; 65 * 1024].

Definition readDirectoryEnd (r : list byte) (size : Z) : result directoryEnd :=
  readDirectoryEndIn directoryEndWindows r size.

(** ** Section readers and [io.ReadFull] *)

(** Package [io], [SectionReader]: the store, and the absolute offsets
    [base], [off] and [limit]. *)
Record SectionReader : Type := {
  sr_r : list byte;
  sr_base : Z;
  sr_off : Z;
  sr_limit : Z
}.

Definition NewSectionReader (r : list byte) (off n : Z) : SectionReader :=
  {| sr_r := r; sr_base := off; sr_off := off; sr_limit := off + n |}.

Definition sr_advance (s : SectionReader) (n : Z) : SectionReader :=
  {| sr_r := sr_r s; sr_base := sr_base s; sr_off := sr_off s + n;
     sr_limit := sr_limit s |}.

(** [s.Read(p)] with [len(p) = n]: end of input at the limit, otherwise one
    [ReadAt] of at most [limit - off] bytes. *)
Definition SectionReader_Read (s : SectionReader) (n : Z)
    : list byte * option error * SectionReader :=
  if sr_limit s <=? sr_off s then ([], Some EOF, s)
  else
    let max := sr_limit s - sr_off s in
    let n := if max <? n then max else n in
    let '(got, err) := ReadAt (sr_r s) n (sr_off s) in
    (got, err, sr_advance s (len got)).

(** [s.Seek(offset, os.SEEK_SET)]: the section reader of this source tree
    refuses a position before the base or past the limit with [os.EINVAL]. *)
Definition SectionReader_Seek (s : SectionReader) (offset : Z)
    : result Z * SectionReader :=
  let offset := offset + sr_base s in
  if (offset <? sr_base s) || (sr_limit s <? offset) then (Err EINVAL, s)
  else (Ok (offset - sr_base s),
        {| sr_r := sr_r s; sr_base := sr_base s; sr_off := offset;
           sr_limit := sr_limit s |}).

(** The loop of [io.ReadAtLeast], [for n < min && err == nil], with [buf]
    the bytes read so far.  Every round without an error reads at least one
    byte, so [fuel] above [min] is never used up ([readAtLeastLoop_spec]). *)
Fixpoint readAtLeastLoop (fuel : nat) (s : SectionReader) (min : Z)
    (buf : list byte) : option (list byte * option error * SectionReader) :=
  if min <=? len buf then Some (buf, None, s)
  else match fuel with
       | O => None
       | S fuel' =>
           let '(got, err, s') := SectionReader_Read s (min - len buf) in
           match err with
           | None => readAtLeastLoop fuel' s' min (buf ++ got)
           | Some e => Some (buf ++ got, Some e, s')
           end
       end.

(** [io.ReadFull(s, buf)] with [len(buf) = n], that is [ReadAtLeast] with
    [min = len(buf)] and its conversion of the error afterwards: "The error
    is EOF only if no bytes were read. If an EOF happens after reading some
    but not all the bytes, ReadFull returns ErrUnexpectedEOF."  A
    [bufio.Reader] over a section reader delivers the same bytes in the same
    order, so the buffered reader of [init] is its section reader. *)
Definition ReadFull (s : SectionReader) (n : Z) : result (list byte) * SectionReader :=
  match readAtLeastLoop (S (Z.to_nat n)) s n [] with
  | None => (Panic, s)
  | Some (buf, None, s') => (Ok buf, s')
  | Some (buf, Some EOF, s') =>
      if n <=? len buf then (Ok buf, s')
      else if 0 <? len buf then (Err ErrUnexpectedEOF, s')
      else (Err EOF, s')
  | Some (buf, Some e, s') => (Err e, s')
  end.

(** Code that reads from one section reader and may fail: the reader is
    threaded through, an error or a panic ends the computation. *)
Definition io (A : Type) : Type := SectionReader → result A * SectionReader.

#[global] Instance io_ret : MRet io := fun A a s => (Ok a, s).
#[global] Instance io_bind : MBind io := fun A B k m s =>
  match m s with
  | (Ok a, s') => k a s'
  | (Err e, s') => (Err e, s')
  | (Panic, s') => (Panic, s')
  end.

Definition liftR {A : Type} (x : result A) : io A := fun s => (x, s).

(** ** Entries *)

(** [File]: the fields of the embedded [FileHeader] that the reader assigns,
    then [zipr], [zipsize] and [headerOffset]. *)
Record File : Type := {
  Name : list byte;
  CreatorVersion : Z;
  ReaderVersion : Z;
  Flags : Z;
  Method : Z;
  ModifiedTime : Z;
  ModifiedDate : Z;
  CRC32 : Z;
  CompressedSize : Z;
  UncompressedSize : Z;
  Extra : list byte;
  ExternalAttrs : Z;
  Comment : list byte;
  zipr : list byte;
  zipsize : Z;
  headerOffset : Z
}.

(** [&File{zipr: r, zipsize: size}] *)
Definition newFile (r : list byte) (size : Z) : File :=
  {| Name := []; CreatorVersion := 0; ReaderVersion := 0; Flags := 0;
     Method := 0; ModifiedTime := 0; ModifiedDate := 0; CRC32 := 0;
     CompressedSize := 0; UncompressedSize := 0; Extra := [];
     ExternalAttrs := 0; Comment := []; zipr := r; zipsize := size;
     headerOffset := 0 |}.

Definition hasDataDescriptor (f : File) : bool :=
  negb (Z.land (Flags f) 0x8 =? 0).

(** ** The directory parser *)

Definition readDirectoryHeader (f : File) : io File :=
  b ← (fun s => ReadFull s directoryHeaderLen);
  sig ← liftR (toUint32 b);
  if negb (sig =? directoryHeaderSignature) then liftR (Err ErrFormat) else
  creatorVersion ← liftR (sliceFrom b 4 ≫= toUint16);
  readerVersion ← liftR (sliceFrom b 6 ≫= toUint16);
  flags ← liftR (sliceFrom b 8 ≫= toUint16);
  method ← liftR (sliceFrom b 10 ≫= toUint16);
  modifiedTime ← liftR (sliceFrom b 12 ≫= toUint16);
  modifiedDate ← liftR (sliceFrom b 14 ≫= toUint16);
  crc32 ← liftR (sliceFrom b 16 ≫= toUint32);
  compressedSize ← liftR (sliceFrom b 20 ≫= toUint32);
  uncompressedSize ← liftR (sliceFrom b 24 ≫= toUint32);
  filenameLen ← liftR (sliceFrom b 28 ≫= toUint16);
  extraLen ← liftR (slice b 30 32 ≫= toUint16);
  commentLen ← liftR (sliceFrom b 32 ≫= toUint16);
  externalAttrs ← liftR (sliceFrom b 38 ≫= toUint32);
  headerOffset ← liftR (sliceFrom b 42 ≫= toUint32);
  d ← (fun s => ReadFull s (filenameLen + extraLen + commentLen));
  name ← liftR (slice d 0 filenameLen);
  extra ← liftR (slice d filenameLen (filenameLen + extraLen));
  comment ← liftR (sliceFrom d (filenameLen + extraLen));
  mret {| Name := name; CreatorVersion := creatorVersion;
          ReaderVersion := readerVersion; Flags := flags; Method := method;
          ModifiedTime := modifiedTime; ModifiedDate := modifiedDate;
          CRC32 := crc32; CompressedSize := compressedSize;
          UncompressedSize := uncompressedSize; Extra := extra;
          ExternalAttrs := externalAttrs; Comment := comment;
          zipr := zipr f; zipsize := zipsize f;
          headerOffset := headerOffset |}.

(** How the loop of [init] ends: by [break], with the error that stopped it
    and the files read so far, or by [return err]. *)
Inductive loopExit : Type :=
  | Break (files : list File) (err : error)
  | Return (err : error)
  | LoopPanic.

(** The loop of [init]: every round that goes on has read a header, so
    [fuel] above the number of unread bytes is never used up. *)
Fixpoint readDirectoryLoop (fuel : nat) (r : list byte) (size : Z)
    (buf : SectionReader) (files : list File) : option loopExit :=
  match fuel with
  | O => None
  | S fuel' =>
      match readDirectoryHeader (newFile r size) buf with
      | (Err ErrFormat, _) => Some (Break files ErrFormat)
      | (Err ErrUnexpectedEOF, _) => Some (Break files ErrUnexpectedEOF)
      | (Err e, _) => Some (Return e)
      | (Panic, _) => Some LoopPanic
      | (Ok f, buf') => readDirectoryLoop fuel' r size buf' (files ++ [f])
      end
  end.

Record Reader : Type := {
  rd_r : list byte;
  rd_File : list File;
  rd_Comment : list byte
}.

(** The part of [init] after the trailer is read. *)
Definition readDirectory (r : list byte) (size : Z) (dirEnd : directoryEnd)
    : option (result Reader) :=
  let rs := NewSectionReader r 0 size in
  match SectionReader_Seek rs (directoryOffset dirEnd) with
  | (Err e, _) => Some (Err e)
  | (Panic, _) => Some Panic
  | (Ok _, rs) =>
      match readDirectoryLoop (S (length r)) r size rs [] with
      | None => None
      | Some LoopPanic => Some Panic
      | Some (Return e) => Some (Err e)
      | Some (Break files err) =>
          if negb (uint16 (Z.of_nat (length files)) =? directoryRecords dirEnd)
          then Some (Err err)
          else Some (Ok {| rd_r := r; rd_File := files;
                           rd_Comment := comment dirEnd |})
      end
  end.

(** [Reader.init]; [None] would say that the loop ran out of fuel. *)
Definition init (r : list byte) (size : Z) : option (result Reader) :=
  match readDirectoryEnd r size with
  | Err e => Some (Err e)
  | Panic => Some Panic
  | Ok dirEnd => readDirectory r size dirEnd
  end.

(** [NewReader]: the reader that [init] fills, or its error. *)
Definition NewReader (r : list byte) (size : Z) : option (result Reader) :=
  init r size.

(** ** The local header resolver *)

Definition findBodyOffset (f : File) : result Z :=
  let r := NewSectionReader (zipr f) (headerOffset f)
             (zipsize f - headerOffset f) in
  match ReadFull r fileHeaderLen with
  | (Err e, _) => Err e
  | (Panic, _) => Panic
  | (Ok b, _) =>
      sig ← slice b 0 4 ≫= toUint32;
      if negb (sig =? fileHeaderSignature) then Err ErrFormat else
      filenameLen ← slice b 26 28 ≫= toUint16;
      extraLen ← slice b 28 30 ≫= toUint16;
      Ok (fileHeaderLen + filenameLen + extraLen)
  end.

(** ** The local header parser *)

(** The assignments of [readFileHeader] between its two reads, from the 30
    bytes [b] of a local file header: the entry with its fixed fields
    assigned, and the lengths of the name and of the extra field. *)
Definition fileHeaderFields (f : File) (b : list byte) : result (File * Z * Z) :=
  readerVersion ← sliceFrom b 4 ≫= toUint16;
  flags ← sliceFrom b 6 ≫= toUint16;
  method ← sliceFrom b 8 ≫= toUint16;
  modifiedTime ← sliceFrom b 10 ≫= toUint16;
  modifiedDate ← sliceFrom b 12 ≫= toUint16;
  crc32 ← sliceFrom b 14 ≫= toUint32;
  compressedSize ← sliceFrom b 18 ≫= toUint32;
  uncompressedSize ← sliceFrom b 22 ≫= toUint32;
  filenameLen ← sliceFrom b 26 ≫= toUint16;
  extraLen ← sliceFrom b 28 ≫= toUint16;
  Ok ({| Name := Name f; CreatorVersion := CreatorVersion f;
         ReaderVersion := readerVersion; Flags := flags; Method := method;
         ModifiedTime := modifiedTime; ModifiedDate := modifiedDate;
         CRC32 := crc32; CompressedSize := compressedSize;
         UncompressedSize := uncompressedSize; Extra := Extra f;
         ExternalAttrs := ExternalAttrs f; Comment := Comment f;
         zipr := zipr f; zipsize := zipsize f;
         headerOffset := headerOffset f |}, filenameLen, extraLen).

(** The entry [f] with another name and extra field. *)
Definition withName (f : File) (name extra : list byte) : File :=
  {| Name := name; CreatorVersion := CreatorVersion f;
     ReaderVersion := ReaderVersion f; Flags := Flags f;
     Method := Method f; ModifiedTime := ModifiedTime f;
     ModifiedDate := ModifiedDate f; CRC32 := CRC32 f;
     CompressedSize := CompressedSize f;
     UncompressedSize := UncompressedSize f; Extra := extra;
     ExternalAttrs := ExternalAttrs f; Comment := Comment f;
     zipr := zipr f; zipsize := zipsize f;
     headerOffset := headerOffset f |}.

(** [readFileHeader(f, r)]: the error returned ([Ok tt] for [nil]), and the
    entry and the reader afterwards.  The entry is assigned to while the
    header is decoded, so it is given back on every path. *)
Definition readFileHeader (f : File) (r : SectionReader)
    : result unit * File * SectionReader :=
  match ReadFull r fileHeaderLen with
  | (Err e, r) => (Err e, f, r)
  | (Panic, r) => (Panic, f, r)
  | (Ok b, r) =>
      match toUint32 b with
      | Err e => (Err e, f, r)
      | Panic => (Panic, f, r)
      | Ok sig =>
          if negb (sig =? fileHeaderSignature) then (Err ErrFormat, f, r) else
          match fileHeaderFields f b with
          | Err e => (Err e, f, r)
          | Panic => (Panic, f, r)
          | Ok (f, filenameLen, extraLen) =>
              match ReadFull r (filenameLen + extraLen) with
              | (Err e, r) => (Err e, f, r)
              | (Panic, r) => (Panic, f, r)
              | (Ok d, r) =>
                  match slice d 0 filenameLen, sliceFrom d filenameLen with
                  | Ok name, Ok extra => (Ok tt, withName f name extra, r)
                  | _, _ => (Panic, f, r)
                  end
              end
          end
      end
  end.

(** ** The decompression pipeline *)

(** Package [hash/crc32] as the reader uses it: [crc32.NewIEEE()], and the
    [Write] and [Sum32] of the [hash.Hash32] it returns. *)
Class Crc32 (H : Type) : Type := {
  crc32_NewIEEE : H;
  hash_Write : H → list byte → H;
  hash_Sum32 : H → Z
}.

(** One [Read] of a decompressor: the bytes it delivered, its error, how
    many bytes it took from the reader beneath it, and its next state. *)
Record flateStep (F : Type) : Type := {
  fs_data : list byte;
  fs_err : option error;
  fs_consumed : Z;
  fs_next : F
}.
Arguments fs_data {F} _.
Arguments fs_err {F} _.
Arguments fs_consumed {F} _.
Arguments fs_next {F} _.

(** Package [compress/flate] as the reader uses it: [flate.NewReader(r)],
    and [Read(p)] given the bytes [r] can still deliver and [len(p)]. *)
Class Flate (F : Type) : Type := {
  flate_NewReader : F;
  flate_Read : F → list byte → Z → flateStep F
}.

(** The bytes a section reader can still deliver. *)
Definition sr_remaining (s : SectionReader) : list byte :=
  take (Z.to_nat (sr_limit s - sr_off s)) (drop (Z.to_nat (sr_off s)) (sr_r s)).

Definition readDataDescriptor (f : File) : io File :=
  b ← (fun s => ReadFull s dataDescriptorLen);
  crc32 ← liftR (slice b 0 4 ≫= toUint32);
  compressedSize ← liftR (slice b 4 8 ≫= toUint32);
  uncompressedSize ← liftR (slice b 8 12 ≫= toUint32);
  mret {| Name := Name f; CreatorVersion := CreatorVersion f;
          ReaderVersion := ReaderVersion f; Flags := Flags f;
          Method := Method f; ModifiedTime := ModifiedTime f;
          ModifiedDate := ModifiedDate f; CRC32 := crc32;
          CompressedSize := compressedSize;
          UncompressedSize := uncompressedSize; Extra := Extra f;
          ExternalAttrs := ExternalAttrs f; Comment := Comment f;
          zipr := zipr f; zipsize := zipsize f;
          headerOffset := headerOffset f |}.

Section Pipeline.
Context {H F : Type} `{!Crc32 H} `{!Flate F}.

(** The [io.ReadCloser] that [Open] picks by method: the section reader
    itself behind [ioutil.NopCloser], or a flate reader over it.  Either
    way the section reader beneath is the one [checksumReader.zipr] names,
    so it is kept once, in [cr_zipr]. *)
Inductive ReadCloser : Type :=
  | NopCloser
  | flateReader (st : F).

(** [checksumReader] without its field [f]: that one is a pointer to the
    entry, which [Read] takes and gives back. *)
Record checksumReader : Type := {
  cr_rc : ReadCloser;
  cr_hash : H;
  cr_zipr : SectionReader
}.

(** [rc.Read(b)] with [len(b) = n]. *)
Definition rc_Read (rc : ReadCloser) (s : SectionReader) (n : Z)
    : list byte * option error * ReadCloser * SectionReader :=
  match rc with
  | NopCloser =>
      let '(got, err, s') := SectionReader_Read s n in
      (got, err, NopCloser, s')
  | flateReader st =>
      let avail := sr_remaining s in
      let step := flate_Read st avail n in
      (take (Z.to_nat n) (fs_data step), fs_err step,
       flateReader (fs_next step),
       sr_advance s (Z.min (Z.max 0 (fs_consumed step)) (len avail)))
  end.

(** The section reader [Open] builds for the body at [bodyOffset]. *)
Definition bodySection (f : File) (bodyOffset : Z) : SectionReader :=
  let size := CompressedSize f in
  let size :=
    if (size =? 0) && hasDataDescriptor f
    then zipsize f - (headerOffset f + bodyOffset)
    else size in
  NewSectionReader (zipr f) (headerOffset f + bodyOffset) size.

(** [File.Open]: the pair [(rc, err)] it returns. *)
Definition Open (f : File) : result (option checksumReader * option error) :=
  match findBodyOffset f with
  | Panic => Panic
  | Err e => Ok (None, Some e)
  | Ok bodyOffset =>
      let r := bodySection f bodyOffset in
      let '(rc, err) :=
        if Method f =? Store then (Some NopCloser, None)
        else if Method f =? Deflate then (Some (flateReader flate_NewReader), None)
        else (None, Some ErrAlgorithm) in
      let rc :=
        match rc with
        | Some rc => Some {| cr_rc := rc; cr_hash := crc32_NewIEEE; cr_zipr := r |}
        | None => None
        end in
      Ok (rc, err)
  end.

(** [checksumReader.Read(b)] with [len(b) = n], on the entry [f]: the
    bytes [b[:n]] and the error returned, the reader and the entry
    afterwards. *)
Definition Read (r : checksumReader) (f : File) (n : Z)
    : result (list byte * option error) * checksumReader * File :=
  let '(data, err, rc, zr) := rc_Read (cr_rc r) (cr_zipr r) n in
  let hash := hash_Write (cr_hash r) data in
  let r' := {| cr_rc := rc; cr_hash := hash; cr_zipr := zr |} in
  match err with
  | Some EOF =>
      if hasDataDescriptor f then
        match readDataDescriptor f zr with
        | (Err e, zr') =>
            (Ok (data, Some e), {| cr_rc := rc; cr_hash := hash; cr_zipr := zr' |}, f)
        | (Panic, zr') =>
            (Panic, {| cr_rc := rc; cr_hash := hash; cr_zipr := zr' |}, f)
        | (Ok f', zr') =>
            (Ok (data, if negb (hash_Sum32 hash =? CRC32 f')
                       then Some ErrChecksum else None),
             {| cr_rc := rc; cr_hash := hash; cr_zipr := zr' |}, f')
        end
      else
        (Ok (data, if negb (hash_Sum32 hash =? CRC32 f)
                   then Some ErrChecksum else Some EOF), r', f)
  | _ => (Ok (data, err), r', f)
  end.

(** A caller that reads with buffers of length [n] until [Read] returns an
    error: the bytes delivered, that error, and the entry afterwards. *)
Fixpoint drain (fuel : nat) (n : Z) (r : checksumReader) (f : File)
    (acc : list byte) : option (result (list byte * error) * File) :=
  match fuel with
  | O => None
  | S fuel' =>
      match Read r f n with
      | (Ok (data, None), r', f') => drain fuel' n r' f' (acc ++ data)
      | (Ok (data, Some e), _, f') => Some (Ok (acc ++ data, e), f')
      | (Err e, _, f') => Some (Err e, f')
      | (Panic, _, f') => Some (Panic, f')
      end
  end.

End Pipeline.

(** ** Archives in files *)

(** Package [os] as [OpenReader] uses it: [os.Open], and the [Stat] and
    [Close] of the [*os.File] it returns.  A file holds its bytes and the
    error that [Stat] reports on it, if any.  The world is the file system,
    which maps names to files, and the table of the files the process holds
    open, each under its descriptor. *)
Inductive osError : Type :=
  | ENOENT
  | EIO
  | EBADF.

Record osFile : Type := {
  file_data : list byte;
  file_statError : option osError
}.

Record World : Type := {
  w_files : list byte → option osFile;
  w_open : list (nat * osFile);
  w_next : nat
}.

Fixpoint lookupFd (fd : nat) (t : list (nat * osFile)) : option osFile :=
  match t with
  | [] => None
  | (fd', file) :: t' => if Nat.eqb fd fd' then Some file else lookupFd fd t'
  end.

Fixpoint removeFd (fd : nat) (t : list (nat * osFile)) : list (nat * osFile) :=
  match t with
  | [] => []
  | (fd', file) :: t' =>
      if Nat.eqb fd fd' then t' else (fd', file) :: removeFd fd t'
  end.

(** [os.Open(name)]: a missing file is an error, a file that is there is
    entered into the table under a new descriptor. *)
Definition os_Open (name : list byte) (w : World) : (osError + nat) * World :=
  match w_files w name with
  | None => (inl ENOENT, w)
  | Some file =>
      (inr (w_next w),
       {| w_files := w_files w; w_open := (w_next w, file) :: w_open w;
          w_next := S (w_next w) |})
  end.

(** [f.Stat()] followed by [fi.Size()]. *)
Definition File_Stat (f : nat) (w : World) : osError + Z :=
  match lookupFd f (w_open w) with
  | None => inl EBADF
  | Some file =>
      match file_statError file with
      | Some e => inl e
      | None => inr (len (file_data file))
      end
  end.

(** [f.Close()]. *)
Definition File_Close (f : nat) (w : World) : option osError * World :=
  match lookupFd f (w_open w) with
  | None => (Some EBADF, w)
  | Some _ =>
      (None, {| w_files := w_files w; w_open := removeFd f (w_open w);
                w_next := w_next w |})
  end.

(** The bytes that [ReadAt] on the open file [f] reads from. *)
Definition File_bytes (f : nat) (w : World) : list byte :=
  match lookupFd f (w_open w) with
  | Some file => file_data file
  | None => []
  end.

(** [ReadCloser] of package zip (the name [ReadCloser] is that of the
    interface of package [io] above): the open file and the embedded
    [Reader]. *)
Record zipReadCloser : Type := {
  rc_f : nat;
  rc_Reader : Reader
}.

(** What [OpenReader] returns: the [ReadCloser], the error of package [os]
    or that of [init]; or it panics. *)
Inductive opened : Type :=
  | Opened (rc : zipReadCloser)
  | OsFailed (e : osError)
  | InitFailed (e : error)
  | OpenPanic.

(** [OpenReader]; [None] would say that the loop of [init] ran out of
    fuel. *)
Definition OpenReader (name : list byte) (w : World) : option (opened * World) :=
  match os_Open name w with
  | (inl err, w) => Some (OsFailed err, w)
  | (inr f, w) =>
      match File_Stat f w with
      | inl err =>
          let '(_, w) := File_Close f w in
          Some (OsFailed err, w)
      | inr size =>
          match init (File_bytes f w) size with
          | None => None
          | Some Panic => Some (OpenPanic, w)
          | Some (Err err) =>
              let '(_, w) := File_Close f w in
              Some (InitFailed err, w)
          | Some (Ok rd) => Some (Opened {| rc_f := f; rc_Reader := rd |}, w)
          end
      end
  end.

(** [ReadCloser.Close]. *)
Definition zipReadCloser_Close (rc : zipReadCloser) (w : World)
    : option osError * World :=
  File_Close (rc_f rc) w.

(** ** Vocabulary of the statements *)

(** The byte of [b] at position [i], zero outside of [b]. *)
Definition byteAt (b : list byte) (i : Z) : byte :=
  default x00 (b !! Z.to_nat i).

(** The little-endian 16-bit and 32-bit fields of [b] at position [i]. *)
Definition le16 (b : list byte) (i : Z) : Z :=
  b2z (byteAt b i) + 256 * b2z (byteAt b (i + 1)).

Definition le32 (b : list byte) (i : Z) : Z :=
  b2z (byteAt b i) + 256 * b2z (byteAt b (i + 1))
  + 65536 * b2z (byteAt b (i + 2)) + 16777216 * b2z (byteAt b (i + 3)).

(** The acceptance rule of the trailer locator in a window [b]: the four
    signature bytes stand at [p], and the comment length [n] read at the
    fixed offset from [p] satisfies [p + directoryEndLen + n = len b]. *)
Definition acceptable (b : list byte) (p : Z) : bool :=
  (0 <=? p)
  && Byte.eqb (byteAt b p) "P"%byte
  && Byte.eqb (byteAt b (p + 1)) "K"%byte
  && Byte.eqb (byteAt b (p + 2)) x05
  && Byte.eqb (byteAt b (p + 3)) x06
  && (p + directoryEndLen + le16 b (p + 20) =? len b).

(** The trailer record that starts at position [p] of [b], read field by
    field, with the comment that follows it. *)
Definition directoryEndAt (b : list byte) (p : Z) : directoryEnd :=
  {| diskNbr := le16 b (p + 4);
     dirDiskNbr := le16 b (p + 6);
     dirRecordsThisDisk := le16 b (p + 8);
     directoryRecords := le16 b (p + 10);
     directorySize := le32 b (p + 12);
     directoryOffset := le32 b (p + 16);
     commentLen := le16 b (p + 20);
     comment := take (Z.to_nat (le16 b (p + 20))) (drop (Z.to_nat (p + 22)) b) |}.

(** The largest position below [k] that the acceptance rule accepts, [-1]
    when there is none. *)
Fixpoint lastAcceptable (b : list byte) (k : nat) : Z :=
  match k with
  | O => -1
  | S k' => if acceptable b (Z.of_nat k') then Z.of_nat k' else lastAcceptable b k'
  end.

(** The result of scanning a whole block backward by the acceptance rule. *)
Definition lastAcceptableIn (b : list byte) : Z :=
  lastAcceptable b (Z.to_nat (len b - directoryEndLen + 1)).

(** What a backward scan of the whole store by the acceptance rule gives:
    the trailer at the last acceptable position, or [ErrFormat]. *)
Definition scanWholeStore (r : list byte) : result directoryEnd :=
  if 0 <=? lastAcceptableIn r
  then Ok (directoryEndAt r (lastAcceptableIn r))
  else Err ErrFormat.

(** The entry that [readDirectoryHeader] builds from the 46 bytes [b] of a
    central directory header and the bytes [d] that follow them. *)
Definition directoryHeaderOf (f : File) (b d : list byte) : File :=
  {| Name := take (Z.to_nat (le16 b 28)) d;
     CreatorVersion := le16 b 4;
     ReaderVersion := le16 b 6;
     Flags := le16 b 8;
     Method := le16 b 10;
     ModifiedTime := le16 b 12;
     ModifiedDate := le16 b 14;
     CRC32 := le32 b 16;
     CompressedSize := le32 b 20;
     UncompressedSize := le32 b 24;
     Extra := take (Z.to_nat (le16 b 30)) (drop (Z.to_nat (le16 b 28)) d);
     ExternalAttrs := le32 b 38;
     Comment := drop (Z.to_nat (le16 b 28 + le16 b 30)) d;
     zipr := zipr f;
     zipsize := zipsize f;
     headerOffset := le32 b 42 |}.

(** The length of the name, extra and comment blocks that a central
    directory header [b] announces. *)
Definition directoryHeaderTail (b : list byte) : Z :=
  le16 b 28 + le16 b 30 + le16 b 32.

(** The section reader of [init] once it has sought the directory offset
    [off]. *)
Definition directoryReader (r : list byte) (size off : Z) : SectionReader :=
  {| sr_r := r; sr_base := 0; sr_off := off; sr_limit := size |}.

(** The directory that a reader holds: the entries that
    [readDirectoryHeader] decodes one after another from it, and the error
    of the read at which decoding stops. *)
Inductive directoryOf (r : list byte) (size : Z)
    : SectionReader → list File → error → Prop :=
  | directory_stop (s s' : SectionReader) (e : error) :
      readDirectoryHeader (newFile r size) s = (Err e, s') →
      directoryOf r size s [] e
  | directory_entry (s s' : SectionReader) (f : File) (fs : list File)
      (e : error) :
      readDirectoryHeader (newFile r size) s = (Ok f, s') →
      directoryOf r size s' fs e →
      directoryOf r size s (f :: fs) e.

(** How the loop of [init] leaves on the error [e] with the files [fs]. *)
Definition exitOn (fs : list File) (e : error) : loopExit :=
  match e with
  | ErrFormat => Break fs ErrFormat
  | ErrUnexpectedEOF => Break fs ErrUnexpectedEOF
  | _ => Return e
  end.

(** The entry [f] with the three fields that a data descriptor carries. *)
Definition withDescriptor (f : File) (crc32 compressedSize uncompressedSize : Z)
    : File :=
  {| Name := Name f; CreatorVersion := CreatorVersion f;
     ReaderVersion := ReaderVersion f; Flags := Flags f;
     Method := Method f; ModifiedTime := ModifiedTime f;
     ModifiedDate := ModifiedDate f; CRC32 := crc32;
     CompressedSize := compressedSize;
     UncompressedSize := uncompressedSize; Extra := Extra f;
     ExternalAttrs := ExternalAttrs f; Comment := Comment f;
     zipr := zipr f; zipsize := zipsize f;
     headerOffset := headerOffset f |}.



(** ** Stores used in the examples *)




(** An archive of four entries.  [a] holds "hello", stored.  [b] holds "hi"
    as one stored deflate block, with the data-descriptor flag and zero
    sizes in its headers, followed by its data descriptor.  [c] is stored
    with the data-descriptor flag, the compressed size 5 and the CRC-32 of
    "hello" in the directory and in its data descriptor, and the body
    "jello".  [d] has the method code 99. *)
Definition sampleArchive : list byte :=
  [x50; x4b; x03; x04; x14; x00; x00; x00; x00; x00; x00; x00; x00; x00;
   x86; xa6; x10; x36; x05; x00; x00; x00; x05; x00; x00; x00; x01; x00;
   x00; x00; x61; x68; x65; x6c; x6c; x6f; x50; x4b; x03; x04; x14; x00;
   x08; x00; x08; x00; x00; x00; x00; x00; x00; x00; x00; x00; x00; x00;
   x00; x00; x00; x00; x00; x00; x01; x00; x00; x00; x62; x01; x02; x00;
   xfd; xff; x68; x69; xac; x2a; x93; xd8; x07; x00; x00; x00; x02; x00;
   x00; x00; x50; x4b; x03; x04; x14; x00; x08; x00; x00; x00; x00; x00;
   x00; x00; x00; x00; x00; x00; x00; x00; x00; x00; x00; x00; x00; x00;
   x01; x00; x00; x00; x63; x6a; x65; x6c; x6c; x6f; x86; xa6; x10; x36;
   x05; x00; x00; x00; x05; x00; x00; x00; x50; x4b; x03; x04; x14; x00;
   x00; x00; x63; x00; x00; x00; x00; x00; x00; x00; x00; x00; x00; x00;
   x00; x00; x00; x00; x00; x00; x01; x00; x00; x00; x64; x50; x4b; x01;
   x02; x14; x00; x14; x00; x00; x00; x00; x00; x00; x00; x00; x00; x86;
   xa6; x10; x36; x05; x00; x00; x00; x05; x00; x00; x00; x01; x00; x00;
   x00; x00; x00; x00; x00; x00; x00; x00; x00; x00; x00; x00; x00; x00;
   x00; x61; x50; x4b; x01; x02; x14; x00; x14; x00; x08; x00; x08; x00;
   x00; x00; x00; x00; x00; x00; x00; x00; x00; x00; x00; x00; x00; x00;
   x00; x00; x01; x00; x00; x00; x00; x00; x00; x00; x00; x00; x00; x00;
   x00; x00; x24; x00; x00; x00; x62; x50; x4b; x01; x02; x14; x00; x14;
   x00; x08; x00; x00; x00; x00; x00; x00; x00; x86; xa6; x10; x36; x05;
   x00; x00; x00; x05; x00; x00; x00; x01; x00; x00; x00; x00; x00; x00;
   x00; x00; x00; x00; x00; x00; x00; x56; x00; x00; x00; x63; x50; x4b;
   x01; x02; x14; x00; x14; x00; x00; x00; x63; x00; x00; x00; x00; x00;
   x00; x00; x00; x00; x00; x00; x00; x00; x00; x00; x00; x00; x01; x00;
   x00; x00; x00; x00; x00; x00; x00; x00; x00; x00; x00; x00; x86; x00;
   x00; x00; x64; x50; x4b; x05; x06; x00; x00; x00; x00; x04; x00; x04;
   x00; xbc; x00; x00; x00; xa5; x00; x00; x00; x00; x00]%byte.




(** A trailer that declares no entries and names the end of the store as
    the start of the directory; the store holds nothing else. *)
Definition endOffsetArchive : list byte :=
  [x50; x4b; x05; x06; x00; x00; x00; x00; x00; x00; x00; x00; x00; x00;
   x00; x00; x16; x00; x00; x00; x00; x00]%byte.

(** The entries of [sampleArchive] as [init] returns them. *)
Definition sampleEntries : list File :=
  match init sampleArchive 375 with
  | Some (Ok rd) => rd_File rd
  | _ => []
  end.

Definition entryA : File := nth 0 sampleEntries (newFile [] 0).
Definition entryB : File := nth 1 sampleEntries (newFile [] 0).
Definition entryC : File := nth 2 sampleEntries (newFile [] 0).
Definition entryD : File := nth 3 sampleEntries (newFile [] 0).

(** The low byte of an integer. *)
Definition lowByte (z : Z) : byte :=
  default x00 (Byte.of_N (Z.to_N (z mod 256))).

(** A central directory header with an empty name, no extra field and no
    comment, and zero in every other field. *)
Definition emptyRecord : list byte :=
  [x50; x4b; x01; x02; x00; x00; x00; x00; x00; x00; x00; x00; x00; x00;
   x00; x00; x00; x00; x00; x00; x00; x00; x00; x00; x00; x00; x00; x00;
   x00; x00; x00; x00; x00; x00; x00; x00; x00; x00; x00; x00; x00; x00;
   x00; x00; x00; x00]%byte.

(** A trailer without comment that declares [k] records in a directory at
    offset 0. *)
Definition countTrailer (k : Z) : list byte :=
  [x50; x4b; x05; x06; x00; x00; x00; x00;
   lowByte k; lowByte (k / 256); lowByte k; lowByte (k / 256);
   x00; x00; x00; x00; x00; x00; x00; x00; x00; x00]%byte.

(** The archive of [n] such records whose trailer declares [k] of them. *)
Definition countArchive (n : nat) (k : Z) : list byte :=
  concat (replicate n emptyRecord) ++ countTrailer k.

(** The entry that the parser reads from [emptyRecord]. *)
Definition emptyEntry (r : list byte) (size : Z) : File :=
  directoryHeaderOf (newFile r size) emptyRecord [].

(** ** Collaborators used in the examples *)

(** CRC-32 with the IEEE polynomial, bit by bit. *)
Definition crc32_bit (c : Z) : Z :=
  if Z.testbit c 0 then Z.lxor (Z.shiftr c 1) 0xedb88320 else Z.shiftr c 1.

Definition crc32_byte (c : Z) (b : byte) : Z :=
  Nat.iter 8 crc32_bit (Z.lxor c (b2z b)).

Definition crc32_update (crc : Z) (p : list byte) : Z :=
  Z.lxor (fold_left crc32_byte p (Z.lxor crc 0xffffffff)) 0xffffffff.

#[global] Instance crc32_ieee : Crc32 Z :=
  {| crc32_NewIEEE := 0; hash_Write := crc32_update; hash_Sum32 := fun c => c |}.

(** An inflater for the deflate streams that consist of one final stored
    block: the byte [01], the length of the data and its complement, then
    the data.  At its first [Read] it takes the block from the reader
    beneath it, and with it whatever a buffer of [ahead] bytes holds beyond
    the block; it hands the data out, and then reports the end of the
    input. *)
Inductive storedInflater : Type :=
  | SiFresh
  | SiPending (out : list byte).

Definition storedInflater_fail (e : error) (consumed : Z)
    : flateStep storedInflater :=
  {| fs_data := []; fs_err := Some e; fs_consumed := consumed;
     fs_next := SiFresh |}.

Definition storedInflater_Read (ahead : Z) (st : storedInflater)
    (avail : list byte) (n : Z) : flateStep storedInflater :=
  match st with
  | SiPending [] =>
      {| fs_data := []; fs_err := Some EOF; fs_consumed := 0;
         fs_next := SiPending [] |}
  | SiPending out =>
      {| fs_data := take (Z.to_nat n) out; fs_err := None; fs_consumed := 0;
         fs_next := SiPending (drop (Z.to_nat n) out) |}
  | SiFresh =>
      if len avail <? 5 then storedInflater_fail ErrUnexpectedEOF (len avail)
      else if negb (Byte.eqb (byteAt avail 0) x01)
      then storedInflater_fail (ErrCorruptInput 0) 1
      else if negb (le16 avail 1 + le16 avail 3 =? 65535)
      then storedInflater_fail (ErrCorruptInput 1) 5
      else if len avail <? 5 + le16 avail 1
      then storedInflater_fail ErrUnexpectedEOF (len avail)
      else
        let out := take (Z.to_nat (le16 avail 1)) (drop 5 avail) in
        {| fs_data := take (Z.to_nat n) out; fs_err := None;
           fs_consumed := Z.max (5 + le16 avail 1) (Z.min ahead (len avail));
           fs_next := SiPending (drop (Z.to_nat n) out) |}
  end.

(** The inflater that takes its block and no more. *)
#[global] Instance storedInflater_flate : Flate storedInflater :=
  {| flate_NewReader := SiFresh; flate_Read := storedInflater_Read 0 |}.

(** The inflater that fills a buffer of 4096 bytes from the reader beneath
    it, as a flate reader does over a reader without [ReadByte]. *)
Definition bufferedInflater_flate : Flate storedInflater :=
  {| flate_NewReader := SiFresh; flate_Read := storedInflater_Read 4096 |}.

(** ** Readers used in the examples *)

(** The reader [Open] returns for an entry, with CRC-32 and the inflater of
    stored blocks as collaborators; a reader over nothing when [Open]
    returns none. *)
Definition openSample (f : File) : @checksumReader Z storedInflater :=
  match Open f with
  | Ok (Some rc, _) => rc
  | _ => {| cr_rc := NopCloser; cr_hash := 0;
            cr_zipr := NewSectionReader [] 0 0 |}
  end.

Definition readerA : @checksumReader Z storedInflater := openSample entryA.
Definition readerB : @checksumReader Z storedInflater := openSample entryB.
Definition readerC : @checksumReader Z storedInflater := openSample entryC.

(** The reader of [entryB] after a first [Read] into 16 bytes, which
    delivers "hi", and the section reader beneath it. *)
Definition readerB1 : @checksumReader Z storedInflater :=
  (Read readerB entryB 16).1.2.

Definition viewB1 : SectionReader := cr_zipr readerB1.



(** An archive of one entry, 119 bytes long.  The entry [b] is deflated as
    one stored block that holds "ho", with the data-descriptor flag in both
    headers.  Its local header holds zero for the CRC-32 and the sizes; the
    data descriptor after the 7 compressed bytes and the central directory
    hold the compressed size 7, the size 2, and the CRC-32 of "hi". *)
Definition describedArchive : list byte :=
  [x50; x4b; x03; x04; x14; x00; x08; x00; x08; x00; x00; x00; x00; x00;
   x00; x00; x00; x00; x00; x00; x00; x00; x00; x00; x00; x00; x01; x00;
   x00; x00; x62; x01; x02; x00; xfd; xff; x68; x6f; xac; x2a; x93; xd8;
   x07; x00; x00; x00; x02; x00; x00; x00; x50; x4b; x01; x02; x14; x00;
   x14; x00; x08; x00; x08; x00; x00; x00; x00; x00; xac; x2a; x93; xd8;
   x07; x00; x00; x00; x02; x00; x00; x00; x01; x00; x00; x00; x00; x00;
   x00; x00; x00; x00; x00; x00; x00; x00; x00; x00; x00; x00; x62; x50;
   x4b; x05; x06; x00; x00; x00; x00; x01; x00; x01; x00; x2f; x00; x00;
   x00; x32; x00; x00; x00; x00; x00]%byte.

(** The entry of [describedArchive] as [init] returns it, and the readers
    [Open] returns for it over the inflater that takes its block and no
    more and over the buffering one. *)
Definition describedEntry : File :=
  match init describedArchive 119 with
  | Some (Ok rd) => nth 0 (rd_File rd) (newFile [] 0)
  | _ => newFile [] 0
  end.

Definition describedReader : @checksumReader Z storedInflater :=
  openSample describedEntry.

Definition describedReaderBuffered : @checksumReader Z storedInflater :=
  match @Open Z storedInflater crc32_ieee bufferedInflater_flate describedEntry with
  | Ok (Some rc, _) => rc
  | _ => {| cr_rc := NopCloser; cr_hash := 0;
            cr_zipr := NewSectionReader [] 0 0 |}
  end.

(** ** Vocabulary of the round trips *)

(** The two and four bytes that hold [v] little-endian. *)
Definition putUint16 (v : Z) : list byte := [lowByte v; lowByte (v / 256)].

Definition putUint32 (v : Z) : list byte :=
  [lowByte v; lowByte (v / 256); lowByte (v / 65536); lowByte (v / 16777216)].

(** What holds of every entry decoded from a central directory header of
    the store [r] of size [size]: it names that store, its 16-bit and 32-bit
    fields fit their width, and its name, extra field and comment are
    shorter than 65536 bytes. *)
Definition decodedEntry (r : list byte) (size : Z) (f : File) : Prop :=
  zipr f = r ∧ zipsize f = size
  ∧ (0 ≤ CreatorVersion f < 65536 ∧ 0 ≤ ReaderVersion f < 65536
     ∧ 0 ≤ Flags f < 65536 ∧ 0 ≤ Method f < 65536
     ∧ 0 ≤ ModifiedTime f < 65536 ∧ 0 ≤ ModifiedDate f < 65536)
  ∧ (0 ≤ CRC32 f < 4294967296 ∧ 0 ≤ CompressedSize f < 4294967296
     ∧ 0 ≤ UncompressedSize f < 4294967296
     ∧ 0 ≤ ExternalAttrs f < 4294967296
     ∧ 0 ≤ headerOffset f < 4294967296)
  ∧ (len (Name f) < 65536 ∧ len (Extra f) < 65536 ∧ len (Comment f) < 65536).

(** The fields of the entry [f] fit the widths of the layout. *)
Definition fieldsFit (f : File) : Prop := decodedEntry (zipr f) (zipsize f) f.

(** The entry [f] with the fixed fields of the local file header [b]. *)
Definition fileHeaderFixed (f : File) (b : list byte) : File :=
  {| Name := Name f; CreatorVersion := CreatorVersion f;
     ReaderVersion := le16 b 4; Flags := le16 b 6; Method := le16 b 8;
     ModifiedTime := le16 b 10; ModifiedDate := le16 b 12;
     CRC32 := le32 b 14; CompressedSize := le32 b 18;
     UncompressedSize := le32 b 22; Extra := Extra f;
     ExternalAttrs := ExternalAttrs f; Comment := Comment f;
     zipr := zipr f; zipsize := zipsize f;
     headerOffset := headerOffset f |}.

(** The 46 bytes of the central directory header of the entry [f], field by
    field in the order of the layout; the disk number and the internal
    attributes, which the reader skips, are zero. *)
Definition directoryHeaderBytes (f : File) : list byte :=
  putUint32 directoryHeaderSignature
  ++ putUint16 (CreatorVersion f) ++ putUint16 (ReaderVersion f)
  ++ putUint16 (Flags f) ++ putUint16 (Method f)
  ++ putUint16 (ModifiedTime f) ++ putUint16 (ModifiedDate f)
  ++ putUint32 (CRC32 f) ++ putUint32 (CompressedSize f)
  ++ putUint32 (UncompressedSize f)
  ++ putUint16 (len (Name f)) ++ putUint16 (len (Extra f))
  ++ putUint16 (len (Comment f))
  ++ putUint16 0 ++ putUint16 0
  ++ putUint32 (ExternalAttrs f) ++ putUint32 (headerOffset f).

(** The central directory record of [f]: the header, then the name, the
    extra field and the comment. *)
Definition directoryRecord (f : File) : list byte :=
  directoryHeaderBytes f ++ Name f ++ Extra f ++ Comment f.

(** The 22 bytes of the trailer [d], without a comment. *)
Definition directoryEndBytes (d : directoryEnd) : list byte :=
  putUint32 directoryEndSignature
  ++ putUint16 (diskNbr d) ++ putUint16 (dirDiskNbr d)
  ++ putUint16 (dirRecordsThisDisk d) ++ putUint16 (directoryRecords d)
  ++ putUint32 (directorySize d) ++ putUint32 (directoryOffset d)
  ++ putUint16 0.

(** The entry [f] as an entry of the store [r] of size [size]. *)
Definition atStore (r : list byte) (size : Z) (f : File) : File :=
  {| Name := Name f; CreatorVersion := CreatorVersion f;
     ReaderVersion := ReaderVersion f; Flags := Flags f;
     Method := Method f; ModifiedTime := ModifiedTime f;
     ModifiedDate := ModifiedDate f; CRC32 := CRC32 f;
     CompressedSize := CompressedSize f;
     UncompressedSize := UncompressedSize f; Extra := Extra f;
     ExternalAttrs := ExternalAttrs f; Comment := Comment f;
     zipr := r; zipsize := size;
     headerOffset := headerOffset f |}.

(** The 30 bytes of the local file header of the entry [f], field by field
    in the order of the layout. *)
Definition fileHeaderBytes (f : File) : list byte :=
  putUint32 fileHeaderSignature
  ++ putUint16 (ReaderVersion f) ++ putUint16 (Flags f)
  ++ putUint16 (Method f)
  ++ putUint16 (ModifiedTime f) ++ putUint16 (ModifiedDate f)
  ++ putUint32 (CRC32 f) ++ putUint32 (CompressedSize f)
  ++ putUint32 (UncompressedSize f)
  ++ putUint16 (len (Name f)) ++ putUint16 (len (Extra f)).

(** The local record of [f] with the body [data]: the header, the name, the
    extra field, and the body. *)
Definition localRecord (f : File) (data : list byte) : list byte :=
  fileHeaderBytes f ++ Name f ++ Extra f ++ data.

(** The 12 bytes of a data descriptor. *)
Definition dataDescriptorBytes (crc32 compressedSize uncompressedSize : Z)
    : list byte :=
  putUint32 crc32 ++ putUint32 compressedSize ++ putUint32 uncompressedSize.

(** The CRC-32 of [data] as the reader computes it. *)
Definition checksum {H : Type} `{!Crc32 H} (data : list byte) : Z :=
  hash_Sum32 (hash_Write crc32_NewIEEE data).

(** The entry of the stored file [name] with the body [data] whose local
    record lies at [off]. *)
Definition storedFile {H : Type} `{!Crc32 H} (name data : list byte) (off : Z)
    : File :=
  {| Name := name; CreatorVersion := 20; ReaderVersion := 20; Flags := 0;
     Method := Store; ModifiedTime := 0; ModifiedDate := 0;
     CRC32 := checksum data; CompressedSize := len data;
     UncompressedSize := len data; Extra := []; ExternalAttrs := 0;
     Comment := []; zipr := []; zipsize := 0; headerOffset := off |}.

(** The entries of the files [es], each a name and a body, whose local
    records lie one after another from [off] on. *)
Fixpoint storedFiles {H : Type} `{!Crc32 H} (off : Z)
    (es : list (list byte * list byte)) : list File :=
  match es with
  | [] => []
  | e :: es' =>
      storedFile e.1 e.2 off
      :: storedFiles (off + len (localRecord (storedFile e.1 e.2 off) e.2)) es'
  end.

(** The local records of the files [es], one after another. *)
Fixpoint storedLocals {H : Type} `{!Crc32 H}
    (es : list (list byte * list byte)) : list byte :=
  match es with
  | [] => []
  | e :: es' => localRecord (storedFile e.1 e.2 0) e.2 ++ storedLocals es'
  end.

(** The archive of the stored files [es]: the local records, the central
    directory, and a trailer without comment. *)
Definition writeStored {H : Type} `{!Crc32 H}
    (es : list (list byte * list byte)) : list byte :=
  let dir := concat (map directoryRecord (storedFiles 0 es)) in
  storedLocals es ++ dir
  ++ directoryEndBytes
       {| diskNbr := 0; dirDiskNbr := 0;
          dirRecordsThisDisk := Z.of_nat (length es) mod 65536;
          directoryRecords := Z.of_nat (length es) mod 65536;
          directorySize := len dir;
          directoryOffset := len (storedLocals es);
          commentLen := 0; comment := [] |}.

(** A file that [writeStored] can lay out: its name is shorter than 65536
    bytes, and the length of its body and its CRC-32 fit 32 bits. *)
Definition storable {H : Type} `{!Crc32 H} (e : list byte * list byte) : Prop :=
  len e.1 < 65536 ∧ len e.2 < 4294967296 ∧ 0 ≤ checksum e.2 < 4294967296.

(** ** Stores and files used in the round trips *)

(** A trailer without comment that declares no entries and names the
    position 23 as the start of the directory; the store holds nothing
    else. *)
Definition pastOffsetArchive : list byte :=
  [x50; x4b; x05; x06; x00; x00; x00; x00; x00; x00; x00; x00; x00; x00;
   x00; x00; x17; x00; x00; x00; x00; x00]%byte.

(** Two files to store: "a" with the body "hello", "b" with the body
    "hi". *)
Definition twoFiles : list (list byte * list byte) :=
  [(["a"], ["h"; "e"; "l"; "l"; "o"]); (["b"], ["h"; "i"])]%byte.

(** * Properties *)

(** ** Bytes and fields *)

Lemma b2z_range (b : byte) : 0 ≤ b2z b < 256.
Proof.
  unfold b2z. pose proof (Byte.to_N_bounded b) as Hb. lia.
Qed.

Lemma len_nonneg (b : list byte) : 0 ≤ len b.
Proof. unfold len. lia. Qed.

Lemma len_app (a b : list byte) : len (a ++ b) = len a + len b.
Proof. unfold len. rewrite length_app. lia. Qed.

Lemma len_drop (b : list byte) (n : Z) :
  0 ≤ n ≤ len b → len (drop (Z.to_nat n) b) = len b - n.
Proof. unfold len. rewrite length_drop. lia. Qed.

Lemma len_take (b : list byte) (n : Z) :
  0 ≤ n ≤ len b → len (take (Z.to_nat n) b) = n.
Proof. unfold len. rewrite length_take. lia. Qed.

Lemma lor_shiftl_add (a b n : Z) :
  0 ≤ n → 0 ≤ a < 2 ^ n → Z.lor a (Z.shiftl b n) = a + b * 2 ^ n.
Proof.
  intros Hn Ha.
  pose proof (Z.add_lor_land a (Z.shiftl b n)) as Hadd.
  assert (Z.land a (Z.shiftl b n) = 0) as Hland.
  { apply Z.bits_inj'. intros k Hk.
    rewrite Z.land_spec, Z.bits_0.
    destruct (Z.lt_ge_cases k n) as [Hlt | Hge].
    - rewrite (Z.shiftl_spec_low b n k Hlt). apply andb_false_r.
    - assert (Z.testbit a k = false) as ->; [| reflexivity].
      destruct (Z.eq_dec a 0) as [-> | Hne]; [apply Z.bits_0 |].
      apply Z.bits_above_log2; [lia |].
      apply Z.log2_lt_pow2; [lia |].
      apply Z.lt_le_trans with (2 ^ n); [lia |].
      apply Z.pow_le_mono_r; lia. }
  rewrite Hland in Hadd. rewrite Z.shiftl_mul_pow2 in * by lia. lia.
Qed.

Lemma lor_shiftl_8 (a b : Z) :
  0 ≤ a < 256 → Z.lor a (Z.shiftl b 8) = a + 256 * b.
Proof. intros Ha. rewrite (lor_shiftl_add a b 8); change (2 ^ 8) with 256; lia. Qed.

Lemma lor_shiftl_16 (a b : Z) :
  0 ≤ a < 65536 → Z.lor a (Z.shiftl b 16) = a + 65536 * b.
Proof. intros Ha. rewrite (lor_shiftl_add a b 16); change (2 ^ 16) with 65536; lia. Qed.

Lemma lor_shiftl_24 (a b : Z) :
  0 ≤ a < 16777216 → Z.lor a (Z.shiftl b 24) = a + 16777216 * b.
Proof. intros Ha. rewrite (lor_shiftl_add a b 24); change (2 ^ 24) with 16777216; lia. Qed.

Lemma shiftl_byte (b k : Z) : 0 ≤ k → Z.shiftl b k = b * 2 ^ k.
Proof. intros Hk. apply Z.shiftl_mul_pow2. exact Hk. Qed.

Lemma byteAt_lookup (b : list byte) (i : Z) :
  0 ≤ i < len b → b !! Z.to_nat i = Some (byteAt b i).
Proof.
  intros Hi. unfold byteAt.
  destruct (b !! Z.to_nat i) eqn:E; [reflexivity |].
  apply lookup_ge_None in E. unfold len in Hi. lia.
Qed.

Lemma index_ok (b : list byte) (i : Z) :
  0 ≤ i < len b → index b i = Ok (byteAt b i).
Proof.
  intros Hi. unfold index.
  rewrite (byteAt_lookup b i Hi).
  destruct (i <? 0) eqn:E1; [lia |].
  destruct (len b <=? i) eqn:E2; [lia | reflexivity].
Qed.

Lemma byteAt_drop (b : list byte) (i j : Z) :
  0 ≤ i → 0 ≤ j → byteAt (drop (Z.to_nat i) b) j = byteAt b (i + j).
Proof.
  intros Hi Hj. unfold byteAt. rewrite lookup_drop.
  replace (Z.to_nat i + Z.to_nat j)%nat with (Z.to_nat (i + j)) by lia.
  reflexivity.
Qed.

Lemma byteAt_take (b : list byte) (n j : Z) :
  0 ≤ j < n → byteAt (take (Z.to_nat n) b) j = byteAt b j.
Proof.
  intros Hj. unfold byteAt. rewrite lookup_take_lt by lia. reflexivity.
Qed.

Lemma toUint16_ok (b : list byte) :
  2 ≤ len b → toUint16 b = Ok (le16 b 0).
Proof.
  intros Hb. unfold toUint16, le16.
  rewrite !index_ok by lia. cbn.
  pose proof (b2z_range (byteAt b 0)) as H0.
  pose proof (b2z_range (byteAt b 1)) as H1.
  f_equal. unfold uint16.
  rewrite Z.mod_small
    by (rewrite shiftl_byte by lia; change (2 ^ 8) with 256; lia).
  rewrite lor_shiftl_8 by lia. reflexivity.
Qed.

Lemma toUint32_ok (b : list byte) :
  4 ≤ len b → toUint32 b = Ok (le32 b 0).
Proof.
  intros Hb. unfold toUint32, le32.
  rewrite !index_ok by lia. cbn.
  pose proof (b2z_range (byteAt b 0)) as H0.
  pose proof (b2z_range (byteAt b 1)) as H1.
  pose proof (b2z_range (byteAt b 2)) as H2.
  pose proof (b2z_range (byteAt b 3)) as H3.
  f_equal. unfold uint32.
  rewrite !Z.mod_small
    by (rewrite shiftl_byte by lia;
        first [change (2 ^ 8) with 256 | change (2 ^ 16) with 65536
              | change (2 ^ 24) with 16777216]; lia).
  rewrite lor_shiftl_8 by lia.
  rewrite lor_shiftl_16 by lia.
  rewrite lor_shiftl_24 by lia. reflexivity.
Qed.

Lemma le16_drop (b : list byte) (i j : Z) :
  0 ≤ i → 0 ≤ j → le16 (drop (Z.to_nat i) b) j = le16 b (i + j).
Proof.
  intros Hi Hj. unfold le16. rewrite !byteAt_drop by lia.
  rewrite !Z.add_assoc. reflexivity.
Qed.

Lemma le32_drop (b : list byte) (i j : Z) :
  0 ≤ i → 0 ≤ j → le32 (drop (Z.to_nat i) b) j = le32 b (i + j).
Proof.
  intros Hi Hj. unfold le32. rewrite !byteAt_drop by lia.
  rewrite !Z.add_assoc. reflexivity.
Qed.

Lemma le16_take (b : list byte) (n j : Z) :
  0 ≤ j → j + 2 ≤ n → le16 (take (Z.to_nat n) b) j = le16 b j.
Proof.
  intros Hj Hn. unfold le16. rewrite !byteAt_take by lia. reflexivity.
Qed.

Lemma le32_take (b : list byte) (n j : Z) :
  0 ≤ j → j + 4 ≤ n → le32 (take (Z.to_nat n) b) j = le32 b j.
Proof.
  intros Hj Hn. unfold le32. rewrite !byteAt_take by lia. reflexivity.
Qed.

Lemma le16_range (b : list byte) (i : Z) : 0 ≤ le16 b i < 65536.
Proof.
  unfold le16.
  pose proof (b2z_range (byteAt b i)).
  pose proof (b2z_range (byteAt b (i + 1))). lia.
Qed.

Lemma le32_range (b : list byte) (i : Z) : 0 ≤ le32 b i < 4294967296.
Proof.
  unfold le32.
  pose proof (b2z_range (byteAt b i)).
  pose proof (b2z_range (byteAt b (i + 1))).
  pose proof (b2z_range (byteAt b (i + 2))).
  pose proof (b2z_range (byteAt b (i + 3))). lia.
Qed.

(** [toUint16(b[i:])] and [toUint32(b[i:])] inside [b]. *)
Lemma toUint16_from (b : list byte) (i : Z) :
  0 ≤ i → i + 2 ≤ len b → sliceFrom b i ≫= toUint16 = Ok (le16 b i).
Proof.
  intros Hi Hb. unfold sliceFrom.
  destruct (i <? 0) eqn:E1; [lia |].
  destruct (len b <? i) eqn:E2; [lia |]. cbn.
  rewrite toUint16_ok by (rewrite len_drop; lia).
  rewrite le16_drop by lia. do 2 f_equal. lia.
Qed.

Lemma toUint32_from (b : list byte) (i : Z) :
  0 ≤ i → i + 4 ≤ len b → sliceFrom b i ≫= toUint32 = Ok (le32 b i).
Proof.
  intros Hi Hb. unfold sliceFrom.
  destruct (i <? 0) eqn:E1; [lia |].
  destruct (len b <? i) eqn:E2; [lia |]. cbn.
  rewrite toUint32_ok by (rewrite len_drop; lia).
  rewrite le32_drop by lia. do 2 f_equal. lia.
Qed.

Lemma slice_ok (b : list byte) (lo hi : Z) :
  0 ≤ lo ≤ hi → hi ≤ len b →
  slice b lo hi = Ok (take (Z.to_nat (hi - lo)) (drop (Z.to_nat lo) b)).
Proof.
  intros Hlo Hhi. unfold slice.
  destruct (lo <? 0) eqn:E1; [lia |].
  destruct (hi <? lo) eqn:E2; [lia |].
  destruct (len b <? hi) eqn:E3; [lia | reflexivity].
Qed.

(** [toUint16(b[i:j])] and [toUint32(b[i:j])] inside [b]. *)
Lemma toUint16_slice (b : list byte) (i j : Z) :
  0 ≤ i → i + 2 ≤ j → j ≤ len b → slice b i j ≫= toUint16 = Ok (le16 b i).
Proof.
  intros Hi Hj Hb. rewrite slice_ok by lia. cbn.
  rewrite toUint16_ok by (rewrite len_take; rewrite ?len_drop; lia).
  rewrite le16_take by lia. rewrite le16_drop by lia.
  do 2 f_equal. lia.
Qed.

Lemma toUint32_slice (b : list byte) (i j : Z) :
  0 ≤ i → i + 4 ≤ j → j ≤ len b → slice b i j ≫= toUint32 = Ok (le32 b i).
Proof.
  intros Hi Hj Hb. rewrite slice_ok by lia. cbn.
  rewrite toUint32_ok by (rewrite len_take; rewrite ?len_drop; lia).
  rewrite le32_take by lia. rewrite le32_drop by lia.
  do 2 f_equal. lia.
Qed.

(** ** The backward scan *)

Lemma acceptable_bounds (b : list byte) (p : Z) :
  acceptable b p = true → 0 ≤ p ∧ p + directoryEndLen ≤ len b.
Proof.
  unfold acceptable. intros Hacc.
  repeat (apply andb_prop in Hacc as [Hacc ?]).
  pose proof (le16_range b (p + 20)). lia.
Qed.

Lemma findSignatureAt_ok (b : list byte) (i : Z) :
  0 ≤ i → i + directoryEndLen ≤ len b →
  findSignatureAt b i = Ok (if acceptable b i then Some i else None).
Proof.
  unfold directoryEndLen. intros Hi Hb.
  unfold findSignatureAt, acceptable, directoryEndLen.
  rewrite !index_ok by lia. cbn.
  replace (i + 22 - 2) with (i + 20) by lia.
  replace (i + 22 - 1) with (i + 20 + 1) by lia.
  rewrite lor_shiftl_8 by apply b2z_range.
  fold (le16 b (i + 20)).
  destruct (0 <=? i) eqn:E0; [| lia]. cbn.
  destruct (Byte.eqb (byteAt b i) "P"); cbn; [| reflexivity].
  destruct (Byte.eqb (byteAt b (i + 1)) "K"); cbn; [| reflexivity].
  destruct (Byte.eqb (byteAt b (i + 2)) x05); cbn; [| reflexivity].
  destruct (Byte.eqb (byteAt b (i + 3)) x06); cbn; [| reflexivity].
  replace (le16 b (i + 20) + 22 + i) with (i + 22 + le16 b (i + 20)) by lia.
  destruct (i + 22 + le16 b (i + 20) =? len b); reflexivity.
Qed.

Lemma findSignatureFrom_ok (b : list byte) (k : nat) :
  Z.of_nat k ≤ len b - directoryEndLen + 1 →
  findSignatureFrom b k = Ok (lastAcceptable b k).
Proof.
  induction k as [| k IH]; intros Hk; [reflexivity |].
  cbn [findSignatureFrom lastAcceptable].
  rewrite findSignatureAt_ok by lia.
  destruct (acceptable b (Z.of_nat k)); cbn; [reflexivity |].
  apply IH. lia.
Qed.

Lemma lastAcceptable_cases (b : list byte) (k : nat) :
  (lastAcceptable b k = -1 ∧
   ∀ q, 0 ≤ q < Z.of_nat k → acceptable b q = false)
  ∨ (0 ≤ lastAcceptable b k < Z.of_nat k ∧
     acceptable b (lastAcceptable b k) = true ∧
     ∀ q, lastAcceptable b k < q < Z.of_nat k → acceptable b q = false).
Proof.
  induction k as [| k IH]; cbn [lastAcceptable].
  - left. split; [reflexivity | lia].
  - destruct (acceptable b (Z.of_nat k)) eqn:Hacc.
    + right. repeat split; try lia. exact Hacc.
    + destruct IH as [[Hnone Hall] | (Hrange & Hin & Habove)].
      * left. split; [exact Hnone |]. intros q Hq.
        destruct (Z.eq_dec q (Z.of_nat k)) as [-> | Hne]; [exact Hacc |].
        apply Hall. lia.
      * right. repeat split; try lia; [exact Hin |]. intros q Hq.
        destruct (Z.eq_dec q (Z.of_nat k)) as [-> | Hne]; [exact Hacc |].
        apply Habove. lia.
Qed.

(** [findSignatureInBlock] never panics: it returns the largest position of
    the block that the acceptance rule accepts, or [-1]. *)
Lemma findSignatureInBlock_ok (b : list byte) :
  findSignatureInBlock b = Ok (lastAcceptableIn b).
Proof.
  unfold findSignatureInBlock, lastAcceptableIn.
  destruct (Z.to_nat (len b - directoryEndLen + 1)) as [| k] eqn:Hk;
    [reflexivity |].
  apply findSignatureFrom_ok. lia.
Qed.

Lemma lastAcceptable_block (b : list byte) :
  let p := lastAcceptableIn b in
  (p = -1 ∧ ∀ q, acceptable b q = false)
  ∨ (0 ≤ p ∧ acceptable b p = true ∧ ∀ q, acceptable b q = true → q ≤ p).
Proof.
  cbv zeta. unfold lastAcceptableIn.
  destruct (lastAcceptable_cases b (Z.to_nat (len b - directoryEndLen + 1)))
    as [[Hnone Hall] | (Hrange & Hin & Habove)].
  - left. split; [exact Hnone |]. intros q.
    destruct (acceptable b q) eqn:Hq; [| reflexivity].
    apply acceptable_bounds in Hq as Hb.
    rewrite Hall in Hq by lia. discriminate.
  - right. split; [lia |]. split; [exact Hin |]. intros q Hq.
    destruct (Z.le_gt_cases q
      (lastAcceptable b (Z.to_nat (len b - directoryEndLen + 1))))
      as [Hle | Hgt]; [exact Hle |].
    apply acceptable_bounds in Hq as Hb.
    rewrite Habove in Hq by lia. discriminate.
Qed.

(** C3. Within a scanned window [b], [findSignatureInBlock] returns a
    position [p] exactly when [p] satisfies the acceptance rule (the four
    signature bytes at [p], and [p + directoryEndLen + n = len b] for the
    comment length [n] read at the fixed offset from [p]) and no larger
    position does; it returns [-1] exactly when no position satisfies the
    rule. *)
Theorem findSignatureInBlock_accepts (b : list byte) (p : Z) :
  findSignatureInBlock b = Ok p ↔
    (acceptable b p = true ∧ ∀ q, acceptable b q = true → q ≤ p)
    ∨ (p = -1 ∧ ∀ q, acceptable b q = false).
Proof.
  rewrite findSignatureInBlock_ok.
  pose proof (lastAcceptable_block b) as Hlast. cbv zeta in Hlast.
  set (p0 := lastAcceptableIn b) in *.
  split.
  - intros Heq. injection Heq as <-.
    destruct Hlast as [[Hnone Hall] | (Hpos & Hin & Hmax)].
    + right. split; assumption.
    + left. split; assumption.
  - intros [[Hacc Hmax] | [-> Hall]]; f_equal.
    + destruct Hlast as [[Hnone Hall] | (Hpos & Hin & Hmax0)].
      * rewrite Hall in Hacc. discriminate.
      * apply Hmax in Hin. apply Hmax0 in Hacc. lia.
    + destruct Hlast as [[Hnone _] | (Hpos & Hin & _)]; [exact Hnone |].
      rewrite Hall in Hin. discriminate.
Qed.

(** ** Decoding the trailer *)

Lemma decodeDirectoryEnd_ok (b : list byte) :
  directoryEndLen + le16 b 20 ≤ len b →
  decodeDirectoryEnd b = Ok (directoryEndAt b 0).
Proof.
  unfold directoryEndLen. intros Hb.
  pose proof (le16_range b 20) as Hn.
  unfold decodeDirectoryEnd.
  rewrite !toUint16_from, !toUint32_from by lia. cbn.
  rewrite slice_ok by lia. cbn.
  unfold directoryEndAt. do 2 f_equal.
  replace (22 + le16 b 20 - 22) with (le16 b 20) by lia. reflexivity.
Qed.

Lemma directoryEndAt_drop (b : list byte) (p : Z) :
  0 ≤ p → directoryEndAt (drop (Z.to_nat p) b) 0 = directoryEndAt b p.
Proof.
  intros Hp. unfold directoryEndAt.
  rewrite !le16_drop, !le32_drop by lia.
  rewrite drop_drop.
  replace (Z.to_nat p + Z.to_nat (0 + 22))%nat with (Z.to_nat (p + 22)) by lia.
  repeat match goal with
         | |- context [p + (0 + ?k)] => replace (p + (0 + k)) with (p + k) by lia
         end.
  reflexivity.
Qed.

Lemma acceptable_decode (b : list byte) (p : Z) :
  acceptable b p = true →
  sliceFrom b p ≫= decodeDirectoryEnd = Ok (directoryEndAt b p).
Proof.
  intros Hacc. pose proof (acceptable_bounds b p Hacc) as [Hp Hb].
  unfold acceptable in Hacc. apply andb_prop in Hacc as [_ Hlen].
  apply Z.eqb_eq in Hlen. unfold directoryEndLen in *.
  unfold sliceFrom.
  destruct (p <? 0) eqn:E1; [lia |].
  destruct (len b <? p) eqn:E2; [lia |]. cbn.
  rewrite decodeDirectoryEnd_ok.
  - rewrite directoryEndAt_drop by lia. reflexivity.
  - rewrite len_drop by lia. rewrite le16_drop by lia.
    unfold directoryEndLen. replace (p + 20) with (p + 20) in Hlen by lia. lia.
Qed.

(** A length that fits an [int] is not changed by the conversion. *)
Lemma int_small (x : Z) : -2147483648 ≤ x < 2147483648 → int x = x.
Proof.
  intros Hx. unfold int. rewrite Z.mod_small by lia. lia.
Qed.

(** One round of the loop of [readDirectoryEnd], for any stated size that
    is not negative and a window length that fits an [int]. *)
Lemma locateDirectoryEnd_step (r : list byte) (size i w : Z) (ws : list Z)
    (b : list byte) :
  0 ≤ size → 0 ≤ w < 2147483648 →
  let n := if size <? w then size else w in
  let blk := (readBlock r n (size - n)).1 in
  locateDirectoryEnd r size i (w :: ws) b
  = if 0 <=? lastAcceptableIn blk
    then sliceFrom blk (lastAcceptableIn blk)
    else if (i =? 1) || (n =? size) then Err ErrFormat
         else locateDirectoryEnd r size (i + 1) ws blk.
Proof.
  intros Hsize Hw. cbv zeta. cbn [locateDirectoryEnd].
  set (n := if size <? w then size else w).
  assert (0 ≤ n ≤ size ∧ n ≤ w) as Hn
    by (subst n; destruct (size <? w) eqn:E; lia).
  rewrite (int_small n) by lia.
  destruct (n <? 0) eqn:E0; [lia |].
  unfold readBlock, ReadAt.
  destruct (size - n <? 0) eqn:E1; [lia |].
  cbn [fst].
  destruct (len (take (Z.to_nat n) (drop (Z.to_nat (size - n)) r)) <? n);
    rewrite findSignatureInBlock_ok; reflexivity.
Qed.

(** [readDirectoryEnd] returns a trailer or [ErrFormat]; it does not panic
    unless the stated size is negative. *)
Lemma readDirectoryEnd_no_panic (r : list byte) (size : Z) :
  0 ≤ size →
  (∃ d, readDirectoryEnd r size = Ok d)
  ∨ readDirectoryEnd r size = Err ErrFormat.
Proof.
  intros Hsize.
  assert (∀ blk, 0 ≤ lastAcceptableIn blk →
            ∃ d, sliceFrom blk (lastAcceptableIn blk) ≫= decodeDirectoryEnd
                 = Ok d) as Hhit.
  { intros blk Hpos.
    destruct (lastAcceptable_block blk) as [[Hnone _] | (_ & Hacc & _)];
      [lia |].
    eexists. apply acceptable_decode. exact Hacc. }
  unfold readDirectoryEnd, readDirectoryEndIn, directoryEndWindows.
  rewrite locateDirectoryEnd_step by lia. cbv zeta.
  match goal with
  | |- context [if 0 <=? lastAcceptableIn ?blk then _ else _] =>
      destruct (0 <=? lastAcceptableIn blk) eqn:E1;
        [left; apply Hhit; lia |]
  end.
  match goal with
  | |- context [if ?c then Err ErrFormat else _] =>
      destruct c; [right; reflexivity |]
  end.
  rewrite locateDirectoryEnd_step by lia. cbv zeta.
  match goal with
  | |- context [if 0 <=? lastAcceptableIn ?blk then _ else _] =>
      destruct (0 <=? lastAcceptableIn blk) eqn:E2;
        [left; apply Hhit; lia |]
  end.
  right. reflexivity.
Qed.

(** C10. Whenever the backward scan accepts a position [p] of the window
    [b], slicing [b[p:]] and decoding the fixed fields and the comment
    [b[p+22 : p+22+commentLen]] succeeds without a panic, and the comment
    ends exactly at the end of the window; so [readDirectoryEnd], on every
    store and with every stated size that is not negative, returns a
    trailer or [ErrFormat] and never indexes outside of the window. *)
Theorem accepted_trailer_decodes :
  (∀ (b : list byte) (p : Z),
     findSignatureInBlock b = Ok p → 0 ≤ p →
     sliceFrom b p ≫= decodeDirectoryEnd = Ok (directoryEndAt b p)
     ∧ p + directoryEndLen + commentLen (directoryEndAt b p) = len b
     ∧ len (comment (directoryEndAt b p)) = commentLen (directoryEndAt b p))
  ∧ (∀ (r : list byte) (size : Z),
       0 ≤ size →
       (∃ d, readDirectoryEnd r size = Ok d)
       ∨ readDirectoryEnd r size = Err ErrFormat).
Proof.
  split; [| apply readDirectoryEnd_no_panic].
  intros b p Hfind Hp.
  rewrite findSignatureInBlock_ok in Hfind. injection Hfind as Hlast.
  destruct (lastAcceptable_block b) as [[Hnone _] | (_ & Hacc & _)]; [lia |].
  rewrite Hlast in Hacc.
  split; [apply acceptable_decode; exact Hacc |].
  pose proof (acceptable_bounds b p Hacc) as [_ Hb].
  unfold acceptable in Hacc. apply andb_prop in Hacc as [_ Hlen].
  apply Z.eqb_eq in Hlen. cbn [commentLen comment directoryEndAt].
  split; [exact Hlen |].
  pose proof (le16_range b (p + 20)) as Hn.
  unfold directoryEndLen in *.
  rewrite len_take; [reflexivity |].
  rewrite len_drop by lia. lia.
Qed.

(** ** The two windows against the whole store *)

Lemma lastAcceptableIn_unique (b : list byte) (p : Z) :
  acceptable b p = true → (∀ q, acceptable b q = true → q ≤ p) →
  lastAcceptableIn b = p.
Proof.
  intros Hacc Hmax.
  destruct (lastAcceptable_block b) as [[_ Hall] | (Hpos & Hin & Hmax0)].
  - rewrite Hall in Hacc. discriminate.
  - apply Hmax in Hin. apply Hmax0 in Hacc. lia.
Qed.

Lemma lastAcceptableIn_none (b : list byte) :
  (∀ q, acceptable b q = false) → lastAcceptableIn b = -1.
Proof.
  intros Hall.
  destruct (lastAcceptable_block b) as [[Hnone _] | (_ & Hin & _)];
    [exact Hnone |].
  rewrite Hall in Hin. discriminate.
Qed.

Lemma acceptable_drop (r : list byte) (o q : Z) :
  0 ≤ o ≤ len r → 0 ≤ q →
  acceptable (drop (Z.to_nat o) r) q = acceptable r (o + q).
Proof.
  intros Ho Hq. unfold acceptable.
  rewrite !byteAt_drop, le16_drop, len_drop by lia.
  rewrite !Z.add_assoc.
  replace (0 <=? q) with (0 <=? o + q) by lia.
  replace (q + directoryEndLen + le16 r (o + q + 20) =? len r - o)
    with (o + q + directoryEndLen + le16 r (o + q + 20) =? len r) by lia.
  reflexivity.
Qed.

Lemma directoryEndAt_window (r : list byte) (o q : Z) :
  0 ≤ o → 0 ≤ q →
  directoryEndAt (drop (Z.to_nat o) r) q = directoryEndAt r (o + q).
Proof.
  intros Ho Hq. unfold directoryEndAt.
  rewrite !le16_drop, !le32_drop by lia.
  rewrite drop_drop.
  replace (Z.to_nat o + Z.to_nat (q + 22))%nat with (Z.to_nat (o + q + 22)) by lia.
  rewrite !Z.add_assoc. reflexivity.
Qed.

(** A window that holds an acceptable position holds the last acceptable
    position of the store. *)
Lemma window_hit (r : list byte) (o : Z) :
  0 ≤ o ≤ len r →
  0 ≤ lastAcceptableIn (drop (Z.to_nat o) r) →
  lastAcceptableIn r = o + lastAcceptableIn (drop (Z.to_nat o) r).
Proof.
  intros Ho Hhit.
  destruct (lastAcceptable_block (drop (Z.to_nat o) r))
    as [[Hnone _] | (Hpos & Hin & Hmax)]; [lia |].
  apply lastAcceptableIn_unique.
  - rewrite <- acceptable_drop by lia. exact Hin.
  - intros q Hq.
    destruct (Z.le_gt_cases q (o + lastAcceptableIn (drop (Z.to_nat o) r)))
      as [Hle | Hgt]; [exact Hle |].
    specialize (Hmax (q - o)).
    rewrite acceptable_drop in Hmax by lia.
    replace (o + (q - o)) with q in Hmax by lia.
    specialize (Hmax Hq). lia.
Qed.

(** A window without an acceptable position that is the whole store, or at
    least as long as a trailer with the longest comment, shows that the
    store has none. *)
Lemma window_miss (r : list byte) (o : Z) :
  0 ≤ o ≤ len r →
  o = 0 ∨ directoryEndLen + 65535 ≤ len r - o →
  lastAcceptableIn (drop (Z.to_nat o) r) = -1 →
  lastAcceptableIn r = -1.
Proof.
  intros Ho Hcover Hmiss.
  destruct (lastAcceptable_block (drop (Z.to_nat o) r))
    as [[_ Hall] | (Hpos & _)]; [| lia].
  apply lastAcceptableIn_none. intros q.
  destruct (acceptable r q) eqn:Hq; [| reflexivity].
  pose proof (acceptable_bounds r q Hq) as [Hq0 Hqb].
  assert (o ≤ q) as Hoq.
  { destruct Hcover as [-> | Hcover]; [lia |].
    unfold acceptable in Hq. apply andb_prop in Hq as [_ Hlen].
    apply Z.eqb_eq in Hlen. pose proof (le16_range r (q + 20)). lia. }
  specialize (Hall (q - o)). rewrite acceptable_drop in Hall by lia.
  replace (o + (q - o)) with q in Hall by lia. congruence.
Qed.

Lemma readBlock_tail (r : list byte) (n : Z) :
  0 ≤ n ≤ len r →
  readBlock r n (len r - n) = (drop (Z.to_nat (len r - n)) r, None).
Proof.
  intros Hn. unfold readBlock, ReadAt.
  destruct (len r - n <? 0) eqn:E; [lia |].
  assert (take (Z.to_nat n) (drop (Z.to_nat (len r - n)) r)
          = drop (Z.to_nat (len r - n)) r) as ->.
  { apply take_ge. rewrite length_drop. unfold len in *. lia. }
  rewrite len_drop by lia.
  destruct (len r - (len r - n) <? n) eqn:E2; [lia |].
  rewrite length_drop.
  replace (Z.to_nat n - (length r - Z.to_nat (len r - n)))%nat with 0%nat
    by (unfold len in *; lia).
  cbn. rewrite app_nil_r. reflexivity.
Qed.

Lemma window_decode (r : list byte) (o : Z) :
  0 ≤ o ≤ len r →
  0 ≤ lastAcceptableIn (drop (Z.to_nat o) r) →
  sliceFrom (drop (Z.to_nat o) r) (lastAcceptableIn (drop (Z.to_nat o) r))
    ≫= decodeDirectoryEnd
  = scanWholeStore r.
Proof.
  intros Ho Hhit. unfold scanWholeStore.
  rewrite (window_hit r o Ho Hhit).
  destruct (lastAcceptable_block (drop (Z.to_nat o) r))
    as [[Hnone _] | (Hpos & Hin & _)]; [lia |].
  rewrite (acceptable_decode _ _ Hin).
  rewrite directoryEndAt_window by lia.
  destruct (0 <=? o + lastAcceptableIn (drop (Z.to_nat o) r)) eqn:E;
    [reflexivity | lia].
Qed.

Lemma scanWholeStore_miss (r : list byte) :
  lastAcceptableIn r = -1 → scanWholeStore r = Err ErrFormat.
Proof. intros Hmiss. unfold scanWholeStore. rewrite Hmiss. reflexivity. Qed.

(** One round of the loop of [readDirectoryEnd] on a store of the stated
    size: the block read is the tail of the store. *)
Lemma locateDirectoryEnd_round (r : list byte) (i w : Z) (ws : list Z)
    (b : list byte) :
  0 ≤ w < 2147483648 →
  let n := if len r <? w then len r else w in
  let tail := drop (Z.to_nat (len r - n)) r in
  locateDirectoryEnd r (len r) i (w :: ws) b
  = if 0 <=? lastAcceptableIn tail
    then sliceFrom tail (lastAcceptableIn tail)
    else if (i =? 1) || (n =? len r) then Err ErrFormat
         else locateDirectoryEnd r (len r) (i + 1) ws tail.
Proof.
  intros Hw. cbv zeta. cbn [locateDirectoryEnd].
  pose proof (len_nonneg r) as Hr.
  set (n := if len r <? w then len r else w).
  assert (0 ≤ n ≤ len r) as Hn by (subst n; destruct (len r <? w) eqn:E; lia).
  assert (n ≤ w) as Hnw by (subst n; destruct (len r <? w) eqn:E; lia).
  rewrite (int_small n) by lia.
  destruct (n <? 0) eqn:E0; [lia |].
  rewrite readBlock_tail by exact Hn.
  rewrite findSignatureInBlock_ok. reflexivity.
Qed.

(** Two windows of which the second is at least as long as a trailer with
    the longest comment find what a scan of the whole store finds. *)
Lemma readDirectoryEndIn_covering (r : list byte) (w1 w2 : Z) :
  0 ≤ w1 < 2147483648 → directoryEndLen + 65535 ≤ w2 < 2147483648 →
  readDirectoryEndIn [w1; w2] r (len r) = scanWholeStore r.
Proof.
  intros Hw1 Hw2. unfold readDirectoryEndIn.
  pose proof (len_nonneg r) as Hr.
  rewrite locateDirectoryEnd_round by exact Hw1.
  set (n1 := if len r <? w1 then len r else w1).
  assert (0 ≤ n1 ≤ len r) as Hn1
    by (subst n1; destruct (len r <? w1) eqn:E; lia).
  destruct (0 <=? lastAcceptableIn (drop (Z.to_nat (len r - n1)) r)) eqn:Hhit1.
  { apply window_decode; lia. }
  assert (lastAcceptableIn (drop (Z.to_nat (len r - n1)) r) = -1) as Hmiss1.
  { destruct (lastAcceptable_block (drop (Z.to_nat (len r - n1)) r))
      as [[Hnone _] | (Hpos & _)]; [exact Hnone | lia]. }
  change (0 =? 1) with false. cbn [orb].
  destruct (n1 =? len r) eqn:Hall1.
  { cbn. symmetry. apply scanWholeStore_miss.
    apply (window_miss r (len r - n1)); [lia | left; lia | exact Hmiss1]. }
  unfold directoryEndLen in Hw2.
  rewrite locateDirectoryEnd_round by lia.
  set (n2 := if len r <? w2 then len r else w2).
  assert (0 ≤ n2 ≤ len r) as Hn2
    by (subst n2; destruct (len r <? w2) eqn:E; lia).
  destruct (0 <=? lastAcceptableIn (drop (Z.to_nat (len r - n2)) r)) eqn:Hhit2.
  { apply window_decode; lia. }
  assert (lastAcceptableIn (drop (Z.to_nat (len r - n2)) r) = -1) as Hmiss2.
  { destruct (lastAcceptable_block (drop (Z.to_nat (len r - n2)) r))
      as [[Hnone _] | (Hpos & _)]; [exact Hnone | lia]. }
  change (0 + 1 =? 1) with true. cbn. symmetry.
  apply scanWholeStore_miss.
  apply (window_miss r (len r - n2)); [lia | | exact Hmiss2].
  unfold directoryEndLen. subst n2. destruct (len r <? w2) eqn:E; lia.
Qed.


(** ** A trailer with the longest comment *)

Lemma byteAt_app_l (a b : list byte) (i : Z) :
  0 ≤ i < len a → byteAt (a ++ b) i = byteAt a i.
Proof.
  intros Hi. unfold byteAt. rewrite lookup_app_l by (unfold len in Hi; lia).
  reflexivity.
Qed.










Lemma readDirectoryEnd_scanWholeStore (r : list byte) :
  readDirectoryEnd r (len r) = scanWholeStore r.
Proof.
  unfold readDirectoryEnd, directoryEndWindows.
  apply readDirectoryEndIn_covering; unfold directoryEndLen; lia.
Qed.



(** ** [io.ReadFull] on a section reader *)

Lemma sr_advance_0 (s : SectionReader) : sr_advance s 0 = s.
Proof. destruct s. unfold sr_advance. cbn. rewrite Z.add_0_r. reflexivity. Qed.

Lemma len_nil : len [] = 0.
Proof. reflexivity. Qed.

Lemma len_take_le (b : list byte) (n : Z) : len (take (Z.to_nat n) b) ≤ len b.
Proof. unfold len. rewrite length_take. lia. Qed.

(** The loop of [io.ReadAtLeast] ends within two rounds: with all [min]
    bytes, or at the end of the input with the bytes there were. *)
Lemma readAtLeastLoop_spec (fuel : nat) (s : SectionReader) (n : Z) :
  0 ≤ sr_off s → 0 < n → (2 ≤ fuel)%nat →
  readAtLeastLoop fuel s n [] =
    if n <=? len (sr_remaining s)
    then Some (take (Z.to_nat n) (sr_remaining s), None, sr_advance s n)
    else Some (sr_remaining s, Some EOF, sr_advance s (len (sr_remaining s))).
Proof.
  intros Hoff Hn Hfuel. unfold sr_remaining.
  set (l := drop (Z.to_nat (sr_off s)) (sr_r s)).
  destruct fuel as [| [| fuel]]; [lia | lia |].
  cbn [readAtLeastLoop]. rewrite len_nil.
  destruct (n <=? 0) eqn:E0; [lia |].
  unfold SectionReader_Read at 1.
  destruct (sr_limit s <=? sr_off s) eqn:Elim.
  { (* the reader is at its limit *)
    replace (Z.to_nat (sr_limit s - sr_off s)) with 0%nat by lia.
    rewrite take_0, len_nil, E0, sr_advance_0. reflexivity. }
  set (max := sr_limit s - sr_off s).
  assert (0 < max) as Hmax by (subst max; lia).
  set (n' := if max <? n - 0 then max else n - 0).
  assert (0 < n' ∧ n' ≤ n ∧ n' ≤ max) as Hn'
    by (subst n'; destruct (max <? n - 0) eqn:E; lia).
  unfold ReadAt. destruct (sr_off s <? 0) eqn:Eoff; [lia |].
  fold l.
  destruct (len (take (Z.to_nat n') l) <? n') eqn:Eshort.
  { (* the store ends before [n'] bytes are read *)
    assert (len l < n') as Hl.
    { apply Z.ltb_lt in Eshort. unfold len in *.
      rewrite length_take in Eshort. lia. }
    assert (take (Z.to_nat n') l = l) as ->
      by (apply take_ge; unfold len in Hl; lia).
    assert (take (Z.to_nat max) l = l) as ->
      by (apply take_ge; unfold len in Hl; lia).
    cbn [app].
    destruct (n <=? len l) eqn:E1; [lia | reflexivity]. }
  assert (len (take (Z.to_nat n') l) = n') as Hgot.
  { apply Z.ltb_ge in Eshort. pose proof (len_take_le l n') as Hle.
    unfold len in *. rewrite length_take in *. lia. }
  assert (n' ≤ len l) as Hl by (pose proof (len_take_le l n'); lia).
  cbn [app]. rewrite Hgot.
  destruct (Z.eq_dec n' n) as [Heq | Hne].
  { (* all [n] bytes in one read *)
    rewrite Heq in *.
    destruct (n <=? n) eqn:E1; [| lia].
    assert (n ≤ len (take (Z.to_nat max) l)) as Hav
      by (unfold len in *; rewrite length_take; lia).
    destruct (n <=? len (take (Z.to_nat max) l)) eqn:E2; [| lia].
    rewrite take_take.
    replace (Z.to_nat n `min` Z.to_nat max)%nat with (Z.to_nat n) by lia.
    reflexivity. }
  (* the limit cuts the read short; the next read is at the limit *)
  assert (n' = max) as Hn'max
    by (subst n'; destruct (max <? n - 0) eqn:E; lia).
  assert (max < n) as Hlt by lia.
  assert (len (take (Z.to_nat max) l) = max) as Hav by (apply len_take; lia).
  rewrite Hav.
  destruct (n <=? n') eqn:E1; [lia |].
  unfold SectionReader_Read. cbn [sr_limit sr_off sr_advance].
  destruct (sr_limit s <=? sr_off s + n') eqn:E2; [| subst max; lia].
  rewrite app_nil_r.
  rewrite Hn'max in *.
  destruct (n <=? max) eqn:E3; [lia | reflexivity].
Qed.

(** [ReadFull] never runs out of fuel, and what it does is told by the bytes
    the reader can still deliver: all [n] bytes when there are that many,
    [ErrUnexpectedEOF] when there are some but fewer, [EOF] when there are
    none. *)
Lemma ReadFull_spec (s : SectionReader) (n : Z) :
  0 ≤ sr_off s → 0 ≤ n →
  ReadFull s n =
    if n <=? len (sr_remaining s)
    then (Ok (take (Z.to_nat n) (sr_remaining s)), sr_advance s n)
    else if 0 <? len (sr_remaining s)
         then (Err ErrUnexpectedEOF, sr_advance s (len (sr_remaining s)))
         else (Err EOF, s).
Proof.
  intros Hoff Hn. unfold ReadFull.
  destruct (Z.eq_dec n 0) as [-> | Hn0].
  { change (Z.to_nat 0) with 0%nat. cbn [readAtLeastLoop]. rewrite len_nil.
    change (0 <=? 0) with true. cbn iota.
    pose proof (len_nonneg (sr_remaining s)).
    destruct (0 <=? len (sr_remaining s)) eqn:E; [| lia].
    rewrite sr_advance_0. reflexivity. }
  rewrite readAtLeastLoop_spec by lia.
  destruct (n <=? len (sr_remaining s)) eqn:E1; [reflexivity |].
  rewrite E1.
  destruct (0 <? len (sr_remaining s)) eqn:E2; [reflexivity |].
  assert (len (sr_remaining s) = 0) as ->
    by (pose proof (len_nonneg (sr_remaining s)); lia).
  rewrite sr_advance_0. reflexivity.
Qed.

(** ** One central directory header *)

Lemma sr_remaining_advance (s : SectionReader) (k : Z) :
  0 ≤ sr_off s → 0 ≤ k →
  sr_remaining (sr_advance s k) = drop (Z.to_nat k) (sr_remaining s).
Proof.
  intros Hoff Hk. unfold sr_remaining. cbn [sr_advance sr_limit sr_off sr_r].
  destruct (Z.le_gt_cases k (sr_limit s - sr_off s)) as [Hle | Hgt].
  - replace (Z.to_nat (sr_off s + k)) with (Z.to_nat (sr_off s) + Z.to_nat k)%nat
      by lia.
    rewrite <- drop_drop, take_drop_commute.
    replace (Z.to_nat k + Z.to_nat (sr_limit s - (sr_off s + k)))%nat
      with (Z.to_nat (sr_limit s - sr_off s)) by lia.
    reflexivity.
  - replace (Z.to_nat (sr_limit s - (sr_off s + k))) with 0%nat by lia.
    rewrite take_0. symmetry. apply drop_ge.
    rewrite length_take. lia.
Qed.

Lemma readDirectoryHeader_spec (f : File) (s : SectionReader) :
  0 ≤ sr_off s →
  readDirectoryHeader f s =
    let a := sr_remaining s in
    let b := take (Z.to_nat directoryHeaderLen) a in
    let rest := drop (Z.to_nat directoryHeaderLen) a in
    let n := directoryHeaderTail b in
    let s1 := sr_advance s directoryHeaderLen in
    if directoryHeaderLen <=? len a then
      if le32 b 0 =? directoryHeaderSignature then
        if n <=? len rest
        then (Ok (directoryHeaderOf f b (take (Z.to_nat n) rest)), sr_advance s1 n)
        else if 0 <? len rest
             then (Err ErrUnexpectedEOF, sr_advance s1 (len rest))
             else (Err EOF, s1)
      else (Err ErrFormat, s1)
    else if 0 <? len a
         then (Err ErrUnexpectedEOF, sr_advance s (len a))
         else (Err EOF, s).
Proof.
  intros Hoff. cbv zeta. unfold readDirectoryHeader.
  unfold mbind at 1. unfold io_bind at 1.
  rewrite ReadFull_spec by (unfold directoryHeaderLen; lia).
  destruct (directoryHeaderLen <=? len (sr_remaining s)) eqn:Elen.
  2: { destruct (0 <? len (sr_remaining s)); reflexivity. }
  set (a := sr_remaining s) in *.
  set (b := take (Z.to_nat directoryHeaderLen) a).
  assert (len b = 46) as Hb.
  { subst b. apply len_take. unfold directoryHeaderLen in *.
    pose proof (len_nonneg a). lia. }
  rewrite toUint32_ok by lia.
  rewrite !toUint16_from, !toUint32_from, toUint16_slice by lia.
  unfold mbind, io_bind, liftR, mret, io_ret. cbn beta iota.
  destruct (le32 b 0 =? directoryHeaderSignature); cbn [negb]; [| reflexivity].
  pose proof (le16_range b 28) as H28.
  pose proof (le16_range b 30) as H30.
  pose proof (le16_range b 32) as H32.
  assert (0 ≤ sr_off (sr_advance s directoryHeaderLen)) as Hoff1
    by (cbn; unfold directoryHeaderLen; lia).
  rewrite ReadFull_spec by lia.
  rewrite sr_remaining_advance by (unfold directoryHeaderLen; lia).
  fold a. unfold directoryHeaderTail.
  set (rest := drop (Z.to_nat directoryHeaderLen) a).
  set (n := le16 b 28 + le16 b 30 + le16 b 32).
  destruct (n <=? len rest) eqn:En.
  2: { destruct (0 <? len rest); reflexivity. }
  set (d := take (Z.to_nat n) rest).
  assert (len d = n) as Hd by (subst d; apply len_take; lia).
  rewrite !slice_ok by lia.
  unfold sliceFrom.
  destruct (le16 b 28 + le16 b 30 <? 0) eqn:E1; [lia |].
  destruct (len d <? le16 b 28 + le16 b 30) eqn:E2; [lia |].
  cbn [orb]. unfold directoryHeaderOf.
  change (Z.to_nat 0) with 0%nat. rewrite drop_0.
  replace (le16 b 28 - 0) with (le16 b 28) by lia.
  replace (le16 b 28 + le16 b 30 - le16 b 28) with (le16 b 30) by lia.
  reflexivity.
Qed.

(** ** The loop of [init] *)

Lemma readDirectoryHeader_cases (f : File) (s : SectionReader) :
  0 ≤ sr_off s →
  (∃ f' k, readDirectoryHeader f s = (Ok f', sr_advance s k)
           ∧ directoryHeaderLen ≤ k ≤ len (sr_remaining s))
  ∨ (∃ e s', readDirectoryHeader f s = (Err e, s')
             ∧ (e = ErrFormat ∨ e = ErrUnexpectedEOF ∨ e = EOF)).
Proof.
  intros Hoff. rewrite readDirectoryHeader_spec by exact Hoff. cbv zeta.
  set (a := sr_remaining s).
  set (b := take (Z.to_nat directoryHeaderLen) a).
  set (rest := drop (Z.to_nat directoryHeaderLen) a).
  pose proof (le16_range b 28). pose proof (le16_range b 30).
  pose proof (le16_range b 32).
  destruct (directoryHeaderLen <=? len a) eqn:Elen.
  - destruct (le32 b 0 =? directoryHeaderSignature).
    + destruct (directoryHeaderTail b <=? len rest) eqn:En.
      * left. eexists _, (directoryHeaderLen + directoryHeaderTail b).
        split.
        -- f_equal. destruct s. unfold sr_advance. cbn. f_equal. lia.
        -- unfold directoryHeaderTail, directoryHeaderLen in *.
           subst rest. rewrite len_drop in En by lia. lia.
      * right. destruct (0 <? len rest); eauto 10.
    + right. eauto 10.
  - right. destruct (0 <? len a); eauto 10.
Qed.

(** Decoding the directory of a reader ends, and never in a panic. *)
Lemma directoryOf_total (r : list byte) (size : Z) (s : SectionReader) :
  0 ≤ sr_off s →
  ∃ fs e, directoryOf r size s fs e
          ∧ (e = ErrFormat ∨ e = ErrUnexpectedEOF ∨ e = EOF)
          ∧ directoryHeaderLen * Z.of_nat (length fs) ≤ len (sr_remaining s).
Proof.
  remember (length (sr_remaining s)) as n eqn:Hn.
  revert s Hn. induction (lt_wf n) as [n _ IH]. intros s Hn Hoff.
  destruct (readDirectoryHeader_cases (newFile r size) s Hoff)
    as [(f & k & Hread & Hk) | (e & s' & Hread & He)].
  - assert (0 ≤ sr_off (sr_advance s k)) as Hoff'
      by (cbn; unfold directoryHeaderLen in Hk; lia).
    assert (len (sr_remaining (sr_advance s k)) = len (sr_remaining s) - k)
      as Hrem.
    { rewrite sr_remaining_advance by (unfold directoryHeaderLen in Hk; lia).
      apply len_drop. unfold directoryHeaderLen in Hk. lia. }
    destruct (IH (length (sr_remaining (sr_advance s k)))) with
      (s := sr_advance s k) as (fs & e & Hdir & He & Hlen);
      [| reflexivity | exact Hoff' |].
    { unfold len, directoryHeaderLen in *. lia. }
    exists (f :: fs), e. split; [| split; [exact He |]].
    + eapply directory_entry; eassumption.
    + cbn [length]. unfold directoryHeaderLen in *. lia.
  - exists [], e. split; [| split; [exact He |]].
    + eapply directory_stop; eassumption.
    + cbn. pose proof (len_nonneg (sr_remaining s)). lia.
Qed.

Lemma directoryOf_unique (r : list byte) (size : Z) (s : SectionReader)
    (fs fs' : list File) (e e' : error) :
  directoryOf r size s fs e → directoryOf r size s fs' e' →
  fs = fs' ∧ e = e'.
Proof.
  intros Hdir. revert fs' e'.
  induction Hdir as [s s1 e Hread | s s1 f fs e Hread Hdir IH];
    intros fs' e' Hdir'; inversion Hdir' as [? ? ? Hread' | ? ? ? ? ? Hread' Hrest];
    subst; rewrite Hread in Hread'; try discriminate.
  - injection Hread' as <- _. split; reflexivity.
  - injection Hread' as <- <-.
    destruct (IH _ _ Hrest) as [<- <-]. split; reflexivity.
Qed.

(** With fuel above the number of entries, the loop of [init] leaves with
    the entries and the error of the directory of its reader. *)
Lemma readDirectoryLoop_directoryOf (r : list byte) (size : Z)
    (s : SectionReader) (fs : list File) (e : error) :
  directoryOf r size s fs e →
  ∀ (fuel : nat) (acc : list File),
    (length fs < fuel)%nat →
    readDirectoryLoop fuel r size s acc = Some (exitOn (acc ++ fs) e).
Proof.
  induction 1 as [s s1 e Hread | s s1 f fs e Hread Hdir IH];
    intros fuel acc Hfuel;
    (destruct fuel as [| fuel]; [cbn in Hfuel; lia |]);
    cbn [readDirectoryLoop]; rewrite Hread.
  - rewrite app_nil_r. destruct e; reflexivity.
  - rewrite IH by (cbn in Hfuel; lia).
    rewrite <- app_assoc. reflexivity.
Qed.

Lemma sr_remaining_length (s : SectionReader) :
  (length (sr_remaining s) ≤ length (sr_r s))%nat.
Proof.
  unfold sr_remaining. rewrite length_take, length_drop. lia.
Qed.

(** [init] after the trailer: the entries and the error of the directory of
    its reader decide. *)
Lemma readDirectory_spec (r : list byte) (size : Z) (dirEnd : directoryEnd)
    (fs : list File) (e : error) :
  0 ≤ directoryOffset dirEnd ≤ size →
  directoryOf r size (directoryReader r size (directoryOffset dirEnd)) fs e →
  readDirectory r size dirEnd =
    Some match exitOn fs e with
         | Break files err =>
             if uint16 (Z.of_nat (length files)) =? directoryRecords dirEnd
             then Ok {| rd_r := r; rd_File := files;
                        rd_Comment := comment dirEnd |}
             else Err err
         | Return err => Err err
         | LoopPanic => Panic
         end.
Proof.
  intros Hoff Hdir. unfold readDirectory, SectionReader_Seek, NewSectionReader.
  cbn [sr_base sr_limit sr_r sr_off].
  destruct (directoryOffset dirEnd + 0 <? 0) eqn:E1; [lia |].
  destruct (0 + size <? directoryOffset dirEnd + 0) eqn:E2; [lia |].
  cbn [orb].
  replace (directoryOffset dirEnd + 0) with (directoryOffset dirEnd) by lia.
  replace (0 + size) with size by lia.
  fold (directoryReader r size (directoryOffset dirEnd)).
  assert (length fs < S (length r))%nat as Hfuel.
  { destruct (directoryOf_total r size
                (directoryReader r size (directoryOffset dirEnd)))
      as (fs' & e' & Hdir' & _ & Hlen); [cbn; lia |].
    destruct (directoryOf_unique _ _ _ _ _ _ _ Hdir Hdir') as [<- <-].
    pose proof (sr_remaining_length
                  (directoryReader r size (directoryOffset dirEnd))) as Hrem.
    cbn [sr_r directoryReader] in Hrem.
    unfold len, directoryHeaderLen in Hlen. lia. }
  rewrite (readDirectoryLoop_directoryOf r size _ fs e Hdir _ [] Hfuel).
  cbn [app].
  destruct (exitOn fs e) as [files err | err |]; try reflexivity.
  destruct (uint16 (Z.of_nat (length files)) =? directoryRecords dirEnd);
    reflexivity.
Qed.

(** Once the trailer is read and the directory offset it names lies
    within the stated size, [init] decodes central directory records
    until a read fails; the records [fs] decoded and the error [e] of that
    read always exist.  When [e] is [ErrFormat] (a bad signature) or
    [io.ErrUnexpectedEOF] (some but not all bytes of a record), [init]
    succeeds with exactly [fs] if their number reduced modulo 65536 equals
    the declared record count, and fails with [e] otherwise. *)
Theorem init_count_tolerance (r : list byte) (size : Z) (dirEnd : directoryEnd) :
  readDirectoryEnd r size = Ok dirEnd →
  0 ≤ directoryOffset dirEnd ≤ size →
  ∃ fs e,
    directoryOf r size (directoryReader r size (directoryOffset dirEnd)) fs e
    ∧ (e = ErrFormat ∨ e = ErrUnexpectedEOF →
       init r size =
         Some (if Z.of_nat (length fs) mod 65536 =? directoryRecords dirEnd
               then Ok {| rd_r := r; rd_File := fs;
                          rd_Comment := comment dirEnd |}
               else Err e)).
Proof.
  intros Hend Hoff.
  destruct (directoryOf_total r size
              (directoryReader r size (directoryOffset dirEnd)))
    as (fs & e & Hdir & _ & _); [cbn; lia |].
  exists fs, e. split; [exact Hdir |]. intros He.
  unfold init. rewrite Hend.
  rewrite (readDirectory_spec r size dirEnd fs e Hoff Hdir).
  destruct He as [-> | ->]; reflexivity.
Qed.

(** C1, the failing input. The store that holds only a trailer which
    declares no records and names the end of the store as the start of the
    directory.  The trailer is read and no record is decoded: the read that
    stops the decoding has no byte left and returns [io.EOF], where the
    comment of [readDirectoryHeader] promises [io.ErrUnexpectedEOF] for a
    header that cannot be read completely.  That error is neither of the
    two on which the loop of [init] breaks, so [init] returns it without
    looking at the count: the number of records decoded equals the declared
    count, and yet [init] fails, with [io.EOF]. *)
Lemma end_of_input_fails_despite_count_match :
  ∃ dirEnd,
    readDirectoryEnd endOffsetArchive 22 = Ok dirEnd
    ∧ directoryOf endOffsetArchive 22
        (directoryReader endOffsetArchive 22 (directoryOffset dirEnd)) [] EOF
    ∧ Z.of_nat (length (@nil File)) mod 65536 = directoryRecords dirEnd
    ∧ init endOffsetArchive 22 = Some (Err EOF).
Proof.
  exists (directoryEndAt endOffsetArchive 0).
  split; [vm_compute; reflexivity |].
  split; [| split; vm_compute; reflexivity].
  eapply directory_stop. vm_compute. reflexivity.
Qed.

Lemma init_count_tolerance_witness :
  ∃ fs e,
    directoryOf sampleArchive 375
      (directoryReader sampleArchive 375
         (directoryOffset (directoryEndAt sampleArchive 353))) fs e
    ∧ (e = ErrFormat ∨ e = ErrUnexpectedEOF →
       init sampleArchive 375 =
         Some (if Z.of_nat (length fs) mod 65536
                  =? directoryRecords (directoryEndAt sampleArchive 353)
               then Ok {| rd_r := sampleArchive; rd_File := fs;
                          rd_Comment :=
                            comment (directoryEndAt sampleArchive 353) |}
               else Err e)).
Proof.
  apply (init_count_tolerance sampleArchive 375
           (directoryEndAt sampleArchive 353)).
  - vm_compute. reflexivity.
  - vm_compute. split; discriminate.
Defined.

(** The sample archive opens with its four entries. *)
Example init_sampleArchive :
  init sampleArchive 375
  = Some (Ok {| rd_r := sampleArchive; rd_File := sampleEntries;
                rd_Comment := [] |})
  ∧ map Name sampleEntries = [["a"]; ["b"]; ["c"]; ["d"]]%byte
  ∧ map Method sampleEntries = [0; 8; 0; 99]
  ∧ map Flags sampleEntries = [0; 8; 8; 0]
  ∧ map CompressedSize sampleEntries = [5; 0; 5; 0]
  ∧ map headerOffset sampleEntries = [0; 36; 86; 134].
Proof. vm_compute. repeat split. Qed.

Lemma accepted_trailer_decodes_witness :
  sliceFrom sampleArchive 353 ≫= decodeDirectoryEnd
  = Ok (directoryEndAt sampleArchive 353)
  ∧ 353 + directoryEndLen + commentLen (directoryEndAt sampleArchive 353)
    = len sampleArchive
  ∧ len (comment (directoryEndAt sampleArchive 353))
    = commentLen (directoryEndAt sampleArchive 353).
Proof.
  apply (proj1 accepted_trailer_decodes sampleArchive 353).
  - vm_compute. reflexivity.
  - lia.
Defined.

(** ** The local header resolver *)

(** The bytes of the store that [findBodyOffset] can read. *)
Lemma findBodyOffset_general (f : File) :
  0 ≤ headerOffset f →
  findBodyOffset f =
    let a := sr_remaining (NewSectionReader (zipr f) (headerOffset f)
                             (zipsize f - headerOffset f)) in
    if fileHeaderLen <=? len a then
      if le32 a 0 =? fileHeaderSignature
      then Ok (fileHeaderLen + le16 a 26 + le16 a 28)
      else Err ErrFormat
    else if 0 <? len a then Err ErrUnexpectedEOF else Err EOF.
Proof.
  intros Hoff. cbv zeta. unfold findBodyOffset.
  rewrite ReadFull_spec by (cbn; unfold fileHeaderLen; lia).
  set (a := sr_remaining _).
  destruct (fileHeaderLen <=? len a) eqn:Elen.
  2: { destruct (0 <? len a); reflexivity. }
  set (b := take (Z.to_nat fileHeaderLen) a).
  assert (len b = 30) as Hb.
  { subst b. apply len_take. unfold fileHeaderLen in *.
    pose proof (len_nonneg a). lia. }
  rewrite toUint32_slice, !toUint16_slice by lia.
  assert (le32 b 0 = le32 a 0) as ->
    by (apply le32_take; unfold fileHeaderLen; lia).
  assert (le16 b 26 = le16 a 26) as ->
    by (apply le16_take; unfold fileHeaderLen; lia).
  assert (le16 b 28 = le16 a 28) as ->
    by (apply le16_take; unfold fileHeaderLen; lia).
  cbn. destruct (le32 a 0 =? fileHeaderSignature); reflexivity.
Qed.




Example findBodyOffset_sample :
  map findBodyOffset sampleEntries = [Ok 31; Ok 31; Ok 31; Ok 31].
Proof. vm_compute. reflexivity. Qed.

(** ** The data descriptor *)

Lemma readDataDescriptor_spec (f : File) (s : SectionReader) :
  0 ≤ sr_off s →
  readDataDescriptor f s =
    let a := sr_remaining s in
    if dataDescriptorLen <=? len a
    then (Ok (withDescriptor f (le32 a 0) (le32 a 4) (le32 a 8)),
          sr_advance s dataDescriptorLen)
    else if 0 <? len a
         then (Err ErrUnexpectedEOF, sr_advance s (len a))
         else (Err EOF, s).
Proof.
  intros Hoff. cbv zeta. unfold readDataDescriptor.
  unfold mbind at 1. unfold io_bind at 1.
  rewrite ReadFull_spec by (unfold dataDescriptorLen; lia).
  set (a := sr_remaining s).
  destruct (dataDescriptorLen <=? len a) eqn:Elen.
  2: { destruct (0 <? len a); reflexivity. }
  set (b := take (Z.to_nat dataDescriptorLen) a).
  assert (len b = 12) as Hb.
  { subst b. apply len_take. unfold dataDescriptorLen in *.
    pose proof (len_nonneg a). lia. }
  rewrite !toUint32_slice by lia.
  assert (le32 b 0 = le32 a 0) as ->
    by (apply le32_take; unfold dataDescriptorLen; lia).
  assert (le32 b 4 = le32 a 4) as ->
    by (apply le32_take; unfold dataDescriptorLen; lia).
  assert (le32 b 8 = le32 a 8) as ->
    by (apply le32_take; unfold dataDescriptorLen; lia).
  reflexivity.
Qed.

(** The fields that a section reader still delivers are those of its store
    at its offset. *)
Lemma sr_remaining_le32 (s : SectionReader) (i : Z) :
  0 ≤ sr_off s → 0 ≤ i → i + 4 ≤ len (sr_remaining s) →
  le32 (sr_remaining s) i = le32 (sr_r s) (sr_off s + i).
Proof.
  intros Hoff Hi Hlen. unfold sr_remaining in *.
  assert (i + 4 ≤ sr_limit s - sr_off s) as Hlim.
  { unfold len in Hlen. rewrite length_take in Hlen. lia. }
  rewrite le32_take by lia. rewrite le32_drop by lia. reflexivity.
Qed.






Section PipelineProperties.
Context {H F : Type} `{!Crc32 H} `{!Flate F}.

Abbreviation checksumReader := (@checksumReader H F).






(** When the stream beneath the checksum wrapper reports the end of its
    input, leaving the section reader at [zr]: for an entry with the
    data-descriptor flag set, and when [zr] can still deliver 12 bytes,
    [Read] reads the 12 bytes of the store at the offset of [zr], writes
    the three values into the entry, and compares the accumulated CRC-32
    with the first of them; when [zr] can deliver fewer than 12 bytes, it
    returns the error of that read and leaves the entry alone.  For an entry with the flag clear it compares with
    the CRC-32 of the entry, which is the one of the central directory. *)
Theorem Read_at_end_of_input (r : checksumReader) (f : File) (n : Z)
    (data : list byte) (rc : @ReadCloser F) (zr : SectionReader) :
  rc_Read (cr_rc r) (cr_zipr r) n = (data, Some EOF, rc, zr) →
  0 ≤ sr_off zr →
  (hasDataDescriptor f = true →
   dataDescriptorLen ≤ len (sr_remaining zr) →
   Read r f n =
     (Ok (data,
          if hash_Sum32 (hash_Write (cr_hash r) data)
             =? le32 (sr_r zr) (sr_off zr)
          then None else Some ErrChecksum),
      {| cr_rc := rc; cr_hash := hash_Write (cr_hash r) data;
         cr_zipr := sr_advance zr dataDescriptorLen |},
      withDescriptor f (le32 (sr_r zr) (sr_off zr))
        (le32 (sr_r zr) (sr_off zr + 4))
        (le32 (sr_r zr) (sr_off zr + 8))))
  ∧ (hasDataDescriptor f = true →
     len (sr_remaining zr) < dataDescriptorLen →
     (Read r f n).1.1
     = Ok (data, Some (if 0 <? len (sr_remaining zr)
                       then ErrUnexpectedEOF else EOF))
     ∧ (Read r f n).2 = f)
  ∧ (hasDataDescriptor f = false →
     Read r f n =
       (Ok (data,
            Some (if hash_Sum32 (hash_Write (cr_hash r) data) =? CRC32 f
                  then EOF else ErrChecksum)),
        {| cr_rc := rc; cr_hash := hash_Write (cr_hash r) data;
           cr_zipr := zr |},
        f)).
Proof.
  intros Hinner Hoff. unfold Read. rewrite Hinner.
  rewrite readDataDescriptor_spec by exact Hoff. cbv zeta.
  split; [| split].
  - intros -> Hlen. unfold dataDescriptorLen in *.
    destruct (12 <=? len (sr_remaining zr)) eqn:E; [| lia].
    rewrite !sr_remaining_le32 by lia.
    rewrite Z.add_0_r. cbn [CRC32 withDescriptor].
    destruct (hash_Sum32 (hash_Write (cr_hash r) data)
              =? le32 (sr_r zr) (sr_off zr)); reflexivity.
  - intros -> Hlen. unfold dataDescriptorLen in *.
    destruct (12 <=? len (sr_remaining zr)) eqn:E; [lia |].
    destruct (0 <? len (sr_remaining zr)); split; reflexivity.
  - intros ->.
    destruct (hash_Sum32 (hash_Write (cr_hash r) data) =? CRC32 f);
      reflexivity.
Qed.

End PipelineProperties.

(** ** The pipeline on the sample archive *)


Example Open_sample :
  @Open Z storedInflater _ _ entryA = Ok (Some readerA, None)
  ∧ cr_rc readerA = NopCloser
  ∧ @Open Z storedInflater _ _ entryB = Ok (Some readerB, None)
  ∧ cr_rc readerB = flateReader SiFresh
  ∧ @Open Z storedInflater _ _ entryC = Ok (Some readerC, None)
  ∧ @Open Z storedInflater _ _ entryD = Ok (None, Some ErrAlgorithm).
Proof. vm_compute. repeat split. Qed.


Lemma Read_at_end_of_input_witness :
  Read readerB1 entryB 16 =
    (Ok ([], None),
     {| cr_rc := flateReader (SiPending []);
        cr_hash := hash_Write (cr_hash readerB1) [];
        cr_zipr := sr_advance viewB1 dataDescriptorLen |},
     withDescriptor entryB 0xd8932aac 7 2).
Proof.
  assert (rc_Read (cr_rc readerB1) (cr_zipr readerB1) 16
          = ([], Some EOF, flateReader (SiPending []), viewB1)) as Hinner
    by (vm_compute; reflexivity).
  assert (0 ≤ sr_off viewB1) as Hoff by (vm_compute; intros Hc; discriminate Hc).
  destruct (Read_at_end_of_input readerB1 entryB 16 [] _ viewB1 Hinner Hoff)
    as [Hset _].
  rewrite Hset.
  - vm_compute. reflexivity.
  - vm_compute. reflexivity.
  - vm_compute. intros Hc. discriminate Hc.
Defined.



(** C6, the failing input. The entry [c] of the sample archive is stored
    with the data-descriptor flag set and the compressed size 5; the
    directory and its data descriptor give the CRC-32 of "hello", its body
    is "jello".  Draining its stream delivers "jello" and ends with
    [io.EOF]: the read of the data descriptor starts at the limit of the
    section reader of the body and returns [io.EOF], which [Read] returns
    before it compares the checksums. *)
Lemma flagged_stored_entry_is_not_verified :
  @Open Z storedInflater _ _ entryC = Ok (Some readerC, None)
  ∧ (Method entryC, Flags entryC, CompressedSize entryC) = (0, 8, 5)
  ∧ CRC32 entryC = 0x3610a686
  ∧ le32 sampleArchive (headerOffset entryC + 31 + 5) = 0x3610a686
  ∧ crc32_update 0 ["j"; "e"; "l"; "l"; "o"]%byte = 0x4cd0f5e6
  ∧ drain 10 16 readerC entryC []
    = Some (Ok (["j"; "e"; "l"; "l"; "o"]%byte, EOF), entryC).
Proof. vm_compute. repeat split. Qed.

(** C5, the failing input. The entry [b] of [describedArchive] has the
    data-descriptor flag set, and the central directory gives its
    compressed size, 7.  The 12 bytes of the store after the 7 compressed
    bytes, at offset 38, are its data descriptor, with the CRC-32 of "hi";
    the compressed bytes hold "ho".  [Read] never reads that descriptor.
    The section reader [Open] builds for the body ends with the compressed
    bytes (base 31, limit 38), and [Read] reads the descriptor through that
    same reader: when the inflater reports the end of its input the reader
    is at its limit, [readDataDescriptor] gets [io.EOF] from it, and [Read]
    returns that error before it compares any CRC-32; the entry keeps the
    values of the directory.  So reading to the end delivers "ho" and ends
    with [io.EOF], whether the inflater takes its block only or fills a
    buffer from the reader beneath it, although the CRC-32 of "ho" is
    neither that of the descriptor nor that of the directory. *)
Lemma described_entry_descriptor_is_not_read :
  init describedArchive 119
  = Some (Ok {| rd_r := describedArchive; rd_File := [describedEntry];
                rd_Comment := [] |})
  ∧ (Flags describedEntry, Method describedEntry, CompressedSize describedEntry,
     CRC32 describedEntry) = (8, 8, 7, 0xd8932aac)
  ∧ hasDataDescriptor describedEntry = true
  ∧ @Open Z storedInflater _ _ describedEntry = Ok (Some describedReader, None)
  ∧ (sr_base (cr_zipr describedReader), sr_limit (cr_zipr describedReader))
    = (31, 38)
  ∧ (le32 describedArchive 38, le32 describedArchive 42,
     le32 describedArchive 46) = (0xd8932aac, 7, 2)
  ∧ crc32_update 0 ["h"; "o"]%byte = 0x31f08f99
  ∧ (Read describedReader describedEntry 16).1.1
    = Ok (["h"; "o"]%byte, None)
  ∧ Read (Read describedReader describedEntry 16).1.2 describedEntry 16
    = (Ok ([], Some EOF),
       {| cr_rc := flateReader (SiPending []); cr_hash := 0x31f08f99;
          cr_zipr := sr_advance (cr_zipr describedReader) 7 |},
       describedEntry)
  ∧ drain 10 16 describedReader describedEntry []
    = Some (Ok (["h"; "o"]%byte, EOF), describedEntry)
  ∧ @Open Z storedInflater crc32_ieee bufferedInflater_flate describedEntry
    = Ok (Some describedReaderBuffered, None)
  ∧ @drain Z storedInflater crc32_ieee bufferedInflater_flate
      10 16 describedReaderBuffered describedEntry []
    = Some (Ok (["h"; "o"]%byte, EOF), describedEntry).
Proof. vm_compute. repeat split. Qed.

(** ** Archives with more records than the trailer can count *)

Lemma b2z_lowByte (z : Z) : b2z (lowByte z) = z mod 256.
Proof.
  unfold lowByte, b2z.
  pose proof (Z.mod_pos_bound z 256 ltac:(lia)) as Hz.
  destruct (Byte.of_N (Z.to_N (z mod 256))) as [b |] eqn:E.
  - apply Byte.to_of_N in E. change (default x00 (Some b)) with b.
    rewrite E. lia.
  - apply Byte.of_N_None_iff in E. lia.
Qed.

Lemma len_concat_records (n : nat) :
  len (concat (replicate n emptyRecord)) = 46 * Z.of_nat n.
Proof.
  induction n as [| n IH]; [reflexivity |].
  cbn [replicate concat]. rewrite len_app, IH.
  change (len emptyRecord) with 46. lia.
Qed.

Lemma len_countArchive (n : nat) (k : Z) :
  len (countArchive n k) = 46 * Z.of_nat n + 22.
Proof.
  unfold countArchive. rewrite len_app, len_concat_records. reflexivity.
Qed.

Lemma drop_countArchive (n : nat) (k : Z) :
  drop (Z.to_nat (46 * Z.of_nat n)) (countArchive n k) = countTrailer k.
Proof.
  unfold countArchive.
  rewrite drop_app_length'; [reflexivity |].
  pose proof (len_concat_records n) as Hlen. unfold len in Hlen. lia.
Qed.

Lemma countTrailer_accepted (n : nat) (k : Z) :
  acceptable (countArchive n k) (46 * Z.of_nat n) = true.
Proof.
  rewrite <- (Z.add_0_r (46 * Z.of_nat n)).
  rewrite <- acceptable_drop
    by (rewrite ?len_countArchive; lia).
  rewrite drop_countArchive. reflexivity.
Qed.

Lemma countArchive_last (n : nat) (k : Z) :
  lastAcceptableIn (countArchive n k) = 46 * Z.of_nat n.
Proof.
  apply lastAcceptableIn_unique; [apply countTrailer_accepted |].
  intros q Hq. apply acceptable_bounds in Hq.
  rewrite len_countArchive in Hq. unfold directoryEndLen in Hq. lia.
Qed.

Lemma countTrailer_fields (n : nat) (k : Z) :
  0 ≤ k < 65536 →
  directoryEndAt (countArchive n k) (46 * Z.of_nat n)
  = {| diskNbr := 0; dirDiskNbr := 0; dirRecordsThisDisk := k;
       directoryRecords := k; directorySize := 0; directoryOffset := 0;
       commentLen := 0; comment := [] |}.
Proof.
  intros Hk.
  rewrite <- (Z.add_0_r (46 * Z.of_nat n)).
  rewrite <- directoryEndAt_window by lia.
  rewrite drop_countArchive.
  unfold directoryEndAt, countTrailer, le16, le32, byteAt.
  repeat match goal with
         | |- context [Z.to_nat ?e] =>
             let v := eval vm_compute in (Z.to_nat e) in
             progress change (Z.to_nat e) with v
         end.
  cbn [lookup list_lookup default take drop]. unfold id.
  rewrite !b2z_lowByte. change (b2z x00) with 0.
  replace (k mod 256 + 256 * ((k / 256) mod 256)) with k; [reflexivity |].
  rewrite (Z.mod_small (k / 256)) by (split; [apply Z.div_pos | apply Z.div_lt_upper_bound]; lia).
  pose proof (Z.div_mod k 256 ltac:(lia)). lia.
Qed.

Lemma records_directory (r : list byte) (size : Z) (m : nat)
    (tail : list byte) (s : SectionReader) :
  0 ≤ sr_off s →
  sr_remaining s = concat (replicate m emptyRecord) ++ tail →
  0 < len tail < 46 →
  directoryOf r size s (replicate m (emptyEntry r size)) ErrUnexpectedEOF.
Proof.
  revert s. induction m as [| m IH]; intros s Hoff Hrem Htail.
  - cbn in Hrem. eapply directory_stop.
    rewrite readDirectoryHeader_spec by exact Hoff. cbv zeta.
    rewrite Hrem. unfold directoryHeaderLen.
    destruct (46 <=? len tail) eqn:E1; [lia |].
    destruct (0 <? len tail) eqn:E2; [reflexivity | lia].
  - cbn [replicate concat] in Hrem. rewrite <- app_assoc in Hrem.
    set (rest := concat (replicate m emptyRecord) ++ tail) in *.
    assert (take (Z.to_nat directoryHeaderLen) (sr_remaining s) = emptyRecord)
      as Hb by (rewrite Hrem; apply (take_app_length' emptyRecord); reflexivity).
    assert (drop (Z.to_nat directoryHeaderLen) (sr_remaining s) = rest)
      as Hrest by (rewrite Hrem; apply (drop_app_length' emptyRecord); reflexivity).
    cbn [replicate].
    eapply directory_entry.
    + rewrite readDirectoryHeader_spec by exact Hoff. cbv zeta.
      rewrite Hb, Hrest.
      assert ((directoryHeaderLen <=? len (sr_remaining s)) = true) as ->.
      { rewrite Hrem, len_app. change (len emptyRecord) with 46.
        pose proof (len_nonneg rest). unfold directoryHeaderLen. lia. }
      change (le32 emptyRecord 0 =? directoryHeaderSignature) with true.
      change (directoryHeaderTail emptyRecord) with 0.
      cbn iota.
      assert ((0 <=? len rest) = true) as ->
        by (pose proof (len_nonneg rest); lia).
      change (Z.to_nat 0) with 0%nat. rewrite take_0. reflexivity.
    + apply IH; [| | exact Htail].
      * cbn. unfold directoryHeaderLen. lia.
      * rewrite !sr_remaining_advance by (cbn; unfold directoryHeaderLen; lia).
        rewrite Hrest. reflexivity.
Qed.

Lemma sr_remaining_whole (r : list byte) :
  sr_remaining (directoryReader r (len r) 0) = r.
Proof.
  unfold sr_remaining, directoryReader. cbn [sr_limit sr_off sr_r].
  change (Z.to_nat 0) with 0%nat. rewrite drop_0.
  apply take_ge. unfold len. lia.
Qed.

(** An archive of [n] records whose trailer declares [n mod 65536] of them
    opens with all [n] entries. *)
Lemma countArchive_opens (n : nat) :
  let k := Z.of_nat n mod 65536 in
  let r := countArchive n k in
  init r (len r)
  = Some (Ok {| rd_r := r; rd_File := replicate n (emptyEntry r (len r));
                rd_Comment := [] |}).
Proof.
  cbv zeta.
  set (k := Z.of_nat n mod 65536).
  assert (0 ≤ k < 65536) as Hrange
    by (subst k; apply Z.mod_pos_bound; lia).
  set (r := countArchive n k).
  unfold init. rewrite readDirectoryEnd_scanWholeStore. unfold scanWholeStore.
  subst r. rewrite countArchive_last.
  destruct (0 <=? 46 * Z.of_nat n) eqn:E; [| lia].
  rewrite (countTrailer_fields n k Hrange).
  set (r := countArchive n k).
  rewrite (readDirectory_spec r (len r) _
             (replicate n (emptyEntry r (len r))) ErrUnexpectedEOF).
  - cbn [exitOn directoryRecords comment].
    rewrite length_replicate. unfold uint16. fold k. rewrite Z.eqb_refl.
    reflexivity.
  - cbn [directoryOffset]. pose proof (len_nonneg r). lia.
  - cbn [directoryOffset].
    apply (records_directory r (len r) n (countTrailer k)).
    + cbn. lia.
    + rewrite sr_remaining_whole. reflexivity.
    + change (len (countTrailer k)) with 22. lia.
Qed.

(** With [65536 + k] records in the directory and [k] declared by the
    trailer, [init] returns [65536 + k] entries and no error. *)
Theorem count_wraparound_opens (k : Z) :
  0 ≤ k < 65536 →
  let r := countArchive (Z.to_nat (65536 + k)) k in
  ∃ files,
    init r (len r)
    = Some (Ok {| rd_r := r; rd_File := files; rd_Comment := [] |})
    ∧ Z.of_nat (length files) = 65536 + k.
Proof.
  intros Hk. cbv zeta.
  pose proof (countArchive_opens (Z.to_nat (65536 + k))) as Hopen.
  cbv zeta in Hopen. rewrite Z2Nat.id in Hopen by lia.
  replace ((65536 + k) mod 65536) with k in Hopen
    by (rewrite <- (Z.mod_small k 65536) at 1 by lia;
        rewrite <- (Z.mod_add k 1 65536) by lia; f_equal; lia).
  eexists. split; [exact Hopen |].
  rewrite length_replicate. lia.
Qed.

Lemma count_wraparound_opens_witness :
  ∃ files,
    init (countArchive (Z.to_nat (65536 + 1)) 1)
         (len (countArchive (Z.to_nat (65536 + 1)) 1))
    = Some (Ok {| rd_r := countArchive (Z.to_nat (65536 + 1)) 1;
                  rd_File := files; rd_Comment := [] |})
    ∧ Z.of_nat (length files) = 65536 + 1.
Proof. apply (count_wraparound_opens 1). lia. Defined.

(** ** Stored entries with the data-descriptor flag *)

(** A section reader that reports the end of its input has nothing left to
    deliver. *)
Lemma SectionReader_Read_EOF (s s' : SectionReader) (n : Z) (got : list byte) :
  0 ≤ sr_off s →
  SectionReader_Read s n = (got, Some EOF, s') →
  sr_remaining s' = [] ∧ 0 ≤ sr_off s'.
Proof.
  intros Hoff. unfold SectionReader_Read.
  destruct (sr_limit s <=? sr_off s) eqn:Elim.
  { intros Heq. injection Heq as _ <-. split; [| exact Hoff].
    unfold sr_remaining.
    replace (Z.to_nat (sr_limit s - sr_off s)) with 0%nat by lia.
    apply take_0. }
  unfold ReadAt. destruct (sr_off s <? 0) eqn:Eneg; [lia |].
  set (n' := if sr_limit s - sr_off s <? n then sr_limit s - sr_off s else n).
  set (l := drop (Z.to_nat (sr_off s)) (sr_r s)).
  destruct (len (take (Z.to_nat n') l) <? n') eqn:Eshort; [| discriminate].
  intros Heq. injection Heq as _ <-.
  apply Z.ltb_lt in Eshort.
  assert (length l < Z.to_nat n')%nat as Hl.
  { unfold len in Eshort. rewrite length_take in Eshort. lia. }
  assert (take (Z.to_nat n') l = l) as -> by (apply take_ge; lia).
  split; [| cbn; pose proof (len_nonneg l); lia].
  unfold sr_remaining. cbn [sr_advance sr_limit sr_off sr_r].
  assert (drop (Z.to_nat (sr_off s + len l)) (sr_r s) = []) as ->.
  { apply drop_ge. subst l. unfold len. rewrite length_drop. lia. }
  apply take_nil.
Qed.

Section StoredEntries.
Context {H F : Type} `{!Crc32 H} `{!Flate F}.

(** For a stored entry whose data-descriptor flag is set, no [Read] returns
    [ErrChecksum] and none changes the entry, whatever the bytes of the
    store: at the end of the body the section reader has nothing left, the
    read of the data descriptor returns [io.EOF], and [Read] returns it. *)
Theorem stored_flagged_entry_never_verified (r : @checksumReader H F)
    (f : File) (n : Z) :
  cr_rc r = NopCloser →
  hasDataDescriptor f = true →
  0 ≤ sr_off (cr_zipr r) →
  ∃ data r',
    (Read r f n = (Ok (data, None), r', f)
     ∨ Read r f n = (Ok (data, Some EOF), r', f))
    ∧ cr_rc r' = NopCloser.
Proof.
  intros Hrc Hflag Hoff. unfold Read. rewrite Hrc. cbn [rc_Read].
  destruct (SectionReader_Read (cr_zipr r) n) as [[got err] s'] eqn:Hread.
  destruct err as [e |].
  - assert (e = EOF) as ->.
    { revert Hread. unfold SectionReader_Read, ReadAt.
      destruct (sr_limit (cr_zipr r) <=? sr_off (cr_zipr r));
        [intros Heq; injection Heq as _ <- _; reflexivity |].
      destruct (sr_off (cr_zipr r) <? 0) eqn:Eneg; [lia |].
      match goal with
      | |- context [if ?c then Some EOF else None] => destruct c
      end; intros Heq; [injection Heq as _ <- _; reflexivity | discriminate]. }
    destruct (SectionReader_Read_EOF _ _ _ _ Hoff Hread) as [Hrem Hoff'].
    rewrite Hflag. rewrite readDataDescriptor_spec by exact Hoff'.
    cbv zeta. rewrite Hrem. cbn.
    eexists _, _. split; [right; reflexivity | reflexivity].
  - eexists _, _. split; [left; reflexivity | reflexivity].
Qed.

End StoredEntries.

Lemma stored_flagged_entry_never_verified_witness :
  ∃ data r',
    (Read readerC entryC 16 = (Ok (data, None), r', entryC)
     ∨ Read readerC entryC 16 = (Ok (data, Some EOF), r', entryC))
    ∧ cr_rc r' = NopCloser.
Proof.
  apply (stored_flagged_entry_never_verified readerC entryC 16).
  - vm_compute. reflexivity.
  - vm_compute. reflexivity.
  - vm_compute. intros Hc. discriminate Hc.
Defined.

(** Draining the stored entry [a], whose flag is clear, ends with [io.EOF];
    over the same entry with another CRC-32 it ends with [ErrChecksum]
    after the same bytes. *)
Example drain_unflagged_sample :
  drain 10 16 readerA entryA []
  = Some (Ok (["h"; "e"; "l"; "l"; "o"]%byte, EOF), entryA)
  ∧ drain 10 16 readerA (withDescriptor entryA 1 5 5) []
    = Some (Ok (["h"; "e"; "l"; "l"; "o"]%byte, ErrChecksum),
            withDescriptor entryA 1 5 5).
Proof. vm_compute. split; reflexivity. Qed.

(** ** [NewReader] returns *)

(** On a store of the stated size [NewReader] ends, and not in a panic: it
    returns a reader or an error. *)
Theorem NewReader_returns (r : list byte) :
  ∃ res, NewReader r (len r) = Some res ∧ res ≠ Panic.
Proof.
  unfold NewReader, init. rewrite readDirectoryEnd_scanWholeStore.
  unfold scanWholeStore.
  destruct (0 <=? lastAcceptableIn r); [| eexists; split; [reflexivity | discriminate]].
  set (d := directoryEndAt r (lastAcceptableIn r)).
  assert (0 ≤ directoryOffset d) as Hpos.
  { subst d. cbn [directoryOffset directoryEndAt].
    pose proof (le32_range r (lastAcceptableIn r + 16)). lia. }
  destruct (Z.le_gt_cases (directoryOffset d) (len r)) as [Hle | Hgt].
  - destruct (directoryOf_total r (len r)
                (directoryReader r (len r) (directoryOffset d)))
      as (fs & e & Hdir & He & _); [exact Hpos |].
    rewrite (readDirectory_spec r (len r) d fs e (conj Hpos Hle) Hdir).
    eexists. split; [reflexivity |].
    destruct He as [-> | [-> | ->]]; cbn [exitOn]; try discriminate;
      destruct (uint16 (Z.of_nat (length fs)) =? directoryRecords d);
      discriminate.
  - unfold readDirectory, SectionReader_Seek, NewSectionReader.
    cbn [sr_base sr_limit].
    destruct (directoryOffset d + 0 <? 0) eqn:E1; [lia |].
    destruct (0 + len r <? directoryOffset d + 0) eqn:E2; [| lia].
    cbn [orb]. eexists. split; [reflexivity | discriminate].
Qed.

(** ** The little-endian decoders *)

Lemma index_short (b : list byte) (i : Z) : len b ≤ i → index b i = Panic.
Proof.
  intros Hi. unfold index.
  destruct (i <? 0); [reflexivity |].
  destruct (len b <=? i) eqn:E; [reflexivity | lia].
Qed.

Lemma toUint16_short (b : list byte) : len b < 2 → toUint16 b = Panic.
Proof.
  intros Hshort. unfold toUint16.
  destruct (Z.le_gt_cases (len b) 0) as [H0 | H0].
  - rewrite (index_short b 0) by lia. reflexivity.
  - rewrite (index_ok b 0) by lia. cbn.
    rewrite (index_short b 1) by lia. reflexivity.
Qed.

Lemma toUint32_short (b : list byte) : len b < 4 → toUint32 b = Panic.
Proof.
  intros Hshort. unfold toUint32.
  destruct (Z.le_gt_cases (len b) 0) as [H0 | H0];
    [rewrite (index_short b 0) by lia; reflexivity |].
  rewrite (index_ok b 0) by lia. cbn.
  destruct (Z.le_gt_cases (len b) 1) as [H1 | H1];
    [rewrite (index_short b 1) by lia; reflexivity |].
  rewrite (index_ok b 1) by lia. cbn.
  destruct (Z.le_gt_cases (len b) 2) as [H2 | H2];
    [rewrite (index_short b 2) by lia; reflexivity |].
  rewrite (index_ok b 2) by lia. cbn.
  rewrite (index_short b 3) by lia. reflexivity.
Qed.

(** [toUint16] and [toUint32] panic on a slice shorter than two and four
    bytes, and on every other slice return the value of its first bytes read
    little-endian, which fits the unsigned type. *)
Theorem toUint_bounds (b : list byte) :
  (len b < 2 → toUint16 b = Panic)
  ∧ (2 ≤ len b →
     toUint16 b = Ok (b2z (byteAt b 0) + 256 * b2z (byteAt b 1))
     ∧ 0 ≤ b2z (byteAt b 0) + 256 * b2z (byteAt b 1) < 65536)
  ∧ (len b < 4 → toUint32 b = Panic)
  ∧ (4 ≤ len b →
     toUint32 b = Ok (b2z (byteAt b 0) + 256 * b2z (byteAt b 1)
                      + 65536 * b2z (byteAt b 2)
                      + 16777216 * b2z (byteAt b 3))
     ∧ 0 ≤ b2z (byteAt b 0) + 256 * b2z (byteAt b 1)
           + 65536 * b2z (byteAt b 2) + 16777216 * b2z (byteAt b 3)
         < 4294967296).
Proof.
  repeat split.
  - apply toUint16_short.
  - rewrite toUint16_ok by lia. reflexivity.
  - pose proof (b2z_range (byteAt b 0)). pose proof (b2z_range (byteAt b 1)). lia.
  - pose proof (b2z_range (byteAt b 0)). pose proof (b2z_range (byteAt b 1)). lia.
  - apply toUint32_short.
  - rewrite toUint32_ok by lia. reflexivity.
  - pose proof (b2z_range (byteAt b 0)). pose proof (b2z_range (byteAt b 1)).
    pose proof (b2z_range (byteAt b 2)). pose proof (b2z_range (byteAt b 3)). lia.
  - pose proof (b2z_range (byteAt b 0)). pose proof (b2z_range (byteAt b 1)).
    pose proof (b2z_range (byteAt b 2)). pose proof (b2z_range (byteAt b 3)). lia.
Qed.

Lemma lowByte_b2z (x : byte) (z : Z) : z mod 256 = b2z x → lowByte z = x.
Proof.
  intros Hz. unfold lowByte. rewrite Hz. unfold b2z.
  rewrite N2Z.id, Byte.of_to_N. reflexivity.
Qed.

Lemma le16_cons2 (x y : byte) (rest : list byte) :
  le16 (x :: y :: rest) 0 = b2z x + 256 * b2z y.
Proof. reflexivity. Qed.

Lemma le32_cons4 (x y z w : byte) (rest : list byte) :
  le32 (x :: y :: z :: w :: rest) 0
  = b2z x + 256 * b2z y + 65536 * b2z z + 16777216 * b2z w.
Proof. reflexivity. Qed.

Lemma le16_putUint16 (v : Z) (rest : list byte) :
  0 ≤ v < 65536 → le16 (putUint16 v ++ rest) 0 = v.
Proof.
  intros Hv. unfold putUint16. cbn [app]. rewrite le16_cons2, !b2z_lowByte.
  rewrite (Z.mod_small (v / 256))
    by (split; [apply Z.div_pos | apply Z.div_lt_upper_bound]; lia).
  pose proof (Z.div_mod v 256 ltac:(lia)). lia.
Qed.

Lemma le32_putUint32 (v : Z) (rest : list byte) :
  0 ≤ v < 4294967296 → le32 (putUint32 v ++ rest) 0 = v.
Proof.
  intros Hv. unfold putUint32. cbn [app]. rewrite le32_cons4, !b2z_lowByte.
  rewrite (Z.mod_small (v / 16777216))
    by (split; [apply Z.div_pos | apply Z.div_lt_upper_bound]; lia).
  pose proof (Z.div_mod v 256 ltac:(lia)) as H1.
  pose proof (Z.div_mod (v / 256) 256 ltac:(lia)) as H2.
  pose proof (Z.div_mod (v / 65536) 256 ltac:(lia)) as H3.
  rewrite (Z.div_div v 256 256) in H2 by lia.
  rewrite (Z.div_div v 65536 256) in H3 by lia.
  change (256 * 256) with 65536 in H2.
  change (65536 * 256) with 16777216 in H3.
  lia.
Qed.

Lemma mod256_add (q r : Z) : 0 ≤ r < 256 → (r + 256 * q) mod 256 = r.
Proof.
  intros Hr. replace (r + 256 * q) with (r + q * 256) by lia.
  rewrite Z.mod_add by lia. apply Z.mod_small. lia.
Qed.

Lemma div_add_small (q r k : Z) : 0 ≤ r < k → (r + k * q) / k = q.
Proof.
  intros Hr. replace (r + k * q) with (r + q * k) by lia.
  rewrite Z.div_add by lia. rewrite Z.div_small by lia. lia.
Qed.

Lemma putUint16_le16 (b : list byte) :
  2 ≤ len b → putUint16 (le16 b 0) = take 2 b.
Proof.
  intros Hb. destruct b as [| x [| y rest]];
    [unfold len in Hb; cbn [length] in Hb; lia .. |].
  rewrite le16_cons2. unfold putUint16. cbn [take].
  pose proof (b2z_range x). pose proof (b2z_range y).
  f_equal; [| f_equal]; apply lowByte_b2z.
  - apply mod256_add. lia.
  - rewrite div_add_small by lia. apply Z.mod_small. lia.
Qed.

Lemma putUint32_le32 (b : list byte) :
  4 ≤ len b → putUint32 (le32 b 0) = take 4 b.
Proof.
  intros Hb.
  destruct b as [| x [| y [| z [| w rest]]]];
    [unfold len in Hb; cbn [length] in Hb; lia .. |].
  rewrite le32_cons4. unfold putUint32. cbn [take].
  pose proof (b2z_range x). pose proof (b2z_range y).
  pose proof (b2z_range z). pose proof (b2z_range w).
  set (X := b2z x) in *. set (Y := b2z y) in *.
  set (Zz := b2z z) in *. set (W := b2z w) in *.
  pose proof div_add_small as Hdiv. pose proof mod256_add as Hmod.
  f_equal; [| f_equal; [| f_equal; [| f_equal]]]; apply lowByte_b2z.
  - replace (X + 256 * Y + 65536 * Zz + 16777216 * W)
      with (X + 256 * (Y + 256 * Zz + 65536 * W)) by lia.
    apply Hmod. lia.
  - replace (X + 256 * Y + 65536 * Zz + 16777216 * W)
      with (X + 256 * (Y + 256 * (Zz + 256 * W))) by lia.
    rewrite Hdiv by lia. apply Hmod. lia.
  - replace (X + 256 * Y + 65536 * Zz + 16777216 * W)
      with ((X + 256 * Y) + 65536 * (Zz + 256 * W)) by lia.
    rewrite Hdiv by lia. apply Hmod. lia.
  - replace (X + 256 * Y + 65536 * Zz + 16777216 * W)
      with ((X + 256 * Y + 65536 * Zz) + 16777216 * W) by lia.
    rewrite Hdiv by lia. apply Z.mod_small. lia.
Qed.

Lemma len_app_ge (a b : list byte) : len a ≤ len (a ++ b).
Proof. rewrite len_app. pose proof (len_nonneg b). lia. Qed.

(** [toUint16] and [toUint32] invert the little-endian layout: they read
    back a value laid out in two or four bytes whatever follows them, and
    the bytes they read are the layout of the value they return. *)
Theorem toUint_little_endian (v16 v32 : Z) (rest : list byte) :
  0 ≤ v16 < 65536 →
  0 ≤ v32 < 4294967296 →
  toUint16 (putUint16 v16 ++ rest) = Ok v16
  ∧ toUint32 (putUint32 v32 ++ rest) = Ok v32
  ∧ (∀ (b : list byte) (v : Z), toUint16 b = Ok v → putUint16 v = take 2 b)
  ∧ (∀ (b : list byte) (v : Z), toUint32 b = Ok v → putUint32 v = take 4 b).
Proof.
  intros H16 H32. repeat split.
  - rewrite toUint16_ok by (pose proof (len_app_ge (putUint16 v16) rest) as Hl;
      change (len (putUint16 v16)) with 2 in Hl; lia).
    rewrite le16_putUint16 by exact H16. reflexivity.
  - rewrite toUint32_ok by (pose proof (len_app_ge (putUint32 v32) rest) as Hl;
      change (len (putUint32 v32)) with 4 in Hl; lia).
    rewrite le32_putUint32 by exact H32. reflexivity.
  - intros b v Hb.
    destruct (Z.lt_ge_cases (len b) 2) as [Hs | Hs].
    + rewrite (toUint16_short b Hs) in Hb. discriminate.
    + rewrite toUint16_ok in Hb by exact Hs. injection Hb as <-.
      apply putUint16_le16. exact Hs.
  - intros b v Hb.
    destruct (Z.lt_ge_cases (len b) 4) as [Hs | Hs].
    + rewrite (toUint32_short b Hs) in Hb. discriminate.
    + rewrite toUint32_ok in Hb by exact Hs. injection Hb as <-.
      apply putUint32_le32. exact Hs.
Qed.

Lemma toUint_little_endian_witness :
  toUint16 (putUint16 0x4b50 ++ []) = Ok 0x4b50
  ∧ toUint32 (putUint32 0x06054b50 ++ []) = Ok 0x06054b50.
Proof.
  destruct (toUint_little_endian 0x4b50 0x06054b50 []) as (H1 & H2 & _);
    [lia | lia |].
  split; [exact H1 | exact H2].
Defined.

(** ** The backward scan on every block *)

(** [findSignatureInBlock] indexes no block out of range: on every block,
    the empty one and those shorter than a trailer among them, it returns
    [-1] or a position at which a whole trailer record lies inside the
    block. *)
Theorem findSignatureInBlock_in_bounds (b : list byte) :
  ∃ p, findSignatureInBlock b = Ok p
       ∧ (p = -1 ∨ 0 ≤ p ≤ len b - directoryEndLen)
       ∧ (len b < directoryEndLen → p = -1).
Proof.
  exists (lastAcceptableIn b). split; [apply findSignatureInBlock_ok |].
  pose proof (lastAcceptable_block b) as Hcases. cbv zeta in Hcases.
  destruct Hcases as [[Hm _] | (Hp & Hacc & _)].
  - split; [left; exact Hm | intros _; exact Hm].
  - apply acceptable_bounds in Hacc. split; [right; lia | lia].
Qed.

(** ** Stores too short to hold a trailer *)

Lemma len_replicate (n : nat) (x : byte) : len (replicate n x) = Z.of_nat n.
Proof. unfold len. rewrite length_replicate. reflexivity. Qed.

Lemma len_readBlock (r : list byte) (n off : Z) :
  0 ≤ n → len (readBlock r n off).1 = n.
Proof.
  intros Hn. unfold readBlock, ReadAt.
  destruct (off <? 0).
  - cbn [fst]. rewrite len_app, len_replicate. unfold len. cbn [length]. lia.
  - cbn [fst]. rewrite len_app, len_replicate.
    unfold len. rewrite length_take. lia.
Qed.

Lemma lastAcceptableIn_short (b : list byte) :
  len b < directoryEndLen → lastAcceptableIn b = -1.
Proof.
  intros Hshort. unfold lastAcceptableIn.
  replace (Z.to_nat (len b - directoryEndLen + 1)) with 0%nat by lia.
  reflexivity.
Qed.

Lemma readDirectoryEnd_short (r : list byte) (size : Z) :
  0 ≤ size < directoryEndLen → readDirectoryEnd r size = Err ErrFormat.
Proof.
  intros Hsize. unfold directoryEndLen in Hsize.
  unfold readDirectoryEnd, readDirectoryEndIn, directoryEndWindows.
  rewrite locateDirectoryEnd_step by lia. cbv zeta.
  destruct (size <? 1024) eqn:E; [| lia].
  rewrite lastAcceptableIn_short
    by (rewrite len_readBlock by lia; unfold directoryEndLen; lia).
  cbn [Z.leb Z.compare]. rewrite Z.eqb_refl, orb_true_r. reflexivity.
Qed.

Lemma readDirectoryEnd_negative (r : list byte) (size : Z) :
  size < 0 → int size < 0 → readDirectoryEnd r size = Panic.
Proof.
  intros Hsize Hint.
  unfold readDirectoryEnd, readDirectoryEndIn, directoryEndWindows.
  cbn [locateDirectoryEnd].
  destruct (size <? 1024) eqn:E; [| lia].
  destruct (int size <? 0) eqn:E0; [reflexivity | lia].
Qed.

Lemma readDirectoryEnd_wrapped (r : list byte) (size : Z) :
  size < 0 → 0 ≤ int size < directoryEndLen →
  readDirectoryEnd r size = Err ErrFormat.
Proof.
  intros Hsize Hint.
  unfold readDirectoryEnd, readDirectoryEndIn, directoryEndWindows.
  cbn [locateDirectoryEnd].
  destruct (size <? 1024) eqn:E; [| lia].
  destruct (int size <? 0) eqn:E0; [lia |].
  pose proof (len_readBlock r (int size) (size - size) ltac:(lia)) as Hlen.
  assert ((readBlock r (int size) (size - size)).2 = None
          ∨ (readBlock r (int size) (size - size)).2 = Some EOF) as Herr.
  { unfold readBlock, ReadAt. replace (size - size) with 0 by lia.
    change (0 <? 0) with false. cbn [snd].
    match goal with
    | |- context [if ?c then Some EOF else None] => destruct c
    end; [right | left]; reflexivity. }
  destruct (readBlock r (int size) (size - size)) as [blk err].
  cbn [fst snd] in Hlen, Herr.
  assert (findSignatureInBlock blk = Ok (-1)) as Hfind
    by (rewrite findSignatureInBlock_ok, lastAcceptableIn_short by lia;
        reflexivity).
  destruct Herr as [-> | ->]; rewrite Hfind; cbn [mbind result_bind];
    change (0 <=? -1) with false; rewrite Z.eqb_refl; reflexivity.
Qed.

(** A store whose stated size is less than the 22 bytes of a trailer, the
    empty store among them, is refused with [ErrFormat] and nothing of it is
    decoded.  With a negative size the block is made with the length
    [int(size)]: where that is negative, as for every size from [-2^31] on,
    [make] panics; where the conversion wraps to a length below 22, as for
    the size [-2^32], the block holds no trailer and the store is refused
    with [ErrFormat]. *)
Theorem NewReader_short_store (r : list byte) (size : Z) :
  (0 ≤ size < directoryEndLen →
   readDirectoryEnd r size = Err ErrFormat
   ∧ NewReader r size = Some (Err ErrFormat))
  ∧ (size < 0 → int size < 0 →
     readDirectoryEnd r size = Panic ∧ NewReader r size = Some Panic)
  ∧ (-2147483648 ≤ size < 0 →
     readDirectoryEnd r size = Panic ∧ NewReader r size = Some Panic)
  ∧ (size < 0 → 0 ≤ int size < directoryEndLen →
     readDirectoryEnd r size = Err ErrFormat
     ∧ NewReader r size = Some (Err ErrFormat))
  ∧ readDirectoryEnd r (-4294967296) = Err ErrFormat
  ∧ NewReader r (-4294967296) = Some (Err ErrFormat).
Proof.
  assert (∀ sz, sz < 0 → int sz < 0 →
            readDirectoryEnd r sz = Panic ∧ NewReader r sz = Some Panic)
    as Hneg.
  { intros sz Hsz Hint. unfold NewReader, init.
    rewrite readDirectoryEnd_negative by assumption. split; reflexivity. }
  assert (∀ sz, sz < 0 → 0 ≤ int sz < directoryEndLen →
            readDirectoryEnd r sz = Err ErrFormat
            ∧ NewReader r sz = Some (Err ErrFormat)) as Hwrap.
  { intros sz Hsz Hint. unfold NewReader, init.
    rewrite readDirectoryEnd_wrapped by assumption. split; reflexivity. }
  split; [| split; [| split; [| split]]].
  - intros Hsize. unfold NewReader, init.
    rewrite readDirectoryEnd_short by exact Hsize. split; reflexivity.
  - intros Hsize Hint. apply Hneg; assumption.
  - intros Hsize. apply Hneg; [lia |]. rewrite int_small by lia. lia.
  - intros Hsize Hint. apply Hwrap; assumption.
  - apply Hwrap; [lia |]. split; [discriminate | reflexivity].
Qed.

(** ** The data-descriptor flag *)

(** [hasDataDescriptor] tests bit 3 of the flags and nothing else. *)
Theorem hasDataDescriptor_bit (f : File) :
  hasDataDescriptor f = Z.testbit (Flags f) 3
  ∧ hasDataDescriptor f = Z.odd (Flags f / 8).
Proof.
  assert (hasDataDescriptor f = Z.testbit (Flags f) 3) as Hbit.
  { unfold hasDataDescriptor.
    destruct (Z.testbit (Flags f) 3) eqn:E.
    - destruct (Z.land (Flags f) 8 =? 0) eqn:E0; [| reflexivity].
      apply Z.eqb_eq in E0.
      assert (Z.testbit (Z.land (Flags f) 8) 3 = true) as Hl
        by (rewrite Z.land_spec, E; reflexivity).
      rewrite E0 in Hl. discriminate Hl.
    - assert (Z.land (Flags f) 8 = 0) as ->; [| reflexivity].
      apply Z.bits_inj'. intros n Hn.
      rewrite Z.land_spec, Z.bits_0.
      change 8 with (2 ^ 3). rewrite Z.pow2_bits_eqb by lia.
      destruct (3 =? n) eqn:E3; [| apply andb_false_r].
      apply Z.eqb_eq in E3. subst n. rewrite E. reflexivity. }
  split; [exact Hbit |].
  rewrite Hbit. rewrite Z.testbit_odd, Z.shiftr_div_pow2 by lia. reflexivity.
Qed.

(** ** What one directory header read returns *)

Lemma sr_advance_advance (s : SectionReader) (j k : Z) :
  sr_advance (sr_advance s j) k = sr_advance s (j + k).
Proof. unfold sr_advance. cbn. f_equal. lia. Qed.

Lemma directoryHeaderTail_take (a : list byte) :
  directoryHeaderTail (take (Z.to_nat directoryHeaderLen) a)
  = le16 a 28 + le16 a 30 + le16 a 32.
Proof.
  unfold directoryHeaderTail, directoryHeaderLen.
  rewrite !le16_take by lia. reflexivity.
Qed.

(** The name, the extra field and the comment of a decoded entry are the
    bytes after the header, cut at the lengths the header announces. *)
Lemma directoryHeaderOf_blocks (f : File) (b d : list byte) :
  len d = directoryHeaderTail b →
  let f' := directoryHeaderOf f b d in
  Name f' ++ Extra f' ++ Comment f' = d
  ∧ len (Name f') = le16 b 28
  ∧ len (Extra f') = le16 b 30
  ∧ len (Comment f') = le16 b 32.
Proof.
  intros Hd. cbv zeta. unfold directoryHeaderTail in Hd.
  pose proof (le16_range b 28) as H28. pose proof (le16_range b 30) as H30.
  pose proof (le16_range b 32) as H32.
  cbn [directoryHeaderOf Name Extra Comment].
  repeat split.
  - rewrite Z2Nat.inj_add by lia. rewrite <- drop_drop.
    rewrite (take_drop (Z.to_nat (le16 b 30))), take_drop. reflexivity.
  - apply len_take. lia.
  - rewrite len_take; [reflexivity |]. rewrite len_drop by lia. lia.
  - rewrite len_drop by lia. lia.
Qed.

(** [readDirectoryHeader], outcome by outcome, on the bytes [a] its reader
    can still deliver.  With nothing left it returns [io.EOF]; so it does
    when exactly the 46 bytes of a header are left and the header announces
    a name, extra field or comment.  A header cut short is
    [io.ErrUnexpectedEOF], another signature is [ErrFormat], and a complete
    record is decoded and consumed to its last byte. *)
Theorem readDirectoryHeader_outcomes (f : File) (s : SectionReader) :
  0 ≤ sr_off s →
  let a := sr_remaining s in
  let n := le16 a 28 + le16 a 30 + le16 a 32 in
  (len a = 0 → readDirectoryHeader f s = (Err EOF, s))
  ∧ (0 < len a < directoryHeaderLen →
     (readDirectoryHeader f s).1 = Err ErrUnexpectedEOF)
  ∧ (directoryHeaderLen ≤ len a → le32 a 0 ≠ directoryHeaderSignature →
     (readDirectoryHeader f s).1 = Err ErrFormat)
  ∧ (directoryHeaderLen ≤ len a → le32 a 0 = directoryHeaderSignature →
     (len a = directoryHeaderLen → 0 < n →
      (readDirectoryHeader f s).1 = Err EOF)
     ∧ (directoryHeaderLen < len a < directoryHeaderLen + n →
        (readDirectoryHeader f s).1 = Err ErrUnexpectedEOF)
     ∧ (directoryHeaderLen + n ≤ len a →
        ∃ f',
          readDirectoryHeader f s
          = (Ok f', sr_advance s (directoryHeaderLen + n))
          ∧ f' = directoryHeaderOf f (take (Z.to_nat directoryHeaderLen) a)
                   (take (Z.to_nat n) (drop (Z.to_nat directoryHeaderLen) a))
          ∧ Name f' ++ Extra f' ++ Comment f'
            = take (Z.to_nat n) (drop (Z.to_nat directoryHeaderLen) a)
          ∧ len (Name f') = le16 a 28
          ∧ len (Extra f') = le16 a 30
          ∧ len (Comment f') = le16 a 32)).
Proof.
  intros Hoff. cbv zeta.
  pose proof (readDirectoryHeader_spec f s Hoff) as Hspec. cbv zeta in Hspec.
  rewrite directoryHeaderTail_take in Hspec.
  set (a := sr_remaining s) in *.
  set (n := le16 a 28 + le16 a 30 + le16 a 32) in *.
  assert (0 ≤ n) as Hn.
  { subst n. pose proof (le16_range a 28). pose proof (le16_range a 30).
    pose proof (le16_range a 32). lia. }
  assert (le32 (take (Z.to_nat directoryHeaderLen) a) 0 = le32 a 0) as Hsig
    by (unfold directoryHeaderLen; apply le32_take; lia).
  rewrite Hsig in Hspec.
  pose proof (len_nonneg a) as Ha.
  unfold directoryHeaderLen in *.
  repeat split.
  - intros H0. rewrite Hspec.
    destruct (46 <=? len a) eqn:E1; [lia |].
    destruct (0 <? len a) eqn:E2; [lia | reflexivity].
  - intros H0. rewrite Hspec.
    destruct (46 <=? len a) eqn:E1; [lia |].
    destruct (0 <? len a) eqn:E2; [reflexivity | lia].
  - intros H0 Hne. rewrite Hspec.
    destruct (46 <=? len a) eqn:E1; [| lia].
    destruct (le32 a 0 =? directoryHeaderSignature) eqn:E2; [lia | reflexivity].
  - intros Hlen Hpos. rewrite Hspec.
    destruct (46 <=? len a) eqn:E1; [| lia].
    destruct (le32 a 0 =? directoryHeaderSignature) eqn:E2; [| lia].
    rewrite len_drop by lia.
    destruct (n <=? len a - 46) eqn:E3; [lia |].
    destruct (0 <? len a - 46) eqn:E4; [lia | reflexivity].
  - intros Hlen. rewrite Hspec.
    destruct (46 <=? len a) eqn:E1; [| lia].
    destruct (le32 a 0 =? directoryHeaderSignature) eqn:E2; [| lia].
    rewrite len_drop by lia.
    destruct (n <=? len a - 46) eqn:E3; [lia |].
    destruct (0 <? len a - 46) eqn:E4; [reflexivity | lia].
  - intros Hlen. rewrite Hspec.
    destruct (46 <=? len a) eqn:E1; [| lia].
    destruct (le32 a 0 =? directoryHeaderSignature) eqn:E2; [| lia].
    rewrite len_drop by lia.
    destruct (n <=? len a - 46) eqn:E3; [| lia].
    eexists. split; [rewrite sr_advance_advance; reflexivity |].
    split; [reflexivity |].
    pose proof (directoryHeaderOf_blocks f (take (Z.to_nat 46) a)
                  (take (Z.to_nat n) (drop (Z.to_nat 46) a))) as Hblocks.
    cbv zeta in Hblocks.
    pose proof (directoryHeaderTail_take a) as Htail.
    unfold directoryHeaderLen in Htail. rewrite Htail in Hblocks. fold n in Hblocks.
    rewrite !le16_take in Hblocks by lia.
    apply Hblocks. apply len_take. rewrite len_drop by lia. lia.
Qed.

Lemma readDirectoryHeader_outcomes_witness :
  (readDirectoryHeader (newFile sampleArchive 375)
     (directoryReader sampleArchive 375 353)).1 = Err ErrUnexpectedEOF.
Proof.
  destruct (readDirectoryHeader_outcomes (newFile sampleArchive 375)
              (directoryReader sampleArchive 375 353)) as (_ & Hshort & _).
  - vm_compute. intros Hc. discriminate Hc.
  - apply Hshort. vm_compute. split; reflexivity.
Defined.

(** ** What [NewReader] returns *)

Lemma readDirectoryHeader_decodedEntry (r : list byte) (size : Z)
    (s s' : SectionReader) (f : File) :
  0 ≤ sr_off s →
  readDirectoryHeader (newFile r size) s = (Ok f, s') →
  decodedEntry r size f
  ∧ ∃ k, s' = sr_advance s k ∧ directoryHeaderLen ≤ k ≤ len (sr_remaining s).
Proof.
  intros Hoff Hread.
  pose proof (readDirectoryHeader_spec (newFile r size) s Hoff) as Hspec.
  cbv zeta in Hspec. rewrite Hread in Hspec.
  set (a := sr_remaining s) in *.
  set (b := take (Z.to_nat directoryHeaderLen) a) in *.
  set (rest := drop (Z.to_nat directoryHeaderLen) a) in *.
  pose proof (le16_range b 28) as H28. pose proof (le16_range b 30) as H30.
  pose proof (le16_range b 32) as H32.
  destruct (directoryHeaderLen <=? len a) eqn:E1;
    [| destruct (0 <? len a); discriminate Hspec].
  destruct (le32 b 0 =? directoryHeaderSignature); [| discriminate Hspec].
  destruct (directoryHeaderTail b <=? len rest) eqn:E2;
    [| destruct (0 <? len rest); discriminate Hspec].
  injection Hspec as -> ->.
  assert (len rest = len a - directoryHeaderLen) as Hrest
    by (subst rest; apply len_drop; unfold directoryHeaderLen in *;
        pose proof (len_nonneg a); lia).
  assert (0 ≤ directoryHeaderTail b) as Htail
    by (unfold directoryHeaderTail; lia).
  split.
  - pose proof (directoryHeaderOf_blocks (newFile r size) b
                  (take (Z.to_nat (directoryHeaderTail b)) rest)) as Hblocks.
    cbv zeta in Hblocks.
    destruct Hblocks as (_ & Hn & He & Hc); [apply len_take; lia |].
    unfold decodedEntry. rewrite Hn, He, Hc.
    cbn [directoryHeaderOf newFile zipr zipsize CreatorVersion ReaderVersion
         Flags Method ModifiedTime ModifiedDate CRC32 CompressedSize
         UncompressedSize ExternalAttrs headerOffset].
    pose proof (le16_range b 4). pose proof (le16_range b 6).
    pose proof (le16_range b 8). pose proof (le16_range b 10).
    pose proof (le16_range b 12). pose proof (le16_range b 14).
    pose proof (le32_range b 16). pose proof (le32_range b 20).
    pose proof (le32_range b 24). pose proof (le32_range b 38).
    pose proof (le32_range b 42).
    repeat split; lia.
  - exists (directoryHeaderLen + directoryHeaderTail b).
    split; [apply sr_advance_advance |]. lia.
Qed.

Lemma directoryOf_decodedEntry (r : list byte) (size : Z) (s : SectionReader)
    (fs : list File) (e : error) :
  directoryOf r size s fs e → 0 ≤ sr_off s →
  Forall (decodedEntry r size) fs
  ∧ directoryHeaderLen * Z.of_nat (length fs) ≤ len (sr_remaining s).
Proof.
  induction 1 as [s s' e Hstop | s s' f fs e Hread Hdir IH]; intros Hoff.
  - split; [constructor |]. cbn [length]. pose proof (len_nonneg (sr_remaining s)). lia.
  - destruct (readDirectoryHeader_decodedEntry r size s s' f Hoff Hread)
      as (Hf & k & -> & Hk).
    destruct IH as (Hfs & Hlen); [cbn; unfold directoryHeaderLen in Hk; lia |].
    split; [constructor; assumption |].
    rewrite sr_remaining_advance in Hlen by (unfold directoryHeaderLen in Hk; lia).
    rewrite len_drop in Hlen by (unfold directoryHeaderLen in Hk; lia).
    cbn [length]. lia.
Qed.

Lemma len_sr_remaining (s : SectionReader) :
  sr_off s ≤ sr_limit s → len (sr_remaining s) ≤ sr_limit s - sr_off s.
Proof.
  intros Hle. unfold sr_remaining, len. rewrite length_take. lia.
Qed.

(** What a successful [init] went through: the trailer it found, a
    directory offset inside the store, and a directory whose entries are
    those returned and whose count agrees with the trailer modulo 65536. *)
Lemma init_Ok_inv (r : list byte) (size : Z) (rd : Reader) :
  init r size = Some (Ok rd) →
  ∃ d fs e,
    readDirectoryEnd r size = Ok d
    ∧ 0 ≤ directoryOffset d ≤ size
    ∧ directoryOf r size (directoryReader r size (directoryOffset d)) fs e
    ∧ rd = {| rd_r := r; rd_File := fs; rd_Comment := comment d |}
    ∧ Z.of_nat (length fs) mod 65536 = directoryRecords d.
Proof.
  unfold init. destruct (readDirectoryEnd r size) as [d | |] eqn:Hend;
    [| discriminate ..].
  intros Hdir.
  assert (0 ≤ directoryOffset d ≤ size) as Hrange.
  { revert Hdir. unfold readDirectory, SectionReader_Seek, NewSectionReader.
    cbn [sr_base sr_limit].
    destruct (directoryOffset d + 0 <? 0) eqn:E1; [discriminate |].
    destruct (0 + size <? directoryOffset d + 0) eqn:E2; [discriminate |].
    intros _. lia. }
  destruct (directoryOf_total r size
              (directoryReader r size (directoryOffset d)))
    as (fs & e & Hof & He & _); [cbn; lia |].
  rewrite (readDirectory_spec r size d fs e Hrange Hof) in Hdir.
  exists d, fs, e. split; [reflexivity |]. split; [exact Hrange |].
  split; [exact Hof |].
  unfold uint16 in Hdir.
  destruct He as [-> | [-> | ->]]; cbn [exitOn] in Hdir; try discriminate Hdir;
    destruct (Z.of_nat (length fs) mod 65536 =? directoryRecords d) eqn:E;
    try discriminate Hdir;
    injection Hdir as <-; (split; [reflexivity | lia]).
Qed.

Lemma init_entries_decoded (r : list byte) (size : Z) (rd : Reader) :
  init r size = Some (Ok rd) →
  Forall (decodedEntry r size) (rd_File rd)
  ∧ directoryHeaderLen * Z.of_nat (length (rd_File rd)) ≤ size.
Proof.
  intros Hinit.
  destruct (init_Ok_inv r size rd Hinit) as (d & fs & e & _ & Hoff & Hof & -> & _).
  cbn [rd_File].
  destruct (directoryOf_decodedEntry r size _ fs e Hof) as (Hfs & Hlen);
    [cbn; lia |].
  split; [exact Hfs |].
  pose proof (len_sr_remaining (directoryReader r size (directoryOffset d))) as Hrem.
  cbn [directoryReader sr_off sr_limit] in Hrem. lia.
Qed.

(** Every entry [NewReader] returns names the store and the size it was
    given and holds fields that fit their widths, and the entries are no
    more than the bytes between the directory offset and the end of the
    store can hold at 46 bytes each. *)
Theorem NewReader_entries (r : list byte) (size : Z) (rd : Reader) :
  NewReader r size = Some (Ok rd) →
  rd_r rd = r
  ∧ Forall (decodedEntry r size) (rd_File rd)
  ∧ directoryHeaderLen * Z.of_nat (length (rd_File rd)) ≤ size.
Proof.
  unfold NewReader. intros Hinit.
  split; [| apply init_entries_decoded; exact Hinit].
  destruct (init_Ok_inv r size rd Hinit) as (d & fs & e & _ & _ & _ & -> & _).
  reflexivity.
Qed.

Lemma NewReader_entries_witness :
  rd_r {| rd_r := sampleArchive; rd_File := sampleEntries; rd_Comment := [] |}
  = sampleArchive
  ∧ Forall (decodedEntry sampleArchive 375) sampleEntries
  ∧ directoryHeaderLen * Z.of_nat (length sampleEntries) ≤ 375.
Proof.
  apply (NewReader_entries sampleArchive 375
           {| rd_r := sampleArchive; rd_File := sampleEntries; rd_Comment := [] |}).
  vm_compute. reflexivity.
Defined.

(** ** A directory offset past the end of the store *)

(** When the trailer names a directory offset beyond the size of the
    store, [init] returns the error of [Seek] and reads no header. *)
Theorem directory_offset_past_store (r : list byte) (size : Z)
    (d : directoryEnd) :
  readDirectoryEnd r size = Ok d →
  size < directoryOffset d →
  NewReader r size = Some (Err EINVAL).
Proof.
  intros Hend Hpast. unfold NewReader, init. rewrite Hend.
  unfold readDirectory, SectionReader_Seek, NewSectionReader.
  cbn [sr_base sr_limit].
  destruct (0 + size <? directoryOffset d + 0) eqn:E; [| lia].
  rewrite orb_true_r. reflexivity.
Qed.

Lemma directory_offset_past_store_witness :
  NewReader pastOffsetArchive 22 = Some (Err EINVAL).
Proof.
  apply (directory_offset_past_store pastOffsetArchive 22
           (directoryEndAt pastOffsetArchive 0)).
  - vm_compute. reflexivity.
  - vm_compute. reflexivity.
Defined.

(** ** The archive comment *)

Lemma acceptable_fields (b : list byte) (p : Z) :
  acceptable b p = true →
  0 ≤ p
  ∧ le32 b p = directoryEndSignature
  ∧ p + directoryEndLen + le16 b (p + 20) = len b.
Proof.
  unfold acceptable. intros Hacc.
  repeat (apply andb_prop in Hacc; destruct Hacc as [Hacc ?]).
  repeat match goal with
         | H : Byte.eqb _ _ = true |- _ => apply Byte.byte_dec_bl in H
         end.
  split; [lia |]. split; [| lia].
  unfold le32.
  repeat match goal with H : byteAt _ _ = _ |- _ => rewrite H; clear H end.
  reflexivity.
Qed.

(** The comment of an opened archive is the end of the store: the 22 bytes
    before it are a trailer that starts with the trailer signature and
    announces the length of the comment, and the number of entries returned
    agrees modulo 65536 with the count that trailer declares. *)
Theorem NewReader_comment (r : list byte) (rd : Reader) :
  NewReader r (len r) = Some (Ok rd) →
  let c := rd_Comment rd in
  let p := len r - len c - directoryEndLen in
  0 ≤ p
  ∧ len c < 65536
  ∧ drop (Z.to_nat (p + directoryEndLen)) r = c
  ∧ le32 r p = directoryEndSignature
  ∧ le16 r (p + 20) = len c
  ∧ Z.of_nat (length (rd_File rd)) mod 65536 = le16 r (p + 10).
Proof.
  unfold NewReader. intros Hinit. cbv zeta.
  destruct (init_Ok_inv r (len r) rd Hinit)
    as (d & fs & e & Hend & _ & _ & -> & Hcount).
  cbn [rd_Comment rd_File].
  rewrite readDirectoryEnd_scanWholeStore in Hend. unfold scanWholeStore in Hend.
  destruct (0 <=? lastAcceptableIn r) eqn:Epos; [| discriminate Hend].
  injection Hend as <-.
  pose proof (lastAcceptable_block r) as Hcases. cbv zeta in Hcases.
  set (q := lastAcceptableIn r) in *.
  destruct Hcases as [[Hm _] | (Hq & Hacc & _)]; [lia |].
  destruct (acceptable_fields r q Hacc) as (_ & Hsig & Hfit).
  pose proof (le16_range r (q + 20)) as Hn.
  unfold directoryEndLen in *.
  assert (comment (directoryEndAt r q) = drop (Z.to_nat (q + 22)) r) as Hc.
  { cbn [directoryEndAt comment]. apply take_ge.
    pose proof (len_drop r (q + 22) ltac:(lia)) as Hd. unfold len in Hd, Hfit. lia. }
  assert (len (comment (directoryEndAt r q)) = le16 r (q + 20)) as Hlen
    by (rewrite Hc, len_drop by lia; lia).
  rewrite Hlen.
  replace (len r - le16 r (q + 20) - 22) with q by lia.
  cbn [directoryEndAt directoryRecords] in Hcount.
  repeat split; try lia; try assumption.
  symmetry. exact Hc.
Qed.

Lemma NewReader_comment_witness :
  0 ≤ len sampleArchive - len (@nil byte) - directoryEndLen
  ∧ len (@nil byte) < 65536
  ∧ drop (Z.to_nat (len sampleArchive - len (@nil byte) - directoryEndLen
                    + directoryEndLen)) sampleArchive = []
  ∧ le32 sampleArchive (len sampleArchive - len (@nil byte) - directoryEndLen)
    = directoryEndSignature
  ∧ le16 sampleArchive
      (len sampleArchive - len (@nil byte) - directoryEndLen + 20)
    = len (@nil byte)
  ∧ Z.of_nat (length sampleEntries) mod 65536
    = le16 sampleArchive
        (len sampleArchive - len (@nil byte) - directoryEndLen + 10).
Proof.
  apply (NewReader_comment sampleArchive
           {| rd_r := sampleArchive; rd_File := sampleEntries; rd_Comment := [] |}).
  vm_compute. reflexivity.
Defined.

(** ** What [Open] returns *)

Lemma sr_remaining_NewSectionReader (r : list byte) (off n : Z) :
  sr_remaining (NewSectionReader r off n)
  = take (Z.to_nat n) (drop (Z.to_nat off) r).
Proof.
  unfold sr_remaining, NewSectionReader. cbn [sr_limit sr_off sr_r].
  replace (off + n - off) with n by lia. reflexivity.
Qed.

Section OpenProperties.
Context {H F : Type} `{!Crc32 H} `{!Flate F}.

(** [Open] returns a reader or an error, never both and never neither, and
    it does not panic.  The local header is looked at first: with the store
    ending at the header offset the error is [io.EOF], with fewer than 30
    bytes from there [io.ErrUnexpectedEOF], with another signature
    [ErrFormat]; only then is the method looked at, and a method other than
    [Store] and [Deflate] is [ErrAlgorithm]. *)
Theorem Open_reader_or_error (f : File) :
  0 ≤ headerOffset f →
  let a := take (Z.to_nat (zipsize f - headerOffset f))
             (drop (Z.to_nat (headerOffset f)) (zipr f)) in
  (len a = 0 → @Open H F _ _ f = Ok (None, Some EOF))
  ∧ (0 < len a < fileHeaderLen →
     @Open H F _ _ f = Ok (None, Some ErrUnexpectedEOF))
  ∧ (fileHeaderLen ≤ len a → le32 a 0 ≠ fileHeaderSignature →
     @Open H F _ _ f = Ok (None, Some ErrFormat))
  ∧ (fileHeaderLen ≤ len a → le32 a 0 = fileHeaderSignature →
     Method f ≠ Store → Method f ≠ Deflate →
     @Open H F _ _ f = Ok (None, Some ErrAlgorithm))
  ∧ (fileHeaderLen ≤ len a → le32 a 0 = fileHeaderSignature →
     Method f = Store ∨ Method f = Deflate →
     ∃ rc, @Open H F _ _ f = Ok (Some rc, None))
  ∧ (∃ rc err, @Open H F _ _ f = Ok (rc, err)
               ∧ (rc = None ↔ err ≠ None)).
Proof.
  intros Hoff. cbv zeta.
  pose proof (findBodyOffset_general f Hoff) as Hbody. cbv zeta in Hbody.
  rewrite sr_remaining_NewSectionReader in Hbody.
  set (a := take (Z.to_nat (zipsize f - headerOffset f))
              (drop (Z.to_nat (headerOffset f)) (zipr f))) in *.
  pose proof (len_nonneg a) as Ha.
  unfold Open. rewrite Hbody. unfold fileHeaderLen, Store, Deflate.
  destruct (30 <=? len a) eqn:E1.
  - destruct (le32 a 0 =? fileHeaderSignature) eqn:E2.
    + destruct (Method f =? 0) eqn:E3; [| destruct (Method f =? 8) eqn:E4].
      * repeat split; try (intros; lia);
          try (intros; eexists; reflexivity).
        eexists _, _. split; [reflexivity |].
        split; [discriminate | intros Hc; exfalso; apply Hc; reflexivity].
      * repeat split; try (intros; lia);
          try (intros; eexists; reflexivity).
        eexists _, _. split; [reflexivity |].
        split; [discriminate | intros Hc; exfalso; apply Hc; reflexivity].
      * repeat split; try (intros; lia); try reflexivity.
        eexists _, _. split; [reflexivity |].
        split; [discriminate | reflexivity].
    + repeat split; try (intros; lia); try reflexivity.
      eexists _, _. split; [reflexivity |]. split; [discriminate | reflexivity].
  - destruct (0 <? len a) eqn:E2.
    + repeat split; try (intros; lia); try reflexivity.
      eexists _, _. split; [reflexivity |]. split; [discriminate | reflexivity].
    + repeat split; try (intros; lia); try reflexivity.
      eexists _, _. split; [reflexivity |]. split; [discriminate | reflexivity].
Qed.

End OpenProperties.

Lemma Open_reader_or_error_witness :
  @Open Z storedInflater _ _ entryD = Ok (None, Some ErrAlgorithm).
Proof.
  destruct (@Open_reader_or_error Z storedInflater _ _ entryD)
    as (_ & _ & _ & Halg & _).
  - vm_compute. intros Hc. discriminate Hc.
  - apply Halg.
    + vm_compute. intros Hc. discriminate Hc.
    + vm_compute. reflexivity.
    + vm_compute. intros Hc. discriminate Hc.
    + vm_compute. intros Hc. discriminate Hc.
Defined.

(** ** Reading a stored entry to its end *)

(** One [Read] of a section reader, by the bytes it can still deliver: it
    delivers the first [n] of them, and reports the end of the input when
    there are none or when the store ends before the limit and before [n]
    bytes. *)
Lemma SectionReader_Read_spec (s : SectionReader) (n : Z) :
  0 ≤ sr_off s → 0 < n →
  let a := sr_remaining s in
  ∃ err,
    SectionReader_Read s n
    = (take (Z.to_nat n) a, err, sr_advance s (len (take (Z.to_nat n) a)))
    ∧ (err = None ∨ err = Some EOF)
    ∧ (err = Some EOF → take (Z.to_nat n) a = a)
    ∧ (err = None → a ≠ []).
Proof.
  intros Hoff Hn. cbv zeta. unfold SectionReader_Read.
  destruct (sr_limit s <=? sr_off s) eqn:Elim.
  - assert (sr_remaining s = []) as ->.
    { unfold sr_remaining.
      replace (Z.to_nat (sr_limit s - sr_off s)) with 0%nat by lia.
      apply take_0. }
    exists (Some EOF). rewrite take_nil. change (len []) with 0.
    rewrite sr_advance_0. repeat split; [right; reflexivity | discriminate].
  - unfold ReadAt. destruct (sr_off s <? 0) eqn:Eneg; [lia |].
    set (max := sr_limit s - sr_off s).
    set (n' := if max <? n then max else n).
    set (l := drop (Z.to_nat (sr_off s)) (sr_r s)).
    assert (0 < n' ≤ n ∧ n' ≤ max) as Hn'
      by (subst n' max; destruct (sr_limit s - sr_off s <? n) eqn:E; lia).
    assert (sr_remaining s = take (Z.to_nat max) l) as Hrem by reflexivity.
    assert (take (Z.to_nat n) (sr_remaining s) = take (Z.to_nat n') l) as Htake.
    { rewrite Hrem, take_take. f_equal. subst n' max.
      destruct (sr_limit s - sr_off s <? n) eqn:E; lia. }
    rewrite Htake.
    destruct (len (take (Z.to_nat n') l) <? n') eqn:Eshort.
    + exists (Some EOF). split; [reflexivity |].
      split; [right; reflexivity |]. split; [| discriminate].
      intros _. apply Z.ltb_lt in Eshort.
      unfold len in Eshort. rewrite length_take in Eshort.
      rewrite Hrem. rewrite !take_ge by lia. reflexivity.
    + exists None. split; [reflexivity |].
      split; [left; reflexivity |]. split; [discriminate |].
      intros _ Hnil. apply Z.ltb_ge in Eshort.
      rewrite Hrem in Hnil.
      unfold len in Eshort. rewrite length_take in Eshort.
      apply (f_equal length) in Hnil. rewrite length_take in Hnil.
      cbn [length] in Hnil. lia.
Qed.

Section StoredBody.
Context {H F : Type} `{!Crc32 H} `{!Flate F}.

(** Writing to the checksum in two pieces is writing the two pieces at
    once. *)
Hypothesis hash_Write_app :
  ∀ (h : H) (a b : list byte),
    hash_Write (hash_Write h a) b = hash_Write h (a ++ b).

Lemma drain_stored (f : File) (n : Z) (fuel : nat) :
  0 < n → hasDataDescriptor f = false →
  ∀ (s : SectionReader) (h : H) (acc : list byte),
    0 ≤ sr_off s →
    (length (sr_remaining s) < fuel)%nat →
    @drain H F _ _ fuel n
      {| cr_rc := NopCloser; cr_hash := h; cr_zipr := s |} f acc
    = Some (Ok (acc ++ sr_remaining s,
                if hash_Sum32 (hash_Write h (sr_remaining s)) =? CRC32 f
                then EOF else ErrChecksum), f).
Proof.
  intros Hn Hflag.
  induction fuel as [| fuel IH]; intros s h acc Hoff Hfuel; [lia |].
  cbn [drain]. unfold Read. cbn [cr_rc cr_zipr cr_hash rc_Read].
  destruct (SectionReader_Read_spec s n Hoff Hn) as (err & -> & Herr & Hall & Hsome).
  set (a := sr_remaining s) in *.
  destruct Herr as [-> | ->].
  - rewrite IH.
    + rewrite sr_remaining_advance
        by (try exact Hoff; apply len_nonneg).
      fold a.
      assert (Z.to_nat (len (take (Z.to_nat n) a)) = length (take (Z.to_nat n) a))
        as -> by (unfold len; lia).
      rewrite hash_Write_app.
      assert (take (Z.to_nat n) a
              ++ drop (length (take (Z.to_nat n) a)) a = a) as Hsplit.
      { rewrite length_take.
        destruct (Nat.le_gt_cases (Z.to_nat n) (length a)) as [Hle | Hgt].
        - rewrite Nat.min_l by exact Hle. apply take_drop.
        - rewrite Nat.min_r by lia. rewrite take_ge, drop_all by lia.
          apply app_nil_r. }
      rewrite <- app_assoc, Hsplit. reflexivity.
    + cbn [sr_advance sr_off]. pose proof (len_nonneg (take (Z.to_nat n) a)). lia.
    + rewrite sr_remaining_advance
        by (try exact Hoff; apply len_nonneg).
      fold a. rewrite length_drop.
      assert (a ≠ []) as Hne by (apply Hsome; reflexivity).
      destruct a as [| x a']; [congruence |].
      unfold len. rewrite length_take. cbn [length] in *. lia.
  - rewrite Hflag. rewrite (Hall eq_refl).
    destruct (hash_Sum32 (hash_Write h a) =? CRC32 f); reflexivity.
Qed.

(** A stored entry without the data-descriptor flag, read to its end with
    buffers of any length above zero: the bytes delivered are those of the
    store from the end of the local header on, as many as the compressed
    size says (fewer when the store ends before), and the error that ends
    the reading is [io.EOF] when their CRC-32 is that of the entry and
    [ErrChecksum] when it is not.  The entry is not changed. *)
Theorem stored_entry_reads_body (f : File) (bodyOffset n : Z) (fuel : nat) :
  findBodyOffset f = Ok bodyOffset →
  Method f = Store →
  hasDataDescriptor f = false →
  0 ≤ headerOffset f →
  0 < n →
  let body := take (Z.to_nat (CompressedSize f))
                (drop (Z.to_nat (headerOffset f + bodyOffset)) (zipr f)) in
  (length body < fuel)%nat →
  ∃ rc,
    @Open H F _ _ f = Ok (Some rc, None)
    ∧ drain fuel n rc f []
      = Some (Ok (body,
                  if hash_Sum32 (hash_Write crc32_NewIEEE body) =? CRC32 f
                  then EOF else ErrChecksum), f).
Proof.
  intros Hbody Hmethod Hflag Hoff Hn. cbv zeta. intros Hfuel.
  assert (0 ≤ bodyOffset) as Hpos.
  { rewrite findBodyOffset_general in Hbody by exact Hoff. cbv zeta in Hbody.
    destruct (fileHeaderLen <=? _); [| destruct (0 <? _); discriminate Hbody].
    destruct (_ =? fileHeaderSignature); [| discriminate Hbody].
    injection Hbody as <-.
    match goal with
    | |- 0 ≤ _ + le16 ?a 26 + le16 ?a 28 =>
        pose proof (le16_range a 26); pose proof (le16_range a 28)
    end.
    unfold fileHeaderLen. lia. }
  unfold Open. rewrite Hbody, Hmethod. cbn [Z.eqb Store].
  eexists. split; [reflexivity |].
  assert (sr_remaining (bodySection f bodyOffset)
          = take (Z.to_nat (CompressedSize f))
              (drop (Z.to_nat (headerOffset f + bodyOffset)) (zipr f))) as Hrem.
  { unfold bodySection. rewrite Hflag, andb_false_r.
    apply sr_remaining_NewSectionReader. }
  rewrite drain_stored; [rewrite Hrem; reflexivity | exact Hn | exact Hflag | |].
  - unfold bodySection, NewSectionReader. cbn [sr_off]. lia.
  - rewrite Hrem. exact Hfuel.
Qed.

(** For an entry without the data-descriptor flag, whatever its method and
    whatever the decompressor does: when reading to the end finishes with
    [io.EOF], the CRC-32 of all the bytes the reads delivered is the CRC-32
    of the entry.  The entry is not changed. *)
Theorem drain_EOF_checksum (f : File) (n : Z) (fuel : nat)
    (r : @checksumReader H F) (acc out : list byte) (e : error) (f' : File) :
  hasDataDescriptor f = false →
  drain fuel n r f acc = Some (Ok (out, e), f') →
  f' = f
  ∧ ∃ data,
      out = acc ++ data
      ∧ (e = EOF → hash_Sum32 (hash_Write (cr_hash r) data) = CRC32 f).
Proof.
  intros Hflag. revert r acc.
  induction fuel as [| fuel IH]; intros r acc Hdrain; [discriminate Hdrain |].
  cbn [drain] in Hdrain. unfold Read in Hdrain.
  destruct (rc_Read (cr_rc r) (cr_zipr r) n) as [[[data err] rc] zr].
  rewrite Hflag in Hdrain.
  destruct err as [err |].
  - assert (∀ e0 : error, e0 ≠ EOF →
              Some (Ok (acc ++ data, e0), f) = Some (Ok (out, e), f') →
              f' = f ∧ ∃ data0, out = acc ++ data0
                ∧ (e = EOF →
                   hash_Sum32 (hash_Write (cr_hash r) data0) = CRC32 f))
      as Hother.
    { intros e0 Hne Heq. injection Heq as <- <- <-.
      split; [reflexivity |]. exists data. split; [reflexivity |].
      intros Hc. congruence. }
    destruct err; try (refine (Hother _ _ Hdrain); discriminate).
    destruct (hash_Sum32 (hash_Write (cr_hash r) data) =? CRC32 f) eqn:Esum;
      cbn [negb] in Hdrain.
    + injection Hdrain as <- <- <-. split; [reflexivity |].
      exists data. split; [reflexivity |]. intros _. lia.
    + refine (Hother ErrChecksum _ Hdrain). discriminate.
  - apply IH in Hdrain. destruct Hdrain as (-> & data' & -> & Hsum).
    split; [reflexivity |]. exists (data ++ data').
    split; [symmetry; apply app_assoc |].
    intros He. cbn [cr_hash] in Hsum. rewrite <- hash_Write_app. auto.
Qed.

End StoredBody.

Lemma crc32_update_app (h : Z) (a b : list byte) :
  crc32_update (crc32_update h a) b = crc32_update h (a ++ b).
Proof.
  unfold crc32_update. rewrite fold_left_app. f_equal. f_equal.
  rewrite Z.lxor_assoc, Z.lxor_nilpotent, Z.lxor_0_r. reflexivity.
Qed.

Lemma stored_entry_reads_body_witness :
  ∃ rc,
    @Open Z storedInflater _ _ entryA = Ok (Some rc, None)
    ∧ drain 6 2 rc entryA []
      = Some (Ok (take (Z.to_nat (CompressedSize entryA))
                    (drop (Z.to_nat (headerOffset entryA + 31)) (zipr entryA)),
                  if hash_Sum32
                       (hash_Write crc32_NewIEEE
                          (take (Z.to_nat (CompressedSize entryA))
                             (drop (Z.to_nat (headerOffset entryA + 31))
                                (zipr entryA))))
                     =? CRC32 entryA
                  then EOF else ErrChecksum), entryA).
Proof.
  apply (@stored_entry_reads_body Z storedInflater crc32_ieee
           storedInflater_flate crc32_update_app
           entryA 31 2 6).
  - vm_compute. reflexivity.
  - vm_compute. reflexivity.
  - vm_compute. reflexivity.
  - vm_compute. intros Hc. discriminate Hc.
  - lia.
  - vm_compute. lia.
Defined.

Lemma drain_EOF_checksum_witness :
  entryA = entryA
  ∧ ∃ data,
      ["h"; "e"; "l"; "l"; "o"]%byte = [] ++ data
      ∧ (EOF = EOF → hash_Sum32 (hash_Write (cr_hash readerA) data) = CRC32 entryA).
Proof.
  apply (@drain_EOF_checksum Z storedInflater crc32_ieee
           storedInflater_flate crc32_update_app
           entryA 16 10 readerA [] ["h"; "e"; "l"; "l"; "o"]%byte EOF entryA).
  - vm_compute. reflexivity.
  - vm_compute. reflexivity.
Defined.

(** ** The local header parser *)

Lemma fileHeaderFields_ok (f : File) (b : list byte) :
  len b = fileHeaderLen →
  fileHeaderFields f b = Ok (fileHeaderFixed f b, le16 b 26, le16 b 28).
Proof.
  unfold fileHeaderLen. intros Hb. unfold fileHeaderFields.
  rewrite !toUint16_from, !toUint32_from by lia. reflexivity.
Qed.

Lemma readFileHeader_spec (f : File) (s : SectionReader) :
  0 ≤ sr_off s →
  readFileHeader f s =
    let a := sr_remaining s in
    let rest := drop (Z.to_nat fileHeaderLen) a in
    let n := le16 a 26 + le16 a 28 in
    let s1 := sr_advance s fileHeaderLen in
    let f1 := fileHeaderFixed f a in
    if fileHeaderLen <=? len a then
      if le32 a 0 =? fileHeaderSignature then
        if n <=? len rest
        then (Ok tt,
              withName f1 (take (Z.to_nat (le16 a 26)) rest)
                (take (Z.to_nat (le16 a 28)) (drop (Z.to_nat (le16 a 26)) rest)),
              sr_advance s (fileHeaderLen + n))
        else if 0 <? len rest
             then (Err ErrUnexpectedEOF, f1, sr_advance s1 (len rest))
             else (Err EOF, f1, s1)
      else (Err ErrFormat, f, s1)
    else if 0 <? len a
         then (Err ErrUnexpectedEOF, f, sr_advance s (len a))
         else (Err EOF, f, s).
Proof.
  intros Hoff. cbv zeta. unfold readFileHeader.
  rewrite ReadFull_spec by (unfold fileHeaderLen; lia).
  set (a := sr_remaining s) in *.
  destruct (fileHeaderLen <=? len a) eqn:Elen.
  2: { destruct (0 <? len a); reflexivity. }
  set (b := take (Z.to_nat fileHeaderLen) a).
  assert (len b = 30) as Hb.
  { subst b. apply len_take. unfold fileHeaderLen in *.
    pose proof (len_nonneg a). lia. }
  rewrite toUint32_ok by lia.
  assert (le32 b 0 = le32 a 0) as ->
    by (apply le32_take; unfold fileHeaderLen; lia).
  destruct (le32 a 0 =? fileHeaderSignature); cbn [negb]; [| reflexivity].
  rewrite fileHeaderFields_ok by exact Hb.
  assert (fileHeaderFixed f b = fileHeaderFixed f a) as ->.
  { unfold fileHeaderFixed. subst b. unfold fileHeaderLen.
    rewrite !le16_take, !le32_take by lia. reflexivity. }
  assert (le16 b 26 = le16 a 26) as ->
    by (apply le16_take; unfold fileHeaderLen; lia).
  assert (le16 b 28 = le16 a 28) as ->
    by (apply le16_take; unfold fileHeaderLen; lia).
  pose proof (le16_range a 26) as H26. pose proof (le16_range a 28) as H28.
  assert (0 ≤ sr_off (sr_advance s fileHeaderLen)) as Hoff1
    by (cbn; unfold fileHeaderLen; lia).
  rewrite ReadFull_spec by lia.
  rewrite sr_remaining_advance by (unfold fileHeaderLen; lia).
  fold a. set (rest := drop (Z.to_nat fileHeaderLen) a).
  set (n := le16 a 26 + le16 a 28).
  destruct (n <=? len rest) eqn:En.
  2: { destruct (0 <? len rest); reflexivity. }
  set (d := take (Z.to_nat n) rest).
  assert (len d = n) as Hd by (subst d; apply len_take; lia).
  rewrite slice_ok by lia. unfold sliceFrom.
  destruct (le16 a 26 <? 0) eqn:E1; [lia |].
  destruct (len d <? le16 a 26) eqn:E2; [lia |].
  cbn [orb]. rewrite sr_advance_advance.
  change (Z.to_nat 0) with 0%nat. rewrite drop_0.
  replace (le16 a 26 - 0) with (le16 a 26) by lia.
  f_equal. f_equal. f_equal.
  - subst d. rewrite take_take. f_equal. lia.
  - subst d n. rewrite Z2Nat.inj_add by lia.
    rewrite <- take_drop_commute. reflexivity.
Qed.

(** [readFileHeader] against [findBodyOffset], both on the local header of
    the entry [f].  Where [findBodyOffset] fails, [readFileHeader] fails
    with the same error and leaves the entry as it was.  Where it returns
    an offset, [readFileHeader] has consumed exactly that many bytes when it
    returns without error, and then the name and the extra field are the
    bytes between the header and that offset.  When the store ends before
    the offset, [readFileHeader] fails with an end-of-input error after it
    has assigned the fixed fields: the entry keeps its old name and extra
    field beside the new versions, flags, method, times, CRC-32 and
    sizes. *)
Theorem readFileHeader_findBodyOffset (f : File) :
  0 ≤ headerOffset f →
  let s := NewSectionReader (zipr f) (headerOffset f)
             (zipsize f - headerOffset f) in
  let a := take (Z.to_nat (zipsize f - headerOffset f))
             (drop (Z.to_nat (headerOffset f)) (zipr f)) in
  (∀ e, findBodyOffset f = Err e → (readFileHeader f s).1 = (Err e, f))
  ∧ (∀ k, findBodyOffset f = Ok k → len a < k →
       ((readFileHeader f s).1.1 = Err EOF
        ∨ (readFileHeader f s).1.1 = Err ErrUnexpectedEOF)
       ∧ (readFileHeader f s).1.2 = fileHeaderFixed f a)
  ∧ (∀ k, findBodyOffset f = Ok k → k ≤ len a →
       ∃ f',
         readFileHeader f s = (Ok tt, f', sr_advance s k)
         ∧ Name f' ++ Extra f'
           = take (Z.to_nat (k - fileHeaderLen)) (drop (Z.to_nat fileHeaderLen) a)
         ∧ fileHeaderLen + len (Name f') + len (Extra f') = k
         ∧ withName f' (Name f) (Extra f) = fileHeaderFixed f a).
Proof.
  intros Hoff. cbv zeta.
  pose proof (findBodyOffset_general f Hoff) as Hbody. cbv zeta in Hbody.
  pose proof (readFileHeader_spec f
                (NewSectionReader (zipr f) (headerOffset f)
                   (zipsize f - headerOffset f)) Hoff) as Hread.
  cbv zeta in Hread.
  rewrite sr_remaining_NewSectionReader in Hbody, Hread.
  set (s := NewSectionReader _ _ _) in *.
  set (a := take (Z.to_nat (zipsize f - headerOffset f))
              (drop (Z.to_nat (headerOffset f)) (zipr f))) in *.
  pose proof (len_nonneg a) as Ha.
  pose proof (le16_range a 26) as H26. pose proof (le16_range a 28) as H28.
  rewrite Hbody, Hread. clear Hbody Hread.
  unfold fileHeaderLen.
  destruct (30 <=? len a) eqn:E1.
  2: { split; [| split].
       - intros e He. destruct (0 <? len a); injection He as <-; reflexivity.
       - intros k Hk. destruct (0 <? len a); discriminate Hk.
       - intros k Hk. destruct (0 <? len a); discriminate Hk. }
  destruct (le32 a 0 =? fileHeaderSignature).
  2: { split; [| split].
       - intros e He. injection He as <-. reflexivity.
       - intros k Hk. discriminate Hk.
       - intros k Hk. discriminate Hk. }
  rewrite len_drop by lia.
  split; [| split].
  - intros e He. discriminate He.
  - intros k Hk Hshort. injection Hk as <-.
    destruct (le16 a 26 + le16 a 28 <=? len a - 30) eqn:E2; [lia |].
    destruct (0 <? len a - 30); (split; [| reflexivity]);
      [right | left]; reflexivity.
  - intros k Hk Hfit. injection Hk as <-.
    destruct (le16 a 26 + le16 a 28 <=? len a - 30) eqn:E2; [| lia].
    eexists. split; [do 2 f_equal; lia |].
    cbn [withName Name Extra].
    set (rest := drop (Z.to_nat 30) a).
    assert (len rest = len a - 30) as Hrest by (subst rest; apply len_drop; lia).
    split; [| split].
    + replace (30 + le16 a 26 + le16 a 28 - 30) with (le16 a 26 + le16 a 28) by lia.
      rewrite Z2Nat.inj_add by lia.
      rewrite <- (take_take_drop rest (Z.to_nat (le16 a 26)) (Z.to_nat (le16 a 28))).
      reflexivity.
    + rewrite !len_take; [lia | | lia].
      rewrite len_drop by lia. lia.
    + reflexivity.
Qed.

(** ** Writing a directory and reading it back *)

Lemma le16_value (v : Z) :
  0 ≤ v < 65536 → v mod 256 + 256 * ((v / 256) mod 256) = v.
Proof.
  intros Hv.
  rewrite (Z.mod_small (v / 256))
    by (split; [apply Z.div_pos | apply Z.div_lt_upper_bound]; lia).
  pose proof (Z.div_mod v 256 ltac:(lia)). lia.
Qed.

Lemma le32_value (v : Z) :
  0 ≤ v < 4294967296 →
  v mod 256 + 256 * ((v / 256) mod 256) + 65536 * ((v / 65536) mod 256)
  + 16777216 * ((v / 16777216) mod 256) = v.
Proof.
  intros Hv.
  rewrite (Z.mod_small (v / 16777216))
    by (split; [apply Z.div_pos | apply Z.div_lt_upper_bound]; lia).
  pose proof (Z.div_mod v 256 ltac:(lia)) as H1.
  pose proof (Z.div_mod (v / 256) 256 ltac:(lia)) as H2.
  pose proof (Z.div_mod (v / 65536) 256 ltac:(lia)) as H3.
  rewrite (Z.div_div v 256 256) in H2 by lia.
  rewrite (Z.div_div v 65536 256) in H3 by lia.
  change (256 * 256) with 65536 in H2.
  change (65536 * 256) with 16777216 in H3.
  lia.
Qed.

(** Reading the fields of a list whose spine is known. *)
Ltac read_fields :=
  unfold le16, le32, byteAt;
  repeat match goal with
         | |- context [Z.to_nat ?e] =>
             let v := eval vm_compute in (Z.to_nat e) in
             progress change (Z.to_nat e) with v
         end;
  cbn [lookup list_lookup default]; unfold id;
  rewrite ?b2z_lowByte.

Lemma directoryHeaderOf_record (f0 f : File) :
  decodedEntry (zipr f) (zipsize f) f →
  directoryHeaderOf f0 (directoryHeaderBytes f)
    (Name f ++ Extra f ++ Comment f)
  = atStore (zipr f0) (zipsize f0) f
  ∧ le32 (directoryHeaderBytes f) 0 = directoryHeaderSignature
  ∧ directoryHeaderTail (directoryHeaderBytes f)
    = len (Name f) + len (Extra f) + len (Comment f).
Proof.
  intros (_ & _ & H16 & H32 & Hlen).
  pose proof (len_nonneg (Name f)) as Hn. pose proof (len_nonneg (Extra f)) as He.
  pose proof (len_nonneg (Comment f)) as Hc.
  assert (le16 (directoryHeaderBytes f) 28 = len (Name f)) as H28
    by (unfold directoryHeaderBytes, putUint16, putUint32; cbn [app];
        read_fields; apply le16_value; lia).
  assert (le16 (directoryHeaderBytes f) 30 = len (Extra f)) as H30
    by (unfold directoryHeaderBytes, putUint16, putUint32; cbn [app];
        read_fields; apply le16_value; lia).
  assert (le16 (directoryHeaderBytes f) 32 = len (Comment f)) as H32'
    by (unfold directoryHeaderBytes, putUint16, putUint32; cbn [app];
        read_fields; apply le16_value; lia).
  split; [| split].
  - unfold directoryHeaderOf, atStore. rewrite H28, H30.
    f_equal;
      try (unfold directoryHeaderBytes, putUint16, putUint32; cbn [app];
           read_fields; first [apply le16_value | apply le32_value]; lia).
    + unfold len. rewrite Nat2Z.id. apply take_app_length.
    + unfold len. rewrite !Nat2Z.id. rewrite drop_app_length.
      apply take_app_length.
    + unfold len. rewrite <- Nat2Z.inj_add, Nat2Z.id.
      rewrite app_assoc, <- length_app. apply drop_app_length.
  - reflexivity.
  - unfold directoryHeaderTail. rewrite H28, H30, H32'. reflexivity.
Qed.

Lemma len_directoryHeaderBytes (f : File) : len (directoryHeaderBytes f) = 46.
Proof. reflexivity. Qed.

Lemma len_directoryRecord (f : File) :
  len (directoryRecord f)
  = 46 + len (Name f) + len (Extra f) + len (Comment f).
Proof.
  unfold directoryRecord. rewrite !len_app, len_directoryHeaderBytes. lia.
Qed.

Lemma readDirectoryHeader_directoryRecord (f0 f : File) (s : SectionReader)
    (rest : list byte) :
  decodedEntry (zipr f) (zipsize f) f →
  0 ≤ sr_off s →
  sr_remaining s = directoryRecord f ++ rest →
  readDirectoryHeader f0 s
  = (Ok (atStore (zipr f0) (zipsize f0) f),
     sr_advance s (len (directoryRecord f)))
  ∧ sr_remaining (sr_advance s (len (directoryRecord f))) = rest.
Proof.
  intros Hf Hoff Hrem.
  destruct (directoryHeaderOf_record f0 f Hf) as (Hdec & Hsig & Htail).
  pose proof (len_nonneg (Name f)) as Hn. pose proof (len_nonneg (Extra f)) as He.
  pose proof (len_nonneg (Comment f)) as Hc.
  pose proof (len_nonneg rest) as Hr.
  split.
  - rewrite readDirectoryHeader_spec by exact Hoff. cbv zeta.
    rewrite Hrem. unfold directoryRecord. rewrite <- !app_assoc.
    change (Z.to_nat directoryHeaderLen) with (length (directoryHeaderBytes f)).
    rewrite take_app_length, drop_app_length.
    rewrite Hsig, Htail, Z.eqb_refl.
    rewrite !len_app, len_directoryHeaderBytes. unfold directoryHeaderLen.
    destruct (46 <=? _) eqn:E1; [| lia].
    match goal with
    | |- (if ?c then _ else _) = _ => destruct c eqn:E2; [| lia]
    end.
    rewrite sr_advance_advance. f_equal; [| f_equal; lia].
    f_equal. rewrite <- Hdec. f_equal.
    rewrite (app_assoc (Name f)), (app_assoc (Name f ++ Extra f)).
    replace (Z.to_nat (len (Name f) + len (Extra f) + len (Comment f)))
      with (length ((Name f ++ Extra f) ++ Comment f))
      by (rewrite !length_app; unfold len; lia).
    rewrite take_app_length. rewrite <- app_assoc. reflexivity.
  - rewrite sr_remaining_advance by (try exact Hoff; apply len_nonneg).
    rewrite Hrem. unfold len. rewrite Nat2Z.id. apply drop_app_length.
Qed.

(** [readDirectoryHeader] reads back the record of an entry: from a reader
    whose next bytes are the record of [f] it returns [f], as an entry of
    the store the new entry names, and has consumed the record and nothing
    after it. *)
Theorem readDirectoryHeader_round_trip (f0 f : File) (s : SectionReader)
    (rest : list byte) :
  decodedEntry (zipr f) (zipsize f) f →
  0 ≤ sr_off s →
  sr_remaining s = directoryRecord f ++ rest →
  readDirectoryHeader f0 s
  = (Ok (atStore (zipr f0) (zipsize f0) f),
     sr_advance s (len (directoryRecord f)))
  ∧ sr_remaining (sr_advance s (len (directoryRecord f))) = rest.
Proof. exact (readDirectoryHeader_directoryRecord f0 f s rest). Qed.

Lemma records_directoryOf (r : list byte) (size : Z) (fs : list File)
    (tail : list byte) :
  Forall fieldsFit fs →
  0 < len tail < 46 →
  ∀ s : SectionReader,
    0 ≤ sr_off s →
    sr_remaining s = concat (map directoryRecord fs) ++ tail →
    directoryOf r size s (map (atStore r size) fs) ErrUnexpectedEOF.
Proof.
  intros Hfs Htail. induction Hfs as [| f fs Hf Hfs IH]; intros s Hoff Hrem.
  - cbn in Hrem. eapply directory_stop.
    rewrite readDirectoryHeader_spec by exact Hoff. cbv zeta.
    rewrite Hrem. unfold directoryHeaderLen.
    destruct (46 <=? len tail) eqn:E1; [lia |].
    destruct (0 <? len tail) eqn:E2; [reflexivity | lia].
  - cbn [map concat] in Hrem. rewrite <- app_assoc in Hrem.
    destruct (readDirectoryHeader_directoryRecord (newFile r size) f s _ Hf Hoff Hrem)
      as (Hread & Hnext).
    cbn [map]. eapply directory_entry; [exact Hread |].
    apply IH; [| exact Hnext].
    cbn [sr_advance sr_off]. pose proof (len_nonneg (directoryRecord f)). lia.
Qed.

Lemma directoryEndBytes_fields (d : directoryEnd) :
  0 ≤ directoryRecords d < 65536 →
  0 ≤ directoryOffset d < 4294967296 →
  acceptable (directoryEndBytes d) 0 = true
  ∧ directoryRecords (directoryEndAt (directoryEndBytes d) 0) = directoryRecords d
  ∧ directoryOffset (directoryEndAt (directoryEndBytes d) 0) = directoryOffset d
  ∧ comment (directoryEndAt (directoryEndBytes d) 0) = [].
Proof.
  intros Hrec Hoff. repeat split.
  - cbn [directoryEndAt directoryRecords].
    unfold directoryEndBytes, putUint16, putUint32. cbn [app].
    read_fields. apply le16_value. lia.
  - cbn [directoryEndAt directoryOffset].
    unfold directoryEndBytes, putUint16, putUint32. cbn [app].
    read_fields. apply le32_value. lia.
Qed.

Lemma lastAcceptableIn_end (r t : list byte) :
  len t = directoryEndLen → acceptable t 0 = true →
  lastAcceptableIn (r ++ t) = len r
  ∧ directoryEndAt (r ++ t) (len r) = directoryEndAt t 0.
Proof.
  intros Hlen Hacc. pose proof (len_nonneg r) as Hr.
  unfold directoryEndLen in Hlen.
  assert (drop (Z.to_nat (len r)) (r ++ t) = t) as Hdrop
    by (unfold len; rewrite Nat2Z.id; apply drop_app_length).
  split.
  - apply lastAcceptableIn_unique.
    + rewrite <- (Z.add_0_r (len r)).
      rewrite <- acceptable_drop by (rewrite ?len_app; lia).
      rewrite Hdrop. exact Hacc.
    + intros q Hq. apply acceptable_bounds in Hq. rewrite len_app in Hq.
      unfold directoryEndLen in Hq. lia.
  - rewrite <- (Z.add_0_r (len r)).
    rewrite <- directoryEndAt_window by lia.
    rewrite Hdrop. reflexivity.
Qed.

Lemma written_directory_opens (pre : list byte) (fs : list File)
    (d : directoryEnd) :
  let r := pre ++ concat (map directoryRecord fs) ++ directoryEndBytes d in
  Forall fieldsFit fs →
  directoryOffset d = len pre →
  len pre < 4294967296 →
  directoryRecords d = Z.of_nat (length fs) mod 65536 →
  init r (len r)
  = Some (Ok {| rd_r := r; rd_File := map (atStore r (len r)) fs;
                rd_Comment := [] |}).
Proof.
  cbv zeta. intros Hfs Hoff Hpre Hcount.
  set (dir := concat (map directoryRecord fs)).
  set (r := pre ++ dir ++ directoryEndBytes d).
  pose proof (len_nonneg pre) as Hp. pose proof (len_nonneg dir) as Hd.
  assert (0 ≤ directoryRecords d < 65536) as Hrec
    by (rewrite Hcount; apply Z.mod_pos_bound; lia).
  destruct (directoryEndBytes_fields d Hrec ltac:(lia))
    as (Hacc & Hrecords & Hoffset & Hcomment).
  destruct (lastAcceptableIn_end (pre ++ dir) (directoryEndBytes d)
              eq_refl Hacc) as (Hlast & Hat).
  rewrite <- app_assoc in Hlast, Hat. fold r in Hlast, Hat.
  assert (len r = len pre + len dir + 22) as Hlen
    by (subst r; rewrite !len_app;
        change (len (directoryEndBytes d)) with 22; lia).
  unfold init.
  rewrite readDirectoryEnd_scanWholeStore. unfold scanWholeStore.
  rewrite Hlast, Hat.
  destruct (0 <=? len (pre ++ dir)) eqn:E;
    [| pose proof (len_nonneg (pre ++ dir)); lia].
  rewrite (readDirectory_spec r (len r) _
             (map (atStore r (len r)) fs) ErrUnexpectedEOF).
  - cbn [exitOn]. rewrite Hrecords, Hcomment, length_map.
    unfold uint16. rewrite <- Hcount, Z.eqb_refl. reflexivity.
  - rewrite Hoffset, Hoff. lia.
  - rewrite Hoffset, Hoff.
    apply (records_directoryOf r (len r) fs (directoryEndBytes d) Hfs).
    + change (len (directoryEndBytes d)) with 22. lia.
    + cbn. lia.
    + unfold sr_remaining, directoryReader. cbn [sr_limit sr_off sr_r].
      assert (drop (Z.to_nat (len pre)) r = dir ++ directoryEndBytes d) as ->
        by (subst r; unfold len; rewrite Nat2Z.id; apply drop_app_length).
      apply take_ge.
      pose proof (len_app dir (directoryEndBytes d)) as Hl.
      change (len (directoryEndBytes d)) with 22 in Hl.
      fold dir. unfold len in Hl, Hlen. unfold len. lia.
Qed.

(** A directory written record by record after any bytes [pre], and closed
    by a trailer without comment that names its offset and declares its
    count modulo 65536, is read back entry by entry: [NewReader] returns the
    entries written, in their order, as entries of the store.  The disk
    numbers, the count for this disk and the directory size of the trailer
    play no part. *)
Theorem NewReader_round_trip (pre : list byte) (fs : list File)
    (d : directoryEnd) :
  let r := pre ++ concat (map directoryRecord fs) ++ directoryEndBytes d in
  Forall fieldsFit fs →
  directoryOffset d = len pre →
  len pre < 4294967296 →
  directoryRecords d = Z.of_nat (length fs) mod 65536 →
  NewReader r (len r)
  = Some (Ok {| rd_r := r; rd_File := map (atStore r (len r)) fs;
                rd_Comment := [] |}).
Proof. exact (written_directory_opens pre fs d). Qed.

(** ** Archives in files *)

Lemma init_returns (r : list byte) :
  (∃ rd, init r (len r) = Some (Ok rd)) ∨ (∃ e, init r (len r) = Some (Err e)).
Proof.
  unfold init. rewrite readDirectoryEnd_scanWholeStore.
  unfold scanWholeStore.
  destruct (0 <=? lastAcceptableIn r); [| right; eexists; reflexivity].
  set (d := directoryEndAt r (lastAcceptableIn r)).
  assert (0 ≤ directoryOffset d) as Hpos.
  { subst d. cbn [directoryOffset directoryEndAt].
    pose proof (le32_range r (lastAcceptableIn r + 16)) as Hr. lia. }
  destruct (Z.le_gt_cases (directoryOffset d) (len r)) as [Hle | Hgt].
  - destruct (directoryOf_total r (len r)
                (directoryReader r (len r) (directoryOffset d)))
      as (fs & e & Hdir & He & _); [exact Hpos |].
    rewrite (readDirectory_spec r (len r) d fs e (conj Hpos Hle) Hdir).
    destruct He as [-> | [-> | ->]]; cbn [exitOn];
      try (right; eexists; reflexivity);
      destruct (uint16 (Z.of_nat (length fs)) =? directoryRecords d);
      [left | right | left | right]; eexists; reflexivity.
  - unfold readDirectory, SectionReader_Seek, NewSectionReader.
    cbn [sr_base sr_limit].
    destruct (directoryOffset d + 0 <? 0) eqn:E1; [lia |].
    destruct (0 + len r <? directoryOffset d + 0) eqn:E2; [| lia].
    cbn [orb]. right. eexists. reflexivity.
Qed.

(** [OpenReader] leaves a file open only when it returns a reader.  A name
    that is not there is the error of [os.Open] and changes nothing.  For a
    file that is there, the table of open files is afterwards as before when
    [Stat] or [init] fails, and holds the file once more, under the
    descriptor of the reader returned, when [init] succeeds; the reader is
    the one [NewReader] returns on the bytes of the file, and closing it
    brings the table back. *)
Theorem OpenReader_closes_on_failure (name : list byte) (w : World) :
  match w_files w name with
  | None => OpenReader name w = Some (OsFailed ENOENT, w)
  | Some file =>
      ∃ res w',
        OpenReader name w = Some (res, w')
        ∧ w_files w' = w_files w
        ∧ match file_statError file with
          | Some e => res = OsFailed e ∧ w_open w' = w_open w
          | None =>
              match NewReader (file_data file) (len (file_data file)) with
              | Some (Ok rd) =>
                  res = Opened {| rc_f := w_next w; rc_Reader := rd |}
                  ∧ w_open w' = (w_next w, file) :: w_open w
                  ∧ (zipReadCloser_Close {| rc_f := w_next w; rc_Reader := rd |} w').1
                    = None
                  ∧ w_open (zipReadCloser_Close
                              {| rc_f := w_next w; rc_Reader := rd |} w').2
                    = w_open w
              | Some (Err e) => res = InitFailed e ∧ w_open w' = w_open w
              | _ => False
              end
          end
  end.
Proof.
  unfold OpenReader, os_Open.
  destruct (w_files w name) as [file |] eqn:Hfile; [| reflexivity].
  unfold File_Stat, File_bytes, File_Close, zipReadCloser_Close.
  cbn [w_open lookupFd w_files w_next]. rewrite Nat.eqb_refl.
  destruct (file_statError file) as [e |] eqn:Hstat.
  - cbn [removeFd]. rewrite Nat.eqb_refl.
    eexists _, _. split; [reflexivity |]. cbn. split; [reflexivity |].
    split; reflexivity.
  - unfold NewReader.
    destruct (init_returns (file_data file)) as [[rd Hinit] | [e Hinit]];
      rewrite Hinit.
    + eexists _, _. split; [reflexivity |]. cbn [w_files w_open].
      split; [reflexivity |]. split; [reflexivity |]. split; [reflexivity |].
      unfold File_Close. cbn [rc_f w_open lookupFd].
      rewrite Nat.eqb_refl. cbn [fst snd w_open removeFd].
      rewrite Nat.eqb_refl. split; reflexivity.
    + cbn [removeFd]. rewrite Nat.eqb_refl.
      eexists _, _. split; [reflexivity |]. cbn. split; [reflexivity |].
      split; reflexivity.
Qed.

(** ** Stored bodies behind their local records *)

Lemma fileHeaderBytes_fields (f : File) :
  len (Name f) < 65536 → len (Extra f) < 65536 →
  len (fileHeaderBytes f) = 30
  ∧ le32 (fileHeaderBytes f) 0 = fileHeaderSignature
  ∧ le16 (fileHeaderBytes f) 26 = len (Name f)
  ∧ le16 (fileHeaderBytes f) 28 = len (Extra f).
Proof.
  intros Hn He.
  pose proof (len_nonneg (Name f)). pose proof (len_nonneg (Extra f)).
  repeat split;
    unfold fileHeaderBytes, putUint16, putUint32; cbn [app];
    read_fields; apply le16_value; lia.
Qed.

Lemma le32_app_l (a b : list byte) (i : Z) :
  0 ≤ i → i + 4 ≤ len a → le32 (a ++ b) i = le32 a i.
Proof.
  intros Hi Ha. unfold le32. rewrite !byteAt_app_l by lia. reflexivity.
Qed.

Lemma le16_app_l (a b : list byte) (i : Z) :
  0 ≤ i → i + 2 ≤ len a → le16 (a ++ b) i = le16 a i.
Proof.
  intros Hi Ha. unfold le16. rewrite !byteAt_app_l by lia. reflexivity.
Qed.

(** What [findBodyOffset] finds for an entry whose local record lies at its
    header offset. *)
Lemma findBodyOffset_localRecord (f : File) (pre post data : list byte) :
  zipr f = pre ++ localRecord f data ++ post →
  zipsize f = len (zipr f) →
  headerOffset f = len pre →
  len (Name f) < 65536 → len (Extra f) < 65536 →
  findBodyOffset f = Ok (fileHeaderLen + len (Name f) + len (Extra f))
  ∧ drop (Z.to_nat (headerOffset f + (fileHeaderLen + len (Name f) + len (Extra f))))
      (zipr f)
    = data ++ post.
Proof.
  intros Hr Hsize Hoff Hn He.
  destruct (fileHeaderBytes_fields f Hn He) as (Hlen & Hsig & H26 & H28).
  pose proof (len_nonneg pre) as Hpre.
  assert (drop (Z.to_nat (headerOffset f)) (zipr f) = localRecord f data ++ post)
    as Hdrop.
  { rewrite Hr, Hoff. unfold len. rewrite Nat2Z.id. apply drop_app_length. }
  split.
  - rewrite findBodyOffset_general by lia. cbv zeta.
    rewrite sr_remaining_NewSectionReader.
    rewrite Hdrop.
    rewrite take_ge.
    2: { rewrite Hsize. rewrite Hr at 1. rewrite len_app, Hoff.
         unfold len. lia. }
    unfold localRecord. rewrite <- !app_assoc.
    rewrite len_app, Hlen.
    rewrite le32_app_l, !le16_app_l by lia.
    rewrite Hsig, H26, H28, Z.eqb_refl.
    unfold fileHeaderLen.
    destruct (30 <=? _) eqn:E; [reflexivity |].
    pose proof (len_nonneg (Name f ++ Extra f ++ data ++ post)). lia.
  - pose proof (len_nonneg (Name f)). pose proof (len_nonneg (Extra f)).
    unfold fileHeaderLen.
    replace (Z.to_nat (headerOffset f + (30 + len (Name f) + len (Extra f))))
      with (Z.to_nat (headerOffset f)
            + length (fileHeaderBytes f ++ Name f ++ Extra f))%nat.
    2: { rewrite !length_app. unfold len in *. lia. }
    rewrite <- drop_drop, Hdrop. unfold localRecord.
    assert ((fileHeaderBytes f ++ Name f ++ Extra f ++ data) ++ post
            = (fileHeaderBytes f ++ Name f ++ Extra f) ++ data ++ post) as ->
      by (rewrite <- !app_assoc; reflexivity).
    apply drop_app_length.
Qed.

Section StoredRecords.
Context {H F : Type} `{!Crc32 H} `{!Flate F}.

Hypothesis hash_Write_app :
  ∀ (h : H) (a b : list byte),
    hash_Write (hash_Write h a) b = hash_Write h (a ++ b).

Lemma localRecord_drains (f : File) (pre post data : list byte)
    (n : Z) (fuel : nat) :
  zipr f = pre ++ localRecord f data ++ post →
  zipsize f = len (zipr f) →
  headerOffset f = len pre →
  len (Name f) < 65536 → len (Extra f) < 65536 →
  Method f = Store →
  hasDataDescriptor f = false →
  CompressedSize f = len data →
  CRC32 f = hash_Sum32 (hash_Write crc32_NewIEEE data) →
  0 < n → (length data < fuel)%nat →
  ∃ rc,
    @Open H F _ _ f = Ok (Some rc, None)
    ∧ drain fuel n rc f [] = Some (Ok (data, EOF), f).
Proof.
  intros Hr Hsize Hoff Hn He Hmethod Hflag Hcsize Hcrc Hpos Hfuel.
  destruct (findBodyOffset_localRecord f pre post data Hr Hsize Hoff Hn He)
    as (Hbody & Hdrop).
  unfold Open. rewrite Hbody, Hmethod. cbn [Z.eqb Store].
  eexists. split; [reflexivity |].
  assert (sr_remaining
            (bodySection f (fileHeaderLen + len (Name f) + len (Extra f)))
          = data) as Hrem.
  { unfold bodySection. rewrite Hflag, andb_false_r.
    rewrite sr_remaining_NewSectionReader, Hdrop, Hcsize.
    unfold len. rewrite Nat2Z.id. apply take_app_length. }
  rewrite (drain_stored hash_Write_app f n fuel Hpos Hflag).
  - rewrite Hrem, <- Hcrc, Z.eqb_refl. reflexivity.
  - unfold bodySection, NewSectionReader. cbn [sr_off].
    pose proof (len_nonneg pre). pose proof (len_nonneg (Name f)).
    pose proof (len_nonneg (Extra f)). unfold fileHeaderLen. lia.
  - rewrite Hrem. exact Hfuel.
Qed.

(** An entry that names the place of a local record with a stored body,
    and the length and the CRC-32 of that body, reads the body back: [Open]
    returns a reader, and reading it to the end with buffers of any length
    delivers the body and ends with [io.EOF]. *)
Theorem stored_record_round_trip (f : File) (pre post data : list byte)
    (n : Z) (fuel : nat) :
  zipr f = pre ++ localRecord f data ++ post →
  zipsize f = len (zipr f) →
  headerOffset f = len pre →
  len (Name f) < 65536 → len (Extra f) < 65536 →
  Method f = Store →
  hasDataDescriptor f = false →
  CompressedSize f = len data →
  CRC32 f = hash_Sum32 (hash_Write crc32_NewIEEE data) →
  0 < n → (length data < fuel)%nat →
  ∃ rc,
    @Open H F _ _ f = Ok (Some rc, None)
    ∧ drain fuel n rc f [] = Some (Ok (data, EOF), f).
Proof. exact (localRecord_drains f pre post data n fuel). Qed.

End StoredRecords.

(** ** Writing stored files and reading them back *)

Section WriteStored.
Context {H F : Type} `{!Crc32 H} `{!Flate F}.

Hypothesis hash_Write_app :
  ∀ (h : H) (a b : list byte),
    hash_Write (hash_Write h a) b = hash_Write h (a ++ b).

Lemma localRecord_storedFile (name data : list byte) (off : Z)
    (r : list byte) (size : Z) :
  localRecord (atStore r size (storedFile name data off)) data
  = localRecord (storedFile name data 0) data.
Proof. reflexivity. Qed.

Lemma storedFiles_length (es : list (list byte * list byte)) (off : Z) :
  length (storedFiles off es) = length es.
Proof.
  revert off. induction es as [| e es IH]; intros off; [reflexivity |].
  cbn [storedFiles length]. rewrite IH. reflexivity.
Qed.

Lemma storedFiles_names (es : list (list byte * list byte)) (off : Z) :
  map Name (storedFiles off es) = map fst es.
Proof.
  revert off. induction es as [| e es IH]; intros off; [reflexivity |].
  cbn [storedFiles map]. rewrite IH. reflexivity.
Qed.

Lemma storedFiles_lookup (es : list (list byte * list byte)) :
  ∀ (off : Z) (i : nat) (f : File) (e : list byte * list byte),
    storedFiles off es !! i = Some f → es !! i = Some e →
    ∃ p q,
      storedLocals es = p ++ localRecord (storedFile e.1 e.2 0) e.2 ++ q
      ∧ f = storedFile e.1 e.2 (off + len p).
Proof.
  induction es as [| e0 es IH]; intros off i f e Hf He; [discriminate He |].
  destruct i as [| i].
  - cbn in Hf, He. injection Hf as <-. injection He as <-.
    exists [], (storedLocals es). split; [reflexivity |].
    change (len []) with 0. rewrite Z.add_0_r. reflexivity.
  - cbn [storedFiles] in Hf. cbn in He.
    change ((?x :: ?l) !! S i) with (l !! i) in Hf.
    destruct (IH _ i f e Hf He) as (p & q & Hl & ->).
    exists (localRecord (storedFile e0.1 e0.2 0) e0.2 ++ p), q.
    split.
    + cbn [storedLocals]. rewrite Hl, <- app_assoc. reflexivity.
    + rewrite len_app. f_equal.
      change (localRecord (storedFile e0.1 e0.2 off) e0.2)
        with (localRecord (storedFile e0.1 e0.2 0) e0.2).
      lia.
Qed.

Lemma storedFiles_fieldsFit (es : list (list byte * list byte)) :
  Forall storable es →
  ∀ off : Z,
    0 ≤ off → off + len (storedLocals es) < 4294967296 →
    Forall fieldsFit (storedFiles off es).
Proof.
  induction 1 as [| e es (Hname & Hdata & Hcrc) Hes IH]; intros off Hoff Hend;
    [constructor |].
  cbn [storedFiles storedLocals] in *. rewrite len_app in Hend.
  pose proof (len_nonneg (storedLocals es)) as Hl.
  pose proof (len_nonneg (localRecord (storedFile e.1 e.2 0) e.2)) as Hrec.
  constructor.
  - pose proof (len_nonneg e.1). pose proof (len_nonneg e.2).
    unfold fieldsFit, decodedEntry, storedFile, Store.
    cbn [zipr zipsize CreatorVersion ReaderVersion Flags Method ModifiedTime
         ModifiedDate CRC32 CompressedSize UncompressedSize ExternalAttrs
         headerOffset Name Extra Comment].
    change (len []) with 0.
    repeat split; lia.
  - apply IH.
    + change (localRecord (storedFile e.1 e.2 off) e.2)
        with (localRecord (storedFile e.1 e.2 0) e.2). lia.
    + change (localRecord (storedFile e.1 e.2 off) e.2)
        with (localRecord (storedFile e.1 e.2 0) e.2). lia.
Qed.

(** Writing stored files and reading them back.  The archive that
    [writeStored] lays out for the files [es] opens; its entries carry the
    names of the files in their order; and each entry, opened and read to
    its end with buffers of any length, delivers the body of its file and
    ends with [io.EOF]. *)
Theorem writeStored_round_trip (es : list (list byte * list byte)) :
  Forall storable es →
  len (storedLocals es) < 4294967296 →
  let r := writeStored es in
  ∃ fs,
    NewReader r (len r)
    = Some (Ok {| rd_r := r; rd_File := fs; rd_Comment := [] |})
    ∧ map Name fs = map fst es
    ∧ ∀ (i : nat) (f : File) (e : list byte * list byte) (n : Z) (fuel : nat),
        fs !! i = Some f → es !! i = Some e →
        0 < n → (length e.2 < fuel)%nat →
        ∃ rc,
          @Open H F _ _ f = Ok (Some rc, None)
          ∧ drain fuel n rc f [] = Some (Ok (e.2, EOF), f).
Proof.
  intros Hes Hsize. cbv zeta.
  set (r := writeStored es).
  exists (map (atStore r (len r)) (storedFiles 0 es)).
  pose proof (len_nonneg (storedLocals es)) as Hl.
  split; [| split].
  - unfold NewReader. subst r. unfold writeStored. cbv zeta.
    apply written_directory_opens.
    + apply storedFiles_fieldsFit; [exact Hes | lia | lia].
    + reflexivity.
    + exact Hsize.
    + cbn [directoryRecords]. rewrite storedFiles_length. reflexivity.
  - rewrite map_map. cbn [atStore Name]. apply storedFiles_names.
  - intros i f e n fuel Hf He Hn Hfuel.
    rewrite list_lookup_fmap in Hf.
    destruct (storedFiles 0 es !! i) as [f0 |] eqn:Hf0; [| discriminate Hf].
    cbn in Hf. injection Hf as <-.
    destruct (storedFiles_lookup es 0 i f0 e Hf0 He) as (p & q & Hlocals & ->).
    rewrite Forall_lookup in Hes.
    destruct (Hes i e He) as (Hname & Hdata & Hcrc).
    apply (localRecord_drains hash_Write_app _ p
             (q ++ concat (map directoryRecord (storedFiles 0 es))
                ++ directoryEndBytes
                     {| diskNbr := 0; dirDiskNbr := 0;
                        dirRecordsThisDisk := Z.of_nat (length es) mod 65536;
                        directoryRecords := Z.of_nat (length es) mod 65536;
                        directorySize :=
                          len (concat (map directoryRecord (storedFiles 0 es)));
                        directoryOffset := len (storedLocals es);
                        commentLen := 0; comment := [] |}));
      try reflexivity; try assumption.
    cbn [atStore zipr]. rewrite localRecord_storedFile.
    subst r. unfold writeStored. cbv zeta. rewrite Hlocals.
    rewrite <- !app_assoc. reflexivity.
Qed.

End WriteStored.

(** ** Data descriptors and local records read back *)

(** [readDataDescriptor] reads back a data descriptor: from a reader whose
    next bytes are the descriptor of three values that fit 32 bits, it
    assigns these values to the CRC-32 and the two sizes of the entry,
    leaves the other fields, and has consumed the 12 bytes. *)
Theorem readDataDescriptor_round_trip (f : File) (s : SectionReader)
    (crc32 compressedSize uncompressedSize : Z) (rest : list byte) :
  0 ≤ crc32 < 4294967296 →
  0 ≤ compressedSize < 4294967296 →
  0 ≤ uncompressedSize < 4294967296 →
  0 ≤ sr_off s →
  sr_remaining s
  = dataDescriptorBytes crc32 compressedSize uncompressedSize ++ rest →
  readDataDescriptor f s
  = (Ok (withDescriptor f crc32 compressedSize uncompressedSize),
     sr_advance s dataDescriptorLen).
Proof.
  intros Hc Hcs Hus Hoff Hrem.
  rewrite readDataDescriptor_spec by exact Hoff. cbv zeta. rewrite Hrem.
  rewrite len_app.
  change (len (dataDescriptorBytes crc32 compressedSize uncompressedSize))
    with 12.
  pose proof (len_nonneg rest) as Hr. unfold dataDescriptorLen.
  destruct (12 <=? 12 + len rest) eqn:E; [| lia].
  f_equal. f_equal.
  unfold dataDescriptorBytes, putUint32. cbn [app].
  f_equal; read_fields; apply le32_value; assumption.
Qed.

Lemma readDataDescriptor_round_trip_witness :
  readDataDescriptor entryB viewB1
  = (Ok (withDescriptor entryB 0xd8932aac 7 2),
     sr_advance viewB1 dataDescriptorLen).
Proof.
  apply (readDataDescriptor_round_trip entryB viewB1 0xd8932aac 7 2
           (drop 12 (sr_remaining viewB1))).
  - lia.
  - lia.
  - lia.
  - vm_compute. intros Hc. discriminate Hc.
  - vm_compute. reflexivity.
Defined.

(** [readFileHeader] reads back a local record: from a reader whose next
    bytes are the local record of [f] it assigns to the entry the versions,
    flags, method, times, CRC-32, sizes, name and extra field of [f], leaves
    the fields a local header does not hold, and has consumed the header,
    the name and the extra field, so that the body is next. *)
Theorem readFileHeader_round_trip (f0 f : File) (s : SectionReader)
    (data : list byte) :
  decodedEntry (zipr f) (zipsize f) f →
  0 ≤ sr_off s →
  sr_remaining s = localRecord f data →
  ∃ f',
    readFileHeader f0 s
    = (Ok tt, f',
       sr_advance s (fileHeaderLen + len (Name f) + len (Extra f)))
    ∧ sr_remaining (sr_advance s (fileHeaderLen + len (Name f) + len (Extra f)))
      = data
    ∧ f' = {| Name := Name f; CreatorVersion := CreatorVersion f0;
              ReaderVersion := ReaderVersion f; Flags := Flags f;
              Method := Method f; ModifiedTime := ModifiedTime f;
              ModifiedDate := ModifiedDate f; CRC32 := CRC32 f;
              CompressedSize := CompressedSize f;
              UncompressedSize := UncompressedSize f; Extra := Extra f;
              ExternalAttrs := ExternalAttrs f0; Comment := Comment f0;
              zipr := zipr f0; zipsize := zipsize f0;
              headerOffset := headerOffset f0 |}.
Proof.
  intros (_ & _ & H16 & H32 & Hn & He & _) Hoff Hrem.
  destruct (fileHeaderBytes_fields f Hn He) as (Hlen & Hsig & H26 & H28).
  pose proof (len_nonneg (Name f)) as Hn0. pose proof (len_nonneg (Extra f)) as He0.
  pose proof (len_nonneg data) as Hd0.
  eexists. split; [| split; [| reflexivity]].
  - rewrite readFileHeader_spec by exact Hoff. cbv zeta.
    rewrite Hrem. unfold localRecord.
    rewrite le32_app_l, !le16_app_l by lia.
    rewrite Hsig, H26, H28, Z.eqb_refl.
    rewrite !len_app, Hlen. unfold fileHeaderLen.
    destruct (30 <=? _) eqn:E1; [| lia].
    change (Z.to_nat 30) with (length (fileHeaderBytes f)).
    rewrite drop_app_length.
    match goal with
    | |- (if ?c then _ else _) = _ => destruct c eqn:E2
    end.
    2: { rewrite !len_app in E2. lia. }
    f_equal; [| f_equal; lia]. f_equal.
    unfold withName, fileHeaderFixed.
    cbn [Name CreatorVersion ReaderVersion Flags Method ModifiedTime
         ModifiedDate CRC32 CompressedSize UncompressedSize Extra
         ExternalAttrs Comment zipr zipsize headerOffset].
    rewrite !le16_app_l, !le32_app_l by lia.
    f_equal;
      try (unfold fileHeaderBytes, putUint16, putUint32; cbn [app];
           read_fields; first [apply le16_value | apply le32_value]; lia).
    + unfold len. rewrite Nat2Z.id. apply take_app_length.
    + unfold len. rewrite !Nat2Z.id. rewrite drop_app_length.
      apply take_app_length.
  - rewrite sr_remaining_advance by (unfold fileHeaderLen; lia).
    rewrite Hrem. unfold localRecord, fileHeaderLen.
    replace (Z.to_nat (30 + len (Name f) + len (Extra f)))
      with (length (fileHeaderBytes f ++ Name f ++ Extra f))
      by (rewrite !length_app; unfold len in *; lia).
    assert (fileHeaderBytes f ++ Name f ++ Extra f ++ data
            = (fileHeaderBytes f ++ Name f ++ Extra f) ++ data) as ->
      by (rewrite <- !app_assoc; reflexivity).
    apply drop_app_length.
Qed.

(** ** The round trips on the sample archive *)

(** The entries of [sampleArchive] fit the widths of the layout. *)
Lemma sampleEntries_fieldsFit : Forall fieldsFit sampleEntries.
Proof.
  assert (init sampleArchive 375
          = Some (Ok {| rd_r := sampleArchive; rd_File := sampleEntries;
                        rd_Comment := [] |})) as Hinit
    by (vm_compute; reflexivity).
  apply init_entries_decoded in Hinit. destruct Hinit as (Hfs & _).
  cbn [rd_File] in Hfs.
  eapply Forall_impl; [exact Hfs |].
  intros f Hf. unfold fieldsFit.
  destruct Hf as (Hr & Hsize & Hrest). rewrite Hr, Hsize.
  split; [exact Hr |]. split; [exact Hsize |]. exact Hrest.
Qed.

Lemma readFileHeader_findBodyOffset_witness :
  ∃ f',
    readFileHeader entryA
      (NewSectionReader (zipr entryA) (headerOffset entryA)
         (zipsize entryA - headerOffset entryA))
    = (Ok tt, f',
       sr_advance (NewSectionReader (zipr entryA) (headerOffset entryA)
                     (zipsize entryA - headerOffset entryA)) 31)
    ∧ fileHeaderLen + len (Name f') + len (Extra f') = 31.
Proof.
  destruct (readFileHeader_findBodyOffset entryA) as (_ & _ & Hok).
  - vm_compute. intros Hc. discriminate Hc.
  - destruct (Hok 31) as (f' & Hread & _ & Hlen & _).
    + vm_compute. reflexivity.
    + vm_compute. intros Hc. discriminate Hc.
    + exists f'. split; [exact Hread | exact Hlen].
Defined.

Lemma readDirectoryHeader_round_trip_witness :
  readDirectoryHeader (newFile sampleArchive 375)
    (directoryReader sampleArchive 375 165)
  = (Ok (atStore sampleArchive 375 entryA),
     sr_advance (directoryReader sampleArchive 375 165)
       (len (directoryRecord entryA))).
Proof.
  destruct (readDirectoryHeader_round_trip (newFile sampleArchive 375) entryA
              (directoryReader sampleArchive 375 165)
              (drop 212 sampleArchive)) as (Hread & _).
  - unfold decodedEntry. vm_compute.
    repeat split; first [reflexivity | intros Hc; discriminate Hc].
  - vm_compute. intros Hc. discriminate Hc.
  - vm_compute. reflexivity.
  - exact Hread.
Defined.

Lemma readFileHeader_round_trip_witness :
  ∃ f',
    readFileHeader (newFile sampleArchive 375)
      (NewSectionReader sampleArchive 0 36)
    = (Ok tt, f',
       sr_advance (NewSectionReader sampleArchive 0 36)
         (fileHeaderLen + len (Name entryA) + len (Extra entryA)))
    ∧ sr_remaining
        (sr_advance (NewSectionReader sampleArchive 0 36)
           (fileHeaderLen + len (Name entryA) + len (Extra entryA)))
      = ["h"; "e"; "l"; "l"; "o"]%byte.
Proof.
  destruct (readFileHeader_round_trip (newFile sampleArchive 375) entryA
              (NewSectionReader sampleArchive 0 36)
              ["h"; "e"; "l"; "l"; "o"]%byte) as (f' & Hread & Hrest & _).
  - unfold decodedEntry. vm_compute.
    repeat split; first [reflexivity | intros Hc; discriminate Hc].
  - vm_compute. intros Hc. discriminate Hc.
  - vm_compute. reflexivity.
  - exists f'. split; [exact Hread | exact Hrest].
Defined.

Lemma NewReader_round_trip_witness :
  NewReader
    (take 165 sampleArchive ++ concat (map directoryRecord sampleEntries)
     ++ directoryEndBytes (directoryEndAt sampleArchive 353))
    (len (take 165 sampleArchive ++ concat (map directoryRecord sampleEntries)
          ++ directoryEndBytes (directoryEndAt sampleArchive 353)))
  = Some (Ok {| rd_r :=
                  take 165 sampleArchive
                  ++ concat (map directoryRecord sampleEntries)
                  ++ directoryEndBytes (directoryEndAt sampleArchive 353);
                rd_File :=
                  map (atStore
                         (take 165 sampleArchive
                          ++ concat (map directoryRecord sampleEntries)
                          ++ directoryEndBytes (directoryEndAt sampleArchive 353))
                         (len (take 165 sampleArchive
                               ++ concat (map directoryRecord sampleEntries)
                               ++ directoryEndBytes
                                    (directoryEndAt sampleArchive 353))))
                    sampleEntries;
                rd_Comment := [] |}).
Proof.
  apply (NewReader_round_trip (take 165 sampleArchive) sampleEntries
           (directoryEndAt sampleArchive 353)).
  - exact sampleEntries_fieldsFit.
  - vm_compute. reflexivity.
  - vm_compute. reflexivity.
  - vm_compute. reflexivity.
Defined.

Lemma stored_record_round_trip_witness :
  ∃ rc,
    @Open Z storedInflater _ _ entryA = Ok (Some rc, None)
    ∧ drain 6 2 rc entryA []
      = Some (Ok (["h"; "e"; "l"; "l"; "o"]%byte, EOF), entryA).
Proof.
  apply (@stored_record_round_trip Z storedInflater crc32_ieee
           storedInflater_flate crc32_update_app entryA []
           (drop 36 sampleArchive) ["h"; "e"; "l"; "l"; "o"]%byte 2 6).
  - vm_compute. reflexivity.
  - vm_compute. reflexivity.
  - vm_compute. reflexivity.
  - vm_compute. reflexivity.
  - vm_compute. reflexivity.
  - vm_compute. reflexivity.
  - vm_compute. reflexivity.
  - vm_compute. reflexivity.
  - vm_compute. reflexivity.
  - lia.
  - vm_compute. lia.
Defined.

Lemma writeStored_round_trip_witness :
  ∃ fs,
    NewReader (writeStored twoFiles) (len (writeStored twoFiles))
    = Some (Ok {| rd_r := writeStored twoFiles; rd_File := fs;
                  rd_Comment := [] |})
    ∧ map Name fs = map fst twoFiles
    ∧ ∀ (i : nat) (f : File) (e : list byte * list byte) (n : Z) (fuel : nat),
        fs !! i = Some f → twoFiles !! i = Some e →
        0 < n → (length e.2 < fuel)%nat →
        ∃ rc,
          @Open Z storedInflater _ _ f = Ok (Some rc, None)
          ∧ drain fuel n rc f [] = Some (Ok (e.2, EOF), f).
Proof.
  apply (@writeStored_round_trip Z storedInflater crc32_ieee
           storedInflater_flate crc32_update_app twoFiles).
  - unfold twoFiles.
    repeat (constructor;
            [unfold storable; vm_compute;
             repeat split; first [reflexivity | intros Hc; discriminate Hc] |]).
    constructor.
  - vm_compute. reflexivity.
Defined.

(** ** [io.EOF] from an entry with the data-descriptor flag *)

Section FlaggedEntries.
Context {H F : Type} `{!Crc32 H} `{!Flate F}.

Lemma rc_Read_off (rc : @ReadCloser F) (s : SectionReader) (n : Z) :
  0 ≤ sr_off s → 0 ≤ sr_off (rc_Read rc s n).2.
Proof.
  intros Hoff. destruct rc as [| st]; cbn [rc_Read].
  - unfold SectionReader_Read.
    destruct (sr_limit s <=? sr_off s); [exact Hoff |].
    destruct (ReadAt _ _ _) as [got err]. cbn [snd sr_advance sr_off].
    pose proof (len_nonneg got). lia.
  - cbn [snd sr_advance sr_off].
    pose proof (len_nonneg (sr_remaining s)). lia.
Qed.

(** For an entry with the data-descriptor flag, of any method and with any
    decompressor, [io.EOF] from [Read] never follows a comparison of
    checksums: when [Read] returns it, the reader beneath had no byte left
    for a data descriptor, the entry is as it was, and the same call returns
    the same bytes and [io.EOF] for every CRC-32 the entry may hold and for
    every state of the checksum. *)
Theorem flagged_entry_EOF_is_unverified (r r' : @checksumReader H F)
    (f f' : File) (n : Z) (data : list byte) :
  hasDataDescriptor f = true →
  0 ≤ sr_off (cr_zipr r) →
  Read r f n = (Ok (data, Some EOF), r', f') →
  f' = f
  ∧ sr_remaining (cr_zipr r') = []
  ∧ ∀ (g : File) (h : H),
      hasDataDescriptor g = true →
      (Read {| cr_rc := cr_rc r; cr_hash := h; cr_zipr := cr_zipr r |} g n).1.1
      = Ok (data, Some EOF).
Proof.
  intros Hflag Hoff. unfold Read. cbn [cr_rc cr_zipr cr_hash].
  pose proof (rc_Read_off (cr_rc r) (cr_zipr r) n Hoff) as Hoff'.
  destruct (rc_Read (cr_rc r) (cr_zipr r) n) as [[[data0 err] rc] zr].
  cbn [snd] in Hoff'.
  destruct err as [e |]; [| intros Hc; discriminate Hc].
  destruct e; try (intros Hc; discriminate Hc).
  rewrite Hflag. rewrite readDataDescriptor_spec by exact Hoff'. cbv zeta.
  destruct (dataDescriptorLen <=? len (sr_remaining zr)) eqn:E1.
  { match goal with
    | |- context [if ?c then Some ErrChecksum else None] => destruct c
    end; intros Hc; discriminate Hc. }
  destruct (0 <? len (sr_remaining zr)) eqn:E2; [intros Hc; discriminate Hc |].
  intros Heq. injection Heq as <- <- <-. cbn [cr_zipr].
  assert (sr_remaining zr = []) as Hnil.
  { pose proof (len_nonneg (sr_remaining zr)) as Hl.
    destruct (sr_remaining zr) as [| x l]; [reflexivity |].
    apply Z.ltb_ge in E2. unfold len in E2. cbn [length] in E2. lia. }
  split; [reflexivity |]. split; [exact Hnil |].
  intros g h Hg. rewrite Hg.
  rewrite readDataDescriptor_spec by exact Hoff'. cbv zeta.
  rewrite E1, E2. reflexivity.
Qed.

End FlaggedEntries.

Lemma flagged_entry_EOF_is_unverified_witness :
  entryC = entryC
  ∧ ∀ (g : File) (h : Z),
      hasDataDescriptor g = true →
      (Read {| cr_rc := cr_rc (Read readerC entryC 16).1.2; cr_hash := h;
               cr_zipr := cr_zipr (Read readerC entryC 16).1.2 |} g 16).1.1
      = Ok ([], Some EOF).
Proof.
  destruct (@flagged_entry_EOF_is_unverified Z storedInflater _ _
              (Read readerC entryC 16).1.2
              (Read (Read readerC entryC 16).1.2 entryC 16).1.2
              entryC entryC 16 []) as (Hf & _ & Hany).
  - vm_compute. reflexivity.
  - vm_compute. intros Hc. discriminate Hc.
  - vm_compute. reflexivity.
  - split; [exact Hf | exact Hany].
Defined.
